(** * vsl_json: a JSON encoder that puts small lists on single lines

    A shallow embedding of [vsl_json.py] (class [VSLJSONEncoder] and the
    module functions [dumps], [dump]) together with the properties of its
    formatting procedure.

    Python values are modelled by an inductive type, [str] by the list of
    its code points, [int] by [Z], [float] by the IEEE-754 binary64 values
    of [SpecFloat].  The encoder object is a configuration record plus the
    mutable counter [indentation_level]; methods are computations in a
    state-and-exception monad over that counter. *)

From Stdlib Require Import ZArith NArith List Bool Ascii String Lia Sorted.
From Stdlib Require Import Floats.SpecFloat.
Import ListNotations.

Local Open Scope Z_scope.

(** ** Python strings *)

(** A Python [str] is a sequence of Unicode code points; [len] counts code
    points, comparison is lexicographic on code points. *)
Definition pystr := list N.

Definition lit (s : string) : pystr :=
  map (fun a => N_of_ascii a) (list_ascii_of_string s).

Definition len {A : Type} (s : list A) : Z := Z.of_nat (List.length s).

Fixpoint str_eqb (a b : pystr) : bool :=
  match a, b with
  | [], [] => true
  | x :: a', y :: b' => N.eqb x y && str_eqb a' b'
  | _, _ => false
  end.

(** [a < b] on [str]. *)
Fixpoint str_ltb (a b : pystr) : bool :=
  match a, b with
  | _, [] => false
  | [], _ :: _ => true
  | x :: a', y :: b' =>
      match N.compare x y with
      | Lt => true
      | Gt => false
      | Eq => str_ltb a' b'
      end
  end.

(** The newline character, ["\n"]. *)
Definition nl : pystr := [10%N].

(** [sep.join(parts)] *)
Fixpoint join (sep : pystr) (parts : list pystr) : pystr :=
  match parts with
  | [] => []
  | [p] => p
  | p :: rest => p ++ sep ++ join sep rest
  end.

(** [n * s] for an [int] n: the empty string when [n <= 0]. *)
Definition str_repeat (n : Z) (s : pystr) : pystr :=
  List.concat (repeat s (Z.to_nat n)).

Fixpoint lstrip_char (c : N) (s : pystr) : pystr :=
  match s with
  | x :: s' => if N.eqb x c then lstrip_char c s' else s
  | [] => []
  end.

(** [s.rstrip(c)] for a one-character argument. *)
Definition rstrip (c : N) (s : pystr) : pystr :=
  rev (lstrip_char c (rev s)).

(** ** Decimal and hexadecimal digits *)

Definition digit_char (d : Z) : N := Z.to_N (48 + d).

Fixpoint digits_fuel (fuel : nat) (n : Z) (acc : pystr) : pystr :=
  match fuel with
  | O => acc
  | S fuel' =>
      let acc' := digit_char (n mod 10) :: acc in
      if n <? 10 then acc' else digits_fuel fuel' (n / 10) acc'
  end.

(** Decimal digits of a non-negative integer, most significant first. *)
Definition nat_digits (n : Z) : pystr :=
  digits_fuel (S (Z.to_nat (Z.log2 n))) n [].

(** [int.__repr__] *)
Definition int_repr (n : Z) : pystr :=
  if n <? 0 then lit "-" ++ nat_digits (- n) else nat_digits n.

Definition hex_char (d : N) : N :=
  (if d <? 10 then 48 + d else 87 + d)%N.

(** ['{0:04x}'.format(n)] for [n < 0x10000]. *)
Definition hex4 (n : N) : pystr :=
  [ hex_char (N.land (N.shiftr n 12) 15); hex_char (N.land (N.shiftr n 8) 15);
    hex_char (N.land (N.shiftr n 4) 15); hex_char (N.land n 15) ].

(** ** Floats *)

Definition float := spec_float.

Definition valid_float (x : float) : bool := valid_binary 53 1024 x.

(** [float.is_integer]: finite with no fractional part. *)
Definition is_integer (x : float) : bool :=
  match x with
  | S754_zero _ => true
  | S754_finite _ m e =>
      if 0 <=? e then true else Z.pos m mod 2 ^ (- e) =? 0
  | S754_infinity _ | S754_nan => false
  end.

Definition is_finite (x : float) : bool :=
  match x with
  | S754_zero _ | S754_finite _ _ _ => true
  | S754_infinity _ | S754_nan => false
  end.

Definition sign_str (s : bool) : pystr := if s then lit "-" else [].

(** [num / den] rounded to the nearest integer, ties to even. *)
Definition round_half_even (num den : Z) : Z :=
  let q := num / den in
  match 2 * (num mod den) ?= den with
  | Lt => q
  | Gt => q + 1
  | Eq => if Z.even q then q else q + 1
  end.

(** The value [m * 2^e] times [10^6], correctly rounded to an integer. *)
Definition scaled6 (m : positive) (e : Z) : Z :=
  if 0 <=? e then Z.pos m * 2 ^ e * 10 ^ 6
  else round_half_even (Z.pos m * 10 ^ 6) (2 ^ (- e)).

Definition pad6 (n : Z) : pystr :=
  map (fun k => digit_char (n / 10 ^ k mod 10)) [5; 4; 3; 2; 1; 0].

Definition fixed6 (n : Z) : pystr :=
  nat_digits (n / 10 ^ 6) ++ lit "." ++ pad6 (n mod 10 ^ 6).

(** [f"{o:0.6f}"]: six digits after the point, correctly rounded; the
    zero flag without a width pads nothing. *)
Definition format_06f (x : float) : pystr :=
  match x with
  | S754_nan => lit "nan"
  | S754_infinity s => sign_str s ++ lit "inf"
  | S754_zero s => sign_str s ++ fixed6 0
  | S754_finite s m e => sign_str s ++ fixed6 (scaled6 m e)
  end.

(** *** [float.__repr__]

    The shortest decimal string that reads back as the same float, and
    among those the one nearest to it.  For the positive float [m * 2^e]
    the decimals that read back as it lie between the midpoints with its
    two neighbours; the bounds are kept as integers over a common
    denominator: the value is [num / den], the midpoints are
    [(num - below) / den] and [(num + above) / den], and they are included
    when the mantissa is even. *)

Record interval := {
  num : Z; den : Z; below : Z; above : Z; closed : bool
}.

Definition rounding_interval (m : positive) (e : Z) : interval :=
  let narrow := (Z.pos m =? 2 ^ 52) && (-1074 <? e) in
  let p := if 2 <=? e then 2 ^ (e - 2) else 1 in
  {| num := 4 * Z.pos m * p;
     den := if 2 <=? e then 1 else 2 ^ (2 - e);
     below := (if narrow then 1 else 2) * p;
     above := 2 * p;
     closed := Z.even (Z.pos m) |}.

(** [10^t <= n / d] *)
Definition pow10_le (t n d : Z) : bool :=
  if 0 <=? t then 10 ^ t * d <=? n else d <=? n * 10 ^ (- t).

Fixpoint decpt_from (fuel : nat) (t n d : Z) : Z :=
  match fuel with
  | O => t
  | S fuel' => if pow10_le t n d then decpt_from fuel' (t + 1) n d else t
  end.

(** The least [t] with [n / d < 10^t], for a binary64 magnitude. *)
Definition decimal_point (n d : Z) : Z := decpt_from 640 (-324) n d.

(** The two neighbouring multiples of [10^k] around the value; [check]
    asks that the chosen one reads back as the float. *)
Definition nearest_at (check : bool) (iv : interval) (k : Z) : option Z :=
  let a := if 0 <=? k then 10 ^ k else 1 in
  let b := if 0 <=? k then 1 else 10 ^ (- k) in
  let v := num iv * b in
  let u := a * den iv in
  let lo := (num iv - below iv) * b in
  let hi := (num iv + above iv) * b in
  let inside c :=
    negb check ||
    (if closed iv then (lo <=? c) && (c <=? hi) else (lo <? c) && (c <? hi)) in
  let d0 := v / u in
  let d1 := d0 + 1 in
  match inside (d0 * u), inside (d1 * u) with
  | true, true =>
      Some (match v - d0 * u ?= d1 * u - v with
            | Lt => d0
            | Gt => d1
            | Eq => if Z.even d0 then d0 else d1
            end)
  | true, false => Some d0
  | false, true => Some d1
  | false, false => None
  end.

(** Try 1, 2, ... significant digits; seventeen always identify a
    binary64 value, so the last attempt takes the nearest decimal. *)
Fixpoint shortest_from (fuel : nat) (iv : interval) (t n : Z) : Z * Z :=
  match fuel with
  | O =>
      match nearest_at false iv (t - n) with
      | Some d => (d, t - n)
      | None => (0, t - n)
      end
  | S fuel' =>
      match nearest_at true iv (t - n) with
      | Some d => (d, t - n)
      | None => shortest_from fuel' iv t (n + 1)
      end
  end.

Fixpoint strip_zeros (fuel : nat) (d k : Z) : Z * Z :=
  match fuel with
  | O => (d, k)
  | S fuel' =>
      if (d mod 10 =? 0) && (0 <? d) then strip_zeros fuel' (d / 10) (k + 1)
      else (d, k)
  end.

(** Digits [d] and exponent [k]: the float prints as [d * 10^k]. *)
Definition shortest_digits (m : positive) (e : Z) : Z * Z :=
  let iv := rounding_interval m e in
  let '(d, k) := shortest_from 16 iv (decimal_point (num iv) (den iv)) 1 in
  strip_zeros 20 d k.

Definition zeros (n : Z) : pystr := str_repeat n (lit "0").

Definition exp_str (x : Z) : pystr :=
  lit (if x <? 0 then "-" else "+") ++
  (if Z.abs x <? 10 then lit "0" else []) ++ nat_digits (Z.abs x).

(** Layout of [repr]: exponent notation when the decimal point would sit
    more than 16 digits right or 4 or more zeros left of the digits,
    otherwise positional with at least one digit after the point. *)
Definition repr_layout (d k : Z) : pystr :=
  let ds := nat_digits d in
  let nd := len ds in
  let decpt := k + nd in
  if (decpt <=? -4) || (16 <? decpt) then
    firstn 1 ds ++ (if 1 <? nd then lit "." ++ skipn 1 ds else []) ++
    lit "e" ++ exp_str (decpt - 1)
  else if decpt <=? 0 then lit "0." ++ zeros (- decpt) ++ ds
  else if nd <=? decpt then ds ++ zeros (decpt - nd) ++ lit ".0"
  else firstn (Z.to_nat decpt) ds ++ lit "." ++ skipn (Z.to_nat decpt) ds.

(** [repr(x)], which is also [str(x)] and [f"{x}"]. *)
Definition float_repr (x : float) : pystr :=
  match x with
  | S754_nan => lit "nan"
  | S754_infinity s => sign_str s ++ lit "inf"
  | S754_zero s => sign_str s ++ lit "0.0"
  | S754_finite s m e =>
      sign_str s ++ let '(d, k) := shortest_digits m e in repr_layout d k
  end.

(** ** String escaping of the [json] module *)

(** [ESCAPE_DCT]: backslash, double quote, [\b], [\f], [\n], [\r], [\t]
    have two-character escapes, the other characters below [0x20] are
    written [\u00XX]. *)
Definition ESCAPE_DCT (c : N) : option pystr :=
  (if c =? 92 then Some [92; 92]
   else if c =? 34 then Some [92; 34]
   else if c =? 8 then Some [92; 98]
   else if c =? 12 then Some [92; 102]
   else if c =? 10 then Some [92; 110]
   else if c =? 13 then Some [92; 114]
   else if c =? 9 then Some [92; 116]
   else if c <? 32 then Some ([92; 117] ++ hex4 c)
   else None)%N.

(** [py_encode_basestring]: used when [ensure_ascii] is false. *)
Definition encode_basestring (s : pystr) : pystr :=
  [34%N] ++
  flat_map (fun c => match ESCAPE_DCT c with Some r => r | None => [c] end) s ++
  [34%N].

(** [py_encode_basestring_ascii]: every character outside [' '..'~'] is
    escaped too, those above [0xffff] as a surrogate pair. *)
Definition escape_ascii (c : N) : pystr :=
  match ESCAPE_DCT c with
  | Some r => r
  | None =>
      if ((32 <=? c) && (c <=? 126))%N then [c]
      else if (c <? 65536)%N then [92; 117]%N ++ hex4 c
      else
        let n := (c - 65536)%N in
        let s1 := N.lor 55296 (N.land (N.shiftr n 10) 1023) in
        let s2 := N.lor 56320 (N.land n 1023) in
        [92; 117]%N ++ hex4 s1 ++ [92; 117]%N ++ hex4 s2
  end.

Definition encode_basestring_ascii (s : pystr) : pystr :=
  [34%N] ++ flat_map escape_ascii s ++ [34%N].

(** ** Python values *)

(** The values that are not containers.  [POpaque] stands for an object of
    any other type (a [set], a [bytes], ...), which [json] cannot
    serialise. *)
Inductive prim :=
| PNone
| PBool (b : bool)
| PInt (n : Z)
| PFloat (x : float)
| PStr (s : pystr)
| POpaque.

(** The keys a [dict] is given here. *)
Inductive pykey :=
| KNone
| KBool (b : bool)
| KInt (n : Z)
| KFloat (x : float)
| KStr (s : pystr).

(** A [dict] is the list of its items in iteration (insertion) order. *)
#[warnings="-register-all"]
Inductive pyval :=
| Prim (p : prim)
| PList (l : list pyval)
| PTuple (l : list pyval)
| PDict (items : list (pykey * pyval)).

(** [isinstance(el, CONTAINER_TYPES)] with
    [CONTAINER_TYPES = (list, tuple, dict)]. *)
Definition is_container (el : pyval) : bool :=
  match el with
  | Prim _ => false
  | PList _ | PTuple _ | PDict _ => true
  end.

(** [str(k)] *)
Definition py_str (k : pykey) : pystr :=
  match k with
  | KNone => lit "None"
  | KBool b => lit (if b then "True" else "False")
  | KInt n => int_repr n
  | KFloat x => float_repr x
  | KStr s => s
  end.

Definition is_None (k : pykey) : bool :=
  match k with KNone => true | _ => false end.

(** *** Dictionaries with [str] keys *)

(** [d[k] = v]: an existing key keeps its position and takes the new
    value, a new key goes last. *)
Fixpoint dict_set {V : Type} (d : list (pystr * V)) (k : pystr) (v : V)
  : list (pystr * V) :=
  match d with
  | [] => [(k, v)]
  | (k', v') :: d' =>
      if str_eqb k' k then (k', v) :: d' else (k', v') :: dict_set d' k v
  end.

(** [dict(items)] *)
Definition dict_of_items {V : Type} (items : list (pystr * V))
  : list (pystr * V) :=
  fold_left (fun d kv => dict_set d (fst kv) (snd kv)) items [].

Fixpoint dict_get {V : Type} (d : list (pystr * V)) (k : pystr) : option V :=
  match d with
  | [] => None
  | (k', v) :: d' => if str_eqb k' k then Some v else dict_get d' k
  end.

(** [{str(k) if k is not None else "null": v for k, v in o.items()}] *)
Definition key_text (k : pykey) : pystr :=
  if is_None k then lit "null" else py_str k.

Definition stringify_keys {V : Type} (o : list (pykey * V))
  : list (pystr * V) :=
  dict_of_items (map (fun kv => (key_text (fst kv), snd kv)) o).

(** [sorted(items, key=lambda x: x[0])]: a stable sort that compares the
    keys with [<] only. *)
Fixpoint insert_item {V : Type} (x : pystr * V) (l : list (pystr * V))
  : list (pystr * V) :=
  match l with
  | [] => [x]
  | y :: l' =>
      if str_ltb (fst y) (fst x) then y :: insert_item x l' else x :: y :: l'
  end.

Definition sorted {V : Type} (items : list (pystr * V)) : list (pystr * V) :=
  fold_right insert_item [] items.

(** ** Exceptions and the encoder's state *)

Inductive exn :=
| TypeError    (* Object of type ... is not JSON serializable *)
| ValueError.  (* Out of range float values are not JSON compliant *)

Inductive outcome (A : Type) :=
| Ok (a : A)
| Raise (e : exn).
Arguments Ok {A} a.
Arguments Raise {A} e.

(** A method of the encoder: it reads and updates [self.indentation_level]
    and returns or raises; an exception leaves the counter as it was at
    the [raise]. *)
Definition M (A : Type) : Type := Z -> Z * outcome A.

Definition ret {A : Type} (a : A) : M A := fun lvl => (lvl, Ok a).

Definition bind {A B : Type} (c : M A) (k : A -> M B) : M B :=
  fun lvl =>
    match c lvl with
    | (lvl', Ok a) => k a lvl'
    | (lvl', Raise e) => (lvl', Raise e)
    end.

Definition lift {A : Type} (r : outcome A) : M A := fun lvl => (lvl, r).

Definition get_level : M Z := fun lvl => (lvl, Ok lvl).

(** [self.indentation_level += d] *)
Definition add_level (d : Z) : M unit := fun lvl => (lvl + d, Ok tt).

Declare Scope py_scope.
Delimit Scope py_scope with py.
Notation "x <- c ;; k" := (bind c (fun x => k))
  (at level 61, c at next level, right associativity) : py_scope.
Notation "c ;; k" := (bind c (fun _ => k))
  (at level 61, right associativity) : py_scope.
Local Open Scope py_scope.

(** A comprehension [[f(el) for el in o]], evaluated left to right. *)
Fixpoint for_each {A B : Type} (f : A -> M B) (o : list A) : M (list B) :=
  match o with
  | [] => ret []
  | el :: o' => x <- f el ;; xs <- for_each f o' ;; ret (x :: xs)
  end.

(** ** The encoder *)

(** The attributes of a [VSLJSONEncoder] that its methods read.  [indent]
    is a [str] (see [indent_str]); [skipkeys], [check_circular],
    [separators] and [default] keep the values [json.JSONEncoder] gives
    them. *)
Record encoder := {
  indent : pystr;
  sort_keys : bool;
  ensure_ascii : bool;
  allow_nan : bool
}.

(** [__init__]: without an [indent] the encoder takes two spaces. *)
Definition VSLJSONEncoder (indent : option pystr)
    (sort_keys ensure_ascii allow_nan : bool) : encoder :=
  {| indent := match indent with None => lit "  " | Some s => s end;
     sort_keys := sort_keys;
     ensure_ascii := ensure_ascii;
     allow_nan := allow_nan |}.

Definition MAX_WIDTH : Z := 79.
Definition MAX_ITEMS : Z := 10.

(** [json.dumps(o, ...)] of the standard library on a value that is not a
    container: [floatstr] is where [allow_nan] is enforced. *)
Definition floatstr (allow_nan : bool) (x : float) : outcome pystr :=
  match x with
  | S754_nan => if allow_nan then Ok (lit "NaN") else Raise ValueError
  | S754_infinity s =>
      if allow_nan then Ok (sign_str s ++ lit "Infinity") else Raise ValueError
  | _ => Ok (float_repr x)
  end.

Definition json_dumps (self : encoder) (p : prim) : outcome pystr :=
  match p with
  | PStr s =>
      Ok (if ensure_ascii self then encode_basestring_ascii s
          else encode_basestring s)
  | PNone => Ok (lit "null")
  | PBool b => Ok (lit (if b then "true" else "false"))
  | PInt n => Ok (int_repr n)
  | PFloat x => floatstr (allow_nan self) x
  | POpaque => Raise TypeError
  end.

(** [json.dumps(k, ensure_ascii=self.ensure_ascii)] on a [str] key. *)
Definition json_dumps_key (self : encoder) (k : pystr) : pystr :=
  if ensure_ascii self then encode_basestring_ascii k else encode_basestring k.

(** The methods of the class.  A method that calls [self.encode] on the
    members of its argument is written over members of any type [V] that
    carry the two things it asks of a member: whether it is a container,
    and its [self.encode] call.  [encode] below instantiates them. *)
Section Methods.
Variable self : encoder.
Context {V : Type}.
Variable isinstance_container : V -> bool.
Variable self_encode : V -> M pystr.

  (** The property [indent_str] *)
Definition indent_str : M pystr :=
    lvl <- get_level ;; ret (str_repeat lvl (indent self)).

Definition _primitives_only (o : list V + list (pystr * V)) : bool :=
    match o with
    | inl o => negb (existsb isinstance_container o)
    | inr o => negb (existsb isinstance_container (map snd o))
    end.

Definition _encode_list (o : list V) : M pystr :=
    data <- (if _primitives_only (inl o) && (len o <=? MAX_ITEMS) then
               parts <- for_each self_encode o ;;
               let data := lit "[" ++ join (lit ", ") parts ++ lit "]" in
               lvl <- get_level ;;
               if len data + lvl * 2 <? MAX_WIDTH then ret (Some data)
               else ret None
             else ret None) ;;
    match data with
    | Some data => ret data
    | None =>
        add_level 1 ;;
        output <- for_each (fun el => i <- indent_str ;;
                                      s <- self_encode el ;;
                                      ret (i ++ s)) o ;;
        add_level (-1) ;;
        i <- indent_str ;;
        ret (lit "[" ++ nl ++ join (lit "," ++ nl) output ++ nl ++ i ++ lit "]")
    end.

Definition _encode_object (o : list (pykey * V)) : M pystr :=
    match o with
    | [] => ret (lit "{}")
    | _ :: _ =>
        let o := stringify_keys o in
        let o := if sort_keys self then dict_of_items (sorted o) else o in
        add_level 1 ;;
        output <- for_each (fun kv => i <- indent_str ;;
                                      s <- self_encode (snd kv) ;;
                                      ret (i ++ json_dumps_key self (fst kv)
                                             ++ lit ": " ++ s)) o ;;
        add_level (-1) ;;
        i <- indent_str ;;
        ret (lit "{" ++ nl ++ join (lit "," ++ nl) output ++ nl ++ i ++ lit "}")
    end.
End Methods.

(** The float branch of [encode]. *)
Definition encode_float (o : float) : pystr :=
  if is_integer o then float_repr o
  else rstrip 46 (rstrip 48 (format_06f o)).

(** [encode]: each member of a container is handed to the methods along
    with its own [self.encode] call. *)
Fixpoint encode (self : encoder) (o : pyval) {struct o} : M pystr :=
  match o with
  | Prim (PFloat x) => ret (encode_float x)
  | PList l | PTuple l =>
      _encode_list self (fun el => is_container (fst el)) snd
        (map (fun el => (el, encode self el)) l)
  | PDict items =>
      _encode_object self (fun el => el)
        (map (fun kv => (fst kv, encode self (snd kv))) items)
  | Prim p => lift (json_dumps self p)
  end.

(** [iterencode]: "required to also work with [json.dump]". *)
Definition iterencode (self : encoder) (o : pyval) : M pystr := encode self o.

(** ** Module functions *)

(** The encoder [json.dumps(data, allow_nan=False, sort_keys=True,
    ensure_ascii=False, cls=VSLJSONEncoder)] builds; [__init__] sets its
    [indentation_level] to 0. *)
Definition dumps_encoder : encoder := VSLJSONEncoder None true false false.

Definition dumps (data : pyval) : outcome pystr :=
  snd (encode dumps_encoder data 0).

(** [json.dump(obj, fp, cls=VSLJSONEncoder, ...)] of the standard library:
    [for chunk in iterable: fp.write(chunk)] over what [iterencode]
    returns.  Iterating over a [str] yields its characters one by one;
    [fp] is the text the file object holds. *)
Definition chunks (iterable : pystr) : list pystr :=
  map (fun c => [c]) iterable.

Definition json_dump (self : encoder) (obj : pyval) (fp : pystr)
  : pystr * outcome unit :=
  match iterencode self obj 0 with
  | (_, Ok iterable) =>
      (fold_left (fun written chunk => written ++ chunk) (chunks iterable) fp,
       Ok tt)
  | (_, Raise e) => (fp, Raise e)
  end.

(** Files: the text stored under each path. *)
Definition filesystem := pystr -> option pystr.

Definition fs_set (fs : filesystem) (path text : pystr) : filesystem :=
  fun p => if str_eqb p path then Some text else fs p.

(** [open(json_filename, "w", encoding="utf-8")] creates the file or
    empties it. *)
Definition open_w (fs : filesystem) (path : pystr) : filesystem :=
  fs_set fs path [].

(** [out.write(text)] *)
Definition write (fs : filesystem) (path text : pystr) : filesystem :=
  fs_set fs path (match fs path with Some c => c ++ text | None => text end).

(** [dump]: "save first to raw_json, as json.dump will corrupt file in
    extreme cases". *)
Definition dump (data : pyval) (json_filename : pystr) (fs : filesystem)
  : filesystem * outcome unit :=
  match dumps data with
  | Raise e => (fs, Raise e)
  | Ok raw_json =>
      let fs := open_w fs json_filename in
      (write fs json_filename raw_json, Ok tt)
  end.

(** ** Reading JSON text: [json.loads]

    The decoder of the standard library ([json.decoder], [json.scanner]),
    with its default hooks.  Positions in the text are modelled by the
    text that remains. *)

(** [WHITESPACE]: spaces, tabs, newlines and carriage returns. *)
Definition is_ws (c : N) : bool :=
  ((c =? 32) || (c =? 9) || (c =? 10) || (c =? 13))%N.

Fixpoint skip_ws (s : pystr) : pystr :=
  match s with
  | c :: s' => if is_ws c then skip_ws s' else s
  | [] => []
  end.

Definition is_digit (c : N) : bool := ((48 <=? c) && (c <=? 57))%N.

(** The digits at the front and what follows them. *)
Fixpoint span_digits (s : pystr) : pystr * pystr :=
  match s with
  | c :: s' =>
      if is_digit c then let (ds, r) := span_digits s' in (c :: ds, r)
      else ([], s)
  | [] => ([], [])
  end.

(** [NUMBER_RE]: the integer part (an optional minus sign, then 0 or a
    digit from 1 to 9 followed by digits), an optional fraction (a point
    and digits) and an optional exponent (e or E, an optional sign and
    digits).  The three groups and the rest of the text; an optional group
    that does not match is empty. *)
Definition match_unsigned (sign s : pystr) : option (pystr * pystr) :=
  match s with
  | c :: s1 =>
      if (c =? 48)%N then Some (sign ++ [c], s1)
      else if is_digit c then
        let (ds, r) := span_digits s in Some (sign ++ ds, r)
      else None
  | [] => None
  end.

Definition match_integer (s : pystr) : option (pystr * pystr) :=
  match s with
  | c :: s' => if (c =? 45)%N then match_unsigned [c] s' else match_unsigned [] s
  | [] => None
  end.

Definition match_frac (s : pystr) : pystr * pystr :=
  match s with
  | c :: s1 =>
      if (c =? 46)%N then
        match span_digits s1 with
        | ([], _) => ([], s)
        | (fs, r) => (c :: fs, r)
        end
      else ([], s)
  | [] => ([], s)
  end.

Definition match_sign (s : pystr) : pystr * pystr :=
  match s with
  | d :: s' => if ((d =? 43) || (d =? 45))%N then ([d], s') else ([], s)
  | [] => ([], s)
  end.

Definition match_exp (s : pystr) : pystr * pystr :=
  match s with
  | c :: s1 =>
      if ((c =? 101) || (c =? 69))%N then
        let (sg, s2) := match_sign s1 in
        match span_digits s2 with
        | ([], _) => ([], s)
        | (es, r) => (c :: sg ++ es, r)
        end
      else ([], s)
  | [] => ([], s)
  end.

Definition match_number (s : pystr)
  : option (pystr * pystr * pystr * pystr) :=
  match match_integer s with
  | None => None
  | Some (integer, s1) =>
      let (frac, s2) := match_frac s1 in
      let (exp, s3) := match_exp s2 in
      Some (integer, frac, exp, s3)
  end.

Definition digits_value (ds : pystr) : Z :=
  fold_left (fun acc c => 10 * acc + (Z.of_N c - 48)) ds 0.

(** [int(integer)] *)
Definition parse_int (integer : pystr) : Z :=
  match integer with
  | c :: ds => if (c =? 45)%N then - digits_value ds else digits_value integer
  | [] => 0
  end.

(** The binary64 number nearest to [n * 10^e], ties to even. *)
Definition decimal_to_float (neg : bool) (n e : Z) : float :=
  match n with
  | Z0 => S754_zero neg
  | Zpos p =>
      if 0 <=? e then
        binary_normalize 53 1024 (if neg then - (n * 10 ^ e) else n * 10 ^ e)
                         0 false
      else
        SFdiv 53 1024 (S754_finite neg p 0)
              (S754_finite false (Z.to_pos (10 ^ (- e))) 0)
  | Zneg _ => S754_nan
  end.

(** [float(integer + frac + exp)] *)
Definition parse_float (integer frac exp : pystr) : float :=
  let neg := match integer with c :: _ => (c =? 45)%N | [] => false end in
  let ids := if neg then tl integer else integer in
  let fds := tl frac in
  let ex :=
    match exp with
    | _ :: c :: es =>
        if (c =? 45)%N then - digits_value es
        else if (c =? 43)%N then digits_value es
        else digits_value (c :: es)
    | _ => 0
    end in
  decimal_to_float neg (digits_value (ids ++ fds)) (ex - len fds).

(** [BACKSLASH]: the characters that may follow a backslash. *)
Definition BACKSLASH (esc : N) : option N :=
  (if esc =? 34 then Some 34
   else if esc =? 92 then Some 92
   else if esc =? 47 then Some 47
   else if esc =? 98 then Some 8
   else if esc =? 102 then Some 12
   else if esc =? 110 then Some 10
   else if esc =? 114 then Some 13
   else if esc =? 116 then Some 9
   else None)%N.

Definition hex_value (c : N) : option N :=
  (if (48 <=? c) && (c <=? 57) then Some (c - 48)
   else if (97 <=? c) && (c <=? 102) then Some (c - 87)
   else if (65 <=? c) && (c <=? 70) then Some (c - 55)
   else None)%N.

(** [_decode_uXXXX] on the four characters after [\u]. *)
Definition decode_uXXXX (a b c d : N) : option N :=
  match hex_value a, hex_value b, hex_value c, hex_value d with
  | Some x, Some y, Some z, Some w => Some (((x * 16 + y) * 16 + z) * 16 + w)%N
  | _, _, _, _ => None
  end.

(** [scanstring] in strict mode, from behind the opening quote: the string
    and the text behind its closing quote. *)
Fixpoint scanstring (s : pystr) : option (pystr * pystr) :=
  match s with
  | [] => None
  | c :: s1 =>
      if (c =? 34)%N then Some ([], s1)
      else if (c <? 32)%N then None
      else if (c =? 92)%N then
        match s1 with
        | [] => None
        | esc :: s2 =>
            if (esc =? 117)%N then
              match s2 with
              | h1 :: h2 :: h3 :: h4 :: s3 =>
                  match decode_uXXXX h1 h2 h3 h4 with
                  | None => None
                  | Some uni =>
                      let single :=
                        match scanstring s3 with
                        | Some (t, r) => Some (uni :: t, r)
                        | None => None
                        end in
                      if ((55296 <=? uni) && (uni <=? 56319))%N then
                        match s3 with
                        | b :: u :: g1 :: g2 :: g3 :: g4 :: s4 =>
                            if ((b =? 92) && (u =? 117))%N then
                              match decode_uXXXX g1 g2 g3 g4 with
                              | None => None
                              | Some uni2 =>
                                  if ((56320 <=? uni2) && (uni2 <=? 57343))%N
                                  then
                                    match scanstring s4 with
                                    | Some (t, r) =>
                                        Some ((65536 +
                                               N.lor (N.shiftl (uni - 55296) 10)
                                                     (uni2 - 56320))%N :: t, r)
                                    | None => None
                                    end
                                  else single
                              end
                            else single
                        | _ => single
                        end
                      else single
                  end
              | _ => None
              end
            else
              match BACKSLASH esc with
              | None => None
              | Some char =>
                  match scanstring s2 with
                  | Some (t, r) => Some (char :: t, r)
                  | None => None
                  end
              end
        end
      else
        match scanstring s1 with
        | Some (t, r) => Some (c :: t, r)
        | None => None
        end
  end.

Fixpoint starts_with (word s : pystr) : option pystr :=
  match word, s with
  | [], _ => Some s
  | w :: word', c :: s' => if (w =? c)%N then starts_with word' s' else None
  | _ :: _, [] => None
  end.

Definition str_items (pairs : list (pystr * pyval)) : list (pykey * pyval) :=
  map (fun kv => (KStr (fst kv), snd kv)) pairs.

(** [scan_once], [JSONArray] and [JSONObject].  [fuel] bounds the number of
    calls on one path, a call for a member and one per item of a container;
    [loads] supplies twice the length of the text and one. *)
Fixpoint scan_once (fuel : nat) (s : pystr) {struct fuel}
  : option (pyval * pystr) :=
  match fuel with
  | O => None
  | S fuel =>
      match s with
      | [] => None
      | nextchar :: s1 =>
          if (nextchar =? 34)%N then
            match scanstring s1 with
            | Some (t, r) => Some (Prim (PStr t), r)
            | None => None
            end
          else if (nextchar =? 123)%N then
            match skip_ws s1 with
            | c :: s2 =>
                if (c =? 125)%N then Some (PDict [], s2)
                else if (c =? 34)%N then JSONObject fuel s2 []
                else None
            | [] => None
            end
          else if (nextchar =? 91)%N then
            match skip_ws s1 with
            | c :: s2 =>
                if (c =? 93)%N then Some (PList [], s2)
                else JSONArray fuel (c :: s2) []
            | [] => None
            end
          else
            match starts_with (lit "null") s with
            | Some r => Some (Prim PNone, r)
            | None =>
            match starts_with (lit "true") s with
            | Some r => Some (Prim (PBool true), r)
            | None =>
            match starts_with (lit "false") s with
            | Some r => Some (Prim (PBool false), r)
            | None =>
            match match_number s with
            | Some (integer, frac, exp, r) =>
                match frac, exp with
                | [], [] => Some (Prim (PInt (parse_int integer)), r)
                | _, _ =>
                    Some (Prim (PFloat (parse_float integer frac exp)), r)
                end
            | None =>
            match starts_with (lit "NaN") s with
            | Some r => Some (Prim (PFloat S754_nan), r)
            | None =>
            match starts_with (lit "Infinity") s with
            | Some r => Some (Prim (PFloat (S754_infinity false)), r)
            | None =>
            match starts_with (lit "-Infinity") s with
            | Some r => Some (Prim (PFloat (S754_infinity true)), r)
            | None => None
            end end end end end end end
      end
  end

with JSONArray (fuel : nat) (s : pystr) (values : list pyval) {struct fuel}
  : option (pyval * pystr) :=
  match fuel with
  | O => None
  | S fuel =>
      match scan_once fuel s with
      | None => None
      | Some (value, r) =>
          match skip_ws r with
          | c :: r1 =>
              if (c =? 93)%N then Some (PList (values ++ [value]), r1)
              else if (c =? 44)%N then
                JSONArray fuel (skip_ws r1) (values ++ [value])
              else None
          | [] => None
          end
      end
  end

with JSONObject (fuel : nat) (s : pystr) (pairs : list (pystr * pyval))
    {struct fuel} : option (pyval * pystr) :=
  match fuel with
  | O => None
  | S fuel =>
      match scanstring s with
      | None => None
      | Some (key, r) =>
          match skip_ws r with
          | c :: r1 =>
              if (c =? 58)%N then
                match scan_once fuel (skip_ws r1) with
                | None => None
                | Some (value, r2) =>
                    match skip_ws r2 with
                    | d :: r3 =>
                        if (d =? 125)%N then
                          Some (PDict (str_items
                                         (dict_of_items
                                            (pairs ++ [(key, value)]))), r3)
                        else if (d =? 44)%N then
                          match skip_ws r3 with
                          | q :: r4 =>
                              if (q =? 34)%N then
                                JSONObject fuel r4 (pairs ++ [(key, value)])
                              else None
                          | [] => None
                          end
                        else None
                    | [] => None
                    end
                end
              else None
          | [] => None
          end
      end
  end.

(** [json.loads(s)]: one value between optional whitespace, and nothing
    else. *)
Definition loads (s : pystr) : option pyval :=
  match scan_once (2 * List.length s + 1) (skip_ws s) with
  | Some (obj, r) =>
      match skip_ws r with
      | [] => Some obj
      | _ :: _ => None
      end
  | None => None
  end.

(** ** Reading the methods

    The definitions below name the pieces of the methods that the
    properties speak about. *)

Definition on_snd {K V W : Type} (g : V -> W) (kv : K * V) : K * W :=
  (fst kv, g (snd kv)).

Definition on_value {K V : Type} (Q : V -> Prop) (kv : K * V) : Prop :=
  Q (snd kv).

(** A call that returns leaves [indentation_level] as it found it. *)

Definition balanced (c : M pystr) : Prop :=
  forall lvl lvl' s, c lvl = (lvl', Ok s) -> lvl' = lvl.

(** *** The two renderings *)

(** A container on one line: [[e1, e2, ...]]. *)
Definition inline_text (parts : list pystr) : pystr :=
  lit "[" ++ join (lit ", ") parts ++ lit "]".

(** A container over several lines: the opening bracket, one line per
    member, and the closing bracket behind the indentation of [lvl]. *)
Definition expanded_text (opening closing ind : pystr) (lvl : Z)
    (lines : list pystr) : pystr :=
  opening ++ nl ++ join (lit "," ++ nl) lines ++ nl ++
  str_repeat lvl ind ++ closing.

Section Pieces.
Variable self : encoder.
Context {V : Type}.
Variable enc : V -> M pystr.

  (** The second half of [_encode_list]. *)
Definition expand_list (o : list V) : M pystr :=
    add_level 1 ;;
    output <- for_each (fun el => i <- indent_str self ;;
                                  s <- enc el ;;
                                  ret (i ++ s)) o ;;
    add_level (-1) ;;
    i <- indent_str self ;;
    ret (lit "[" ++ nl ++ join (lit "," ++ nl) output ++ nl ++ i ++ lit "]").

Definition element_line (lvl : Z) (out : pystr) : pystr :=
    str_repeat (lvl + 1) (indent self) ++ out.

  (** The items an object is rendered from. *)
Definition object_entries (o : list (pykey * V)) : list (pystr * V) :=
    let o := stringify_keys o in
    if sort_keys self then dict_of_items (sorted o) else o.

Definition entry_line (lvl : Z) (k out : pystr) : pystr :=
    str_repeat (lvl + 1) (indent self) ++ json_dumps_key self k ++
    lit ": " ++ out.

  (** What [_encode_object] does with a dictionary that is not empty. *)
Definition expand_object (o : list (pykey * V)) : M pystr :=
    add_level 1 ;;
    output <- for_each (fun kv => i <- indent_str self ;;
                                  s <- enc (snd kv) ;;
                                  ret (i ++ json_dumps_key self (fst kv)
                                         ++ lit ": " ++ s))
                       (object_entries o) ;;
    add_level (-1) ;;
    i <- indent_str self ;;
    ret (lit "{" ++ nl ++ join (lit "," ++ nl) output ++ nl ++ i ++ lit "}").
End Pieces.

(** ** Induction on values *)

Section PyvalInduction.
Variable P : pyval -> Prop.
Hypothesis Hprim : forall p, P (Prim p).
Hypothesis Hlist : forall l, Forall P l -> P (PList l).
Hypothesis Htuple : forall l, Forall P l -> P (PTuple l).
Hypothesis Hdict :
    forall items, Forall (fun kv => P (snd kv)) items -> P (PDict items).

Fixpoint pyval_nested_ind (o : pyval) : P o :=
    match o with
    | Prim p => Hprim p
    | PList l =>
        Hlist l ((fix go (l : list pyval) : Forall P l :=
                    match l with
                    | [] => Forall_nil _
                    | el :: l' => Forall_cons _ (pyval_nested_ind el) (go l')
                    end) l)
    | PTuple l =>
        Htuple l ((fix go (l : list pyval) : Forall P l :=
                     match l with
                     | [] => Forall_nil _
                     | el :: l' => Forall_cons _ (pyval_nested_ind el) (go l')
                     end) l)
    | PDict items =>
        Hdict items
          ((fix go (l : list (pykey * pyval))
              : Forall (fun kv => P (snd kv)) l :=
              match l with
              | [] => Forall_nil _
              | kv :: l' =>
                  Forall_cons _ (pyval_nested_ind (snd kv)) (go l')
              end) items)
    end.
End PyvalInduction.

(** ** Sample values *)

(** The floats [3.0], [0.1234567] and [0.123457]. *)
Definition float_3 : float := S754_finite false 6755399441055744 (-51).
Definition float_0_1234567 : float := S754_finite false 8895992769862258 (-56).
Definition float_0_123457 : float := S754_finite false 8896014387140469 (-56).

Definition float_2_5 : float := S754_finite false 5629499534213120 (-51).

(** [{"b": [1, 2.5, "x\ny"], "a": {"k": None}, "c": 3.0,
     "d": [[-7, True], []]}] *)
Definition sample_tree : pyval :=
  PDict
    [(KStr (lit "b"),
      PList [Prim (PInt 1); Prim (PFloat float_2_5);
             Prim (PStr [120; 10; 121]%N)]);
     (KStr (lit "a"), PDict [(KStr (lit "k"), Prim PNone)]);
     (KStr (lit "c"), Prim (PFloat float_3));
     (KStr (lit "d"),
      PList [PList [Prim (PInt (-7)); Prim (PBool true)]; PList []])].

(** An encoder with a four-space [indent]. *)
Definition four_space_encoder : encoder :=
  VSLJSONEncoder (Some (lit "    ")) true false false.

(** The list [[["xxx...x"]]] whose inner list is 76 characters wide on one
    line. *)
Definition wide_nested_list : pyval :=
  PList [PList [Prim (PStr (repeat 120%N 72))]].

(** A text without a newline character. *)
Definition single_line (s : pystr) : Prop := ~ In 10%N s.

Definition no_nl (c : N) : Prop := c <> 10%N.

(** The members of a [list] or [tuple]. *)
Definition array_items (o : pyval) : option (list pyval) :=
  match o with
  | PList l | PTuple l => Some l
  | Prim _ | PDict _ => None
  end.

(** The value of the last item, in iteration order, whose key satisfies
    [same]. *)
Fixpoint last_with_key {K V : Type} (same : K -> bool) (items : list (K * V))
  : option V :=
  match items with
  | [] => None
  | kv :: rest =>
      match last_with_key same rest with
      | Some v => Some v
      | None => if same (fst kv) then Some (snd kv) else None
      end
  end.

(** Entries in strictly ascending order of their keys. *)
Definition ascending {V : Type} (entries : list (pystr * V)) : Prop :=
  StronglySorted (fun a b => str_ltb (fst a) (fst b) = true) entries.

(** The sign bit and, for a float with [is_integer], the magnitude. *)
Definition float_sign (x : float) : bool :=
  match x with
  | S754_zero s | S754_infinity s | S754_finite s _ _ => s
  | S754_nan => false
  end.

Definition float_magnitude (x : float) : Z :=
  match x with
  | S754_finite _ m e =>
      if 0 <=? e then Z.pos m * 2 ^ e else Z.pos m / 2 ^ (- e)
  | _ => 0
  end.

(** ** Comparing trees *)

Definition float_eqb (x y : float) : bool :=
  match x, y with
  | S754_zero s, S754_zero t => Bool.eqb s t
  | S754_infinity s, S754_infinity t => Bool.eqb s t
  | S754_nan, S754_nan => true
  | S754_finite s m e, S754_finite t n f =>
      Bool.eqb s t && Pos.eqb m n && Z.eqb e f
  | _, _ => false
  end.

Definition prim_eqb (p q : prim) : bool :=
  match p, q with
  | PNone, PNone => true
  | PBool a, PBool b => Bool.eqb a b
  | PInt a, PInt b => Z.eqb a b
  | PFloat a, PFloat b => float_eqb a b
  | PStr a, PStr b => str_eqb a b
  | _, _ => false
  end.

Definition key_eqb (a b : pykey) : bool :=
  match a, b with
  | KNone, KNone => true
  | KBool a, KBool b => Bool.eqb a b
  | KInt a, KInt b => Z.eqb a b
  | KFloat a, KFloat b => float_eqb a b
  | KStr a, KStr b => str_eqb a b
  | _, _ => false
  end.

Fixpoint lookup_key {V : Type} (k : pykey) (items : list (pykey * V))
  : option V :=
  match items with
  | [] => None
  | kv :: rest => if key_eqb (fst kv) k then Some (snd kv) else lookup_key k rest
  end.

(** Structural equality of two trees, the order of the items of an object
    left aside. *)
Fixpoint tree_eqb (a b : pyval) {struct a} : bool :=
  match a, b with
  | Prim p, Prim q => prim_eqb p q
  | PList l, PList l' | PTuple l, PTuple l' =>
      (fix all2 (l l' : list pyval) : bool :=
         match l, l' with
         | [], [] => true
         | x :: l, y :: l' => tree_eqb x y && all2 l l'
         | _, _ => false
         end) l l'
  | PDict d, PDict d' =>
      Nat.eqb (List.length d) (List.length d') &&
      forallb (fun kv => match lookup_key (fst kv) d' with
                         | Some y => tree_eqb (snd kv) y
                         | None => false
                         end) d
  | _, _ => false
  end.

(** The trees a JSON parser produces: null, booleans, integers, strings,
    lists and objects with distinct string keys, and the floats that
    [float_ok] admits. *)
Definition is_str_key (k : pykey) : bool :=
  match k with KStr _ => true | _ => false end.

Fixpoint distinct (l : list pystr) : bool :=
  match l with
  | [] => true
  | x :: l' => negb (existsb (str_eqb x) l') && distinct l'
  end.

Fixpoint json_tree (float_ok : float -> bool) (v : pyval) : bool :=
  match v with
  | Prim (PFloat x) => float_ok x
  | Prim POpaque => false
  | Prim _ => true
  | PList l => forallb (json_tree float_ok) l
  | PTuple _ => false
  | PDict items =>
      forallb (fun kv => is_str_key (fst kv) && json_tree float_ok (snd kv))
              items &&
      distinct (map (fun kv => key_text (fst kv)) items)
  end.

(** The text of the float is a JSON number with a fraction or an exponent
    that reads back as the same float: [float(encode(x)) == x]. *)
Definition float_reads_back (x : float) : bool :=
  match match_number (encode_float x) with
  | Some (integer, frac, exp, []) =>
      negb (match frac, exp with [], [] => true | _, _ => false end) &&
      float_eqb (parse_float integer frac exp) x
  | _ => false
  end.

(** What [loads] makes of the text of a tree: the items of every object in
    the order of their keys. *)
Fixpoint sorted_tree (v : pyval) : pyval :=
  match v with
  | Prim p => Prim p
  | PList l | PTuple l => PList (map sorted_tree l)
  | PDict items =>
      PDict (str_items
               (object_entries dumps_encoder
                  (map (fun kv => (fst kv, sorted_tree (snd kv))) items)))
  end.

(** ** The claims that the code does not meet, in the specification's words *)

(** An object on one line: [{"k1": v1, "k2": v2, ...}], joined with
    [", "]. *)
Definition inline_object_text (self : encoder)
    (entries : list (pystr * pystr)) : pystr :=
  lit "{" ++
  join (lit ", ")
       (map (fun ko => json_dumps_key self (fst ko) ++ lit ": " ++ snd ko)
            entries) ++
  lit "}".

(** "The inline-eligibility rule applies to objects exactly as to arrays":
    a non-empty object of scalars, of at most [max_inline_items] items,
    whose tentative inline rendering passes the width test, is rendered on
    a single line. *)
Definition objects_follow_inline_rule : Prop :=
  forall self items lvl outs,
    items <> [] ->
    existsb is_container (map snd items) = false ->
    len items <= MAX_ITEMS ->
    Forall2 (fun kv out => encode self (snd kv) lvl = (lvl, Ok out))
            (object_entries self items) outs ->
    len (inline_object_text self
           (combine (map fst (object_entries self items)) outs))
    + lvl * len (indent self) < MAX_WIDTH ->
    exists s, encode self (PDict items) lvl = (lvl, Ok s) /\ single_line s.

(** "The depth counter is returned to its pre-call value on all paths
    including error paths." *)
Definition depth_restored_on_all_paths : Prop :=
  forall self o lvl, is_container o = true -> fst (encode self o lvl) = lvl.

(** "A finite float whose value is an integer is rendered without a
    decimal point or trailing zeros; format(3.0) returns the text 3." *)
(** "For every JsonValue tree without NaN or Infinity, parsing the
    formatted output yields a structurally equal tree."  The floats of the
    tree are those [float_ok] admits. *)
Definition format_round_trips (float_ok : float -> bool) : Prop :=
  forall v,
    json_tree float_ok v = true ->
    exists text w,
      dumps v = Ok text /\ loads text = Some w /\ tree_eqb w v = true.

Definition integral_floats_lose_the_point : Prop :=
  (forall self x lvl,
      valid_float x = true -> is_integer x = true ->
      exists s, encode self (Prim (PFloat x)) lvl = (lvl, Ok s) /\
                ~ In 46%N s) /\
  dumps (Prim (PFloat float_3)) = Ok (lit "3").

(** ** Reading back: the notions the round trip is stated with *)

Definition ws_only (s : pystr) : Prop := Forall (fun c => is_ws c = true) s.

(** What may follow a value in the text. *)
Definition delimiter (c : N) : Prop :=
  is_ws c = true \/ c = 44%N \/ c = 93%N \/ c = 125%N.

Definition delimited (rest : pystr) : Prop :=
  match rest with
  | [] => True
  | c :: _ => delimiter c
  end.

(** A text that starts with a character that is neither whitespace nor a
    closing bracket. *)
Definition starts_solid (s : pystr) : Prop :=
  match s with
  | [] => False
  | c :: _ => is_ws c = false /\ (c =? 93)%N = false
  end.

(** The escape of one character, as [encode_basestring] writes it. *)
Definition escape (c : N) : pystr :=
  match ESCAPE_DCT c with Some r => r | None => [c] end.

(** The text [text] of a value, wherever it stands in front of a delimiter,
    reads back as [w]. *)
Definition parses (text : pystr) (w : pyval) : Prop :=
  starts_solid text /\
  forall fuel rest,
    delimited rest ->
    (2 * List.length (text ++ rest) < fuel)%nat ->
    scan_once fuel (text ++ rest) = Some (w, rest).

(** A member from behind the opening quote of its key, and the members
    that follow it. *)
Definition member_text (k out : pystr) : pystr :=
  flat_map escape k ++ 34%N :: (lit ": " ++ out).

Fixpoint members_tail (w2 : pystr) (kos : list (pystr * pystr)) : pystr :=
  match kos with
  | [] => []
  | ko :: kos' =>
      44%N :: w2 ++ 34%N :: member_text (fst ko) (snd ko)
        ++ members_tail w2 kos'
  end.

(** The text of [v] at any depth reads back as [v], its objects sorted. *)
Definition reads_back (v : pyval) : Prop :=
  forall lvl,
    exists text,
      encode dumps_encoder v lvl = (lvl, Ok text) /\
      parses text (sorted_tree v).


(** ** Further notions

    What follows names the things the remaining properties speak about. *)



(** The texts of [keys], each at the place where it first occurs. *)
Definition first_occurrences (keys : list pystr) : list pystr :=
  fold_left (fun seen k =>
               if existsb (fun k' => str_eqb k' k) seen then seen
               else seen ++ [k])
            keys [].

(** The items of a dictionary in which every key occurs once, in another
    order of insertion. *)
Definition reordered {V : Type} (items items' : list (pykey * V)) : Prop :=
  NoDup (map (fun kv => key_text (fst kv)) items) /\
  NoDup (map (fun kv => key_text (fst kv)) items') /\
  forall kv, In kv items <-> In kv items'.

(** The trees whose text [loads] reads: no object that [json] cannot
    serialise, and the floats that [float_ok] admits; lists, tuples and
    dictionaries with keys of any kind. *)
Fixpoint writable (float_ok : float -> bool) (v : pyval) : bool :=
  match v with
  | Prim (PFloat x) => float_ok x
  | Prim POpaque => false
  | Prim _ => true
  | PList l | PTuple l => forallb (writable float_ok) l
  | PDict items => forallb (fun kv => writable float_ok (snd kv)) items
  end.

(** [{2: (1, 2.5), None: "x", "2": True}] *)
Definition mixed_keys_tree : pyval :=
  PDict [(KInt 2, PTuple [Prim (PInt 1); Prim (PFloat float_2_5)]);
         (KNone, Prim (PStr (lit "x")));
         (KStr (lit "2"), Prim (PBool true))].

(** *** The characters of a text *)

(** The characters of ASCII that print, and the newline. *)
Definition printable (c : N) : Prop := (32 <= c <= 126)%N.

Definition ascii_text (c : N) : Prop := printable c \/ c = 10%N.

(** Any character but a control character, the newline apart. *)
Definition no_control (c : N) : Prop := (32 <= c)%N \/ c = 10%N.

(** Every character of every string of the tree, keys that are strings
    included, satisfies [q]. *)
Fixpoint all_chars (q : N -> bool) (v : pyval) : bool :=
  match v with
  | Prim (PStr s) => forallb q s
  | Prim _ => true
  | PList l | PTuple l => forallb (all_chars q) l
  | PDict items =>
      forallb (fun kv =>
                 match fst kv with KStr s => forallb q s | _ => true end &&
                 all_chars q (snd kv))
              items
  end.

(** A code point that the UTF-8 codec of a text file encodes: any but a
    surrogate. *)
Definition encodable (c : N) : bool :=
  ((c <? 55296) || (57343 <? c))%N && (c <? 1114112)%N.

(** ** [load] *)

(** What [inp.read()] returns for a file opened for reading in text mode:
    the line endings [\r\n] and [\r] are read as [\n]. *)
Fixpoint universal_newlines (s : pystr) : pystr :=
  match s with
  | [] => []
  | c :: s' =>
      if (c =? 13)%N then
        10%N :: match s' with
                | d :: s'' =>
                    if (d =? 10)%N then universal_newlines s''
                    else universal_newlines s'
                | [] => []
                end
      else c :: universal_newlines s'
  end.

Inductive load_result :=
| Loaded (v : pyval)
| FileNotFoundError   (* open: no such file *)
| JSONDecodeError.    (* json.load: the text is not JSON *)

(** [load]: [open(json_filename, "r", encoding="utf-8")], then
    [json.load(inp)], which is [json.loads(inp.read())]. *)
Definition load (json_filename : pystr) (fs : filesystem) : load_result :=
  match fs json_filename with
  | None => FileNotFoundError
  | Some text =>
      match loads (universal_newlines text) with
      | Some v => Loaded v
      | None => JSONDecodeError
      end
  end.

(** The floats [1e-7], [-1e-7] and [0.9999999]. *)
Definition float_1em7 : float := S754_finite false 7555786372591432 (-76).
Definition float_minus_1em7 : float := S754_finite true 7555786372591432 (-76).
Definition float_0_9999999 : float := S754_finite false 9007198354021067 (-53).

(** *** The parts of a JSON number

    A sign, an integer part without a leading zero, a fraction and an
    exponent, as [NUMBER_RE] asks for them. *)

Definition all_digits (ds : pystr) : Prop :=
  Forall (fun c => is_digit c = true) ds.

Definition sign_part (sg : pystr) : Prop := sg = [] \/ sg = [45%N].

Definition int_part (ip : pystr) : Prop :=
  ip = [48%N] \/
  exists c t, ip = c :: t /\ (c =? 48)%N = false /\ all_digits (c :: t).

Definition frac_part (fp : pystr) : Prop :=
  fp = [] \/ exists ds, fp = 46%N :: ds /\ ds <> [] /\ all_digits ds.

Definition exp_part (ep : pystr) : Prop :=
  ep = [] \/
  exists sg es,
    ep = 101%N :: sg :: es /\ (sg = 43%N \/ sg = 45%N) /\ es <> [] /\
    all_digits es.

(** A text that [loads] reads, in front of any delimiter, as some value. *)
Definition readable (v : pyval) : Prop :=
  forall lvl,
    exists text w,
      encode dumps_encoder v lvl = (lvl, Ok text) /\ parses text w.

(** The encoder with another value of [allow_nan]. *)
Definition with_allow_nan (b : bool) (self : encoder) : encoder :=
  {| indent := indent self;
     sort_keys := sort_keys self;
     ensure_ascii := ensure_ascii self;
     allow_nan := b |}.

(** A call that leaves the depth counter as it was when it returns, and
    not below where it was when it raises. *)
Definition steady {B : Type} (c : M B) : Prop :=
  forall lvl,
    match c lvl with
    | (lvl', Ok _) => lvl' = lvl
    | (lvl', Raise _) => lvl <= lvl'
    end.

(** *** Indentation *)

(** [t] starts with the indentation of depth [lvl]. *)
Definition starts_indented (ind : pystr) (lvl : Z) (t : pystr) : Prop :=
  exists c, t = str_repeat lvl ind ++ c.

(** Every line of [s] but the first starts with the indentation of depth
    [lvl], unless it is empty: whatever follows a newline is indented or is
    another newline. *)
Definition indented (ind : pystr) (lvl : Z) (s : pystr) : Prop :=
  forall a b,
    s = a ++ nl ++ b ->
    starts_indented ind lvl b \/ exists c, b = nl ++ c.

(** ** Encoders other than that of [dumps] *)

(** The escape of one character in the mode of the encoder. *)
Definition escape_of (self : encoder) : N -> pystr :=
  if ensure_ascii self then escape_ascii else escape.

(** A string that [scanstring] reads back from its escaped form. *)
Definition scans (esc : N -> pystr) (k : pystr) : Prop :=
  forall rest, scanstring (flat_map esc k ++ 34%N :: rest) = Some (k, rest).

(** A member from behind the opening quote of its key, and the members
    that follow it, with the keys escaped by [esc]. *)
Definition member_text_of (esc : N -> pystr) (k out : pystr) : pystr :=
  flat_map esc k ++ 34%N :: (lit ": " ++ out).

Fixpoint members_tail_of (esc : N -> pystr) (w2 : pystr)
    (kos : list (pystr * pystr)) : pystr :=
  match kos with
  | [] => []
  | ko :: kos' =>
      44%N :: w2 ++ 34%N :: member_text_of esc (fst ko) (snd ko)
        ++ members_tail_of esc w2 kos'
  end.

(** What is left of a tree in the text an encoder writes for it: tuples have
    become lists, keys their texts, and every object has the entries
    [_encode_object] wrote, in the order it wrote them. *)
Fixpoint normal_tree (self : encoder) (v : pyval) : pyval :=
  match v with
  | Prim p => Prim p
  | PList l | PTuple l => PList (map (normal_tree self) l)
  | PDict items =>
      PDict (str_items
               (object_entries self
                  (map (fun kv => (fst kv, normal_tree self (snd kv))) items)))
  end.

(** The text of [v] at any depth reads back as [normal_tree self v]. *)
Definition round_trips (self : encoder) (v : pyval) : Prop :=
  forall lvl,
    exists text,
      encode self v lvl = (lvl, Ok text) /\
      parses text (normal_tree self v).

(** An encoder with tabs for the indent, keys in insertion order and ASCII
    output, and a tree with characters outside ASCII, one of them outside
    the basic plane. *)
Definition tab_encoder : encoder := VSLJSONEncoder (Some [9%N]) false true true.

Definition unicode_tree : pyval :=
  PDict [(KStr [122; 233]%N, PList [Prim (PStr [128512; 34; 8364]%N)]);
         (KInt 1, PTuple [Prim (PFloat float_2_5); Prim PNone])].
(** ** Unfolding [encode] *)

Lemma for_each_map {V W B : Type} (g : V -> W) (f : W -> M B) (o : list V) :
  for_each f (map g o) = for_each (fun el => f (g el)) o.
Proof.
  induction o as [|el o IH]; simpl; [reflexivity|].
  now rewrite IH.
Qed.

Lemma existsb_map {V W : Type} (g : V -> W) (p : W -> bool) (o : list V) :
  existsb p (map g o) = existsb (fun el => p (g el)) o.
Proof.
  induction o as [|el o IH]; simpl; [reflexivity|].
  now rewrite IH.
Qed.

Lemma len_map {V W : Type} (g : V -> W) (o : list V) : len (map g o) = len o.
Proof. unfold len. now rewrite length_map. Qed.

Section Naturality.
Context {V W : Type}.
Variable g : V -> W.
Local Abbreviation on_snd := (on_snd g).

Lemma _encode_list_map self (isc : W -> bool) (enc : W -> M pystr) o :
    _encode_list self isc enc (map g o)
    = _encode_list self (fun el => isc (g el)) (fun el => enc (g el)) o.
Proof.
    unfold _encode_list, _primitives_only.
    now rewrite existsb_map, len_map, !for_each_map.
Qed.

Lemma dict_set_map (d : list (pystr * V)) k v :
    dict_set (map on_snd d) k (g v) = map on_snd (dict_set d k v).
Proof.
    induction d as [|[k' v'] d IH]; simpl; [reflexivity|].
    destruct (str_eqb k' k); simpl; [reflexivity|].
    now rewrite IH.
Qed.

Lemma dict_of_items_map (items : list (pystr * V)) :
    dict_of_items (map on_snd items) = map on_snd (dict_of_items items).
Proof.
    unfold dict_of_items.
    change (@nil (pystr * W)) with (map on_snd (@nil (pystr * V))).
    generalize (@nil (pystr * V)) as acc.
    induction items as [|[k v] items IH]; intros acc; simpl; [reflexivity|].
    now rewrite dict_set_map, IH.
Qed.

Lemma insert_item_map x (l : list (pystr * V)) :
    insert_item (on_snd x) (map on_snd l) = map on_snd (insert_item x l).
Proof.
    induction l as [|y l IH]; simpl; [reflexivity|].
    destruct (str_ltb (fst y) (fst x)); simpl; [|reflexivity].
    now rewrite IH.
Qed.

Lemma sorted_map (items : list (pystr * V)) :
    sorted (map on_snd items) = map on_snd (sorted items).
Proof.
    induction items as [|x items IH]; simpl; [reflexivity|].
    now rewrite IH, insert_item_map.
Qed.

Lemma stringify_keys_map (o : list (pykey * V)) :
    stringify_keys (map on_snd o) = map on_snd (stringify_keys o).
Proof.
    unfold stringify_keys.
    rewrite <- dict_of_items_map, !map_map. reflexivity.
Qed.

Lemma _encode_object_map self (enc : W -> M pystr) (o : list (pykey * V)) :
    _encode_object self enc (map on_snd o)
    = _encode_object self (fun el => enc (g el)) o.
Proof.
    destruct o as [|kv o]; [reflexivity|].
    unfold _encode_object.
    change (map on_snd (kv :: o)) with (on_snd kv :: map on_snd o).
    cbv iota.
    rewrite <- map_cons, stringify_keys_map.
    destruct (sort_keys self).
    - rewrite sorted_map, dict_of_items_map, for_each_map. reflexivity.
    - rewrite for_each_map. reflexivity.
Qed.
End Naturality.

(** The equations of [encode], as the source reads. *)
Lemma encode_float_eq self x :
  encode self (Prim (PFloat x)) = ret (encode_float x).
Proof. reflexivity. Qed.

Lemma encode_list_eq self l :
  encode self (PList l) = _encode_list self is_container (encode self) l.
Proof.
  simpl. exact (_encode_list_map (fun el => (el, encode self el)) self _ _ l).
Qed.

Lemma encode_tuple_eq self l :
  encode self (PTuple l) = _encode_list self is_container (encode self) l.
Proof.
  simpl. exact (_encode_list_map (fun el => (el, encode self el)) self _ _ l).
Qed.

Lemma encode_dict_eq self items :
  encode self (PDict items) = _encode_object self (encode self) items.
Proof.
  simpl. exact (_encode_object_map (encode self) self (fun el => el) items).
Qed.

Lemma encode_prim_eq self p :
  encode self (Prim p)
  = match p with
    | PFloat x => ret (encode_float x)
    | _ => lift (json_dumps self p)
    end.
Proof. destruct p; reflexivity. Qed.


(** ** Running the methods *)


Lemma bind_ok {A B : Type} (c : M A) (k : A -> M B) lvl lvl' b :
  bind c k lvl = (lvl', Ok b) ->
  exists lvl1 a, c lvl = (lvl1, Ok a) /\ k a lvl1 = (lvl', Ok b).
Proof.
  unfold bind. destruct (c lvl) as [lvl1 [a|e]]; intros H.
  - now exists lvl1, a.
  - discriminate.
Qed.

Lemma bind_run {A B : Type} (c : M A) (k : A -> M B) lvl lvl1 a :
  c lvl = (lvl1, Ok a) -> bind c k lvl = k a lvl1.
Proof. unfold bind. now intros ->. Qed.

Lemma bind_raise {A B : Type} (c : M A) (k : A -> M B) lvl lvl1 e :
  c lvl = (lvl1, Raise e) -> bind c k lvl = (lvl1, Raise e).
Proof. unfold bind. now intros ->. Qed.

Lemma for_each_run {A B : Type} (f : A -> M B) o outs lvl :
  Forall2 (fun el out => f el lvl = (lvl, Ok out)) o outs ->
  for_each f o lvl = (lvl, Ok outs).
Proof.
  induction 1 as [|el out o outs Hel _ IH]; simpl; [reflexivity|].
  rewrite (bind_run _ _ _ _ _ Hel), (bind_run _ _ _ _ _ IH). reflexivity.
Qed.

Lemma for_each_ok {A B : Type} (f : A -> M B) o outs lvl lvl' :
  Forall (fun el => forall l l' s, f el l = (l', Ok s) -> l' = l) o ->
  for_each f o lvl = (lvl', Ok outs) ->
  lvl' = lvl /\ Forall2 (fun el out => f el lvl = (lvl, Ok out)) o outs.
Proof.
  intros Hbal. revert outs lvl'.
  induction Hbal as [|el o Hel _ IH]; simpl; intros outs lvl' H.
  - inversion H; subst. split; [reflexivity|constructor].
  - apply bind_ok in H as (lvl1 & x & Hx & H).
    apply bind_ok in H as (lvl2 & xs & Hxs & H).
    inversion H; subst; clear H.
    pose proof (Hel _ _ _ Hx) as ->.
    apply IH in Hxs as [-> Hxs].
    split; [reflexivity|]. now constructor.
Qed.

(** The first member whose call raises ends the comprehension, with the
    counter as that call left it. *)
Lemma for_each_raise {A B : Type} (f : A -> M B) o1 el o2 outs lvl lvl' e :
  Forall2 (fun el out => f el lvl = (lvl, Ok out)) o1 outs ->
  f el lvl = (lvl', Raise e) ->
  for_each f (o1 ++ el :: o2) lvl = (lvl', Raise e).
Proof.
  induction 1 as [|x out o1 outs Hx _ IH]; simpl; intros Hel.
  - now rewrite (bind_raise _ _ _ _ _ Hel).
  - rewrite (bind_run _ _ _ _ _ Hx), (bind_raise _ _ _ _ _ (IH Hel)).
    reflexivity.
Qed.

Lemma indent_str_run self lvl :
  indent_str self lvl = (lvl, Ok (str_repeat lvl (indent self))).
Proof. reflexivity. Qed.


Section Runs.
Variable self : encoder.
Context {V : Type}.
Variable isc : V -> bool.
Variable enc : V -> M pystr.


Lemma _encode_list_cases o lvl :
    _encode_list self isc enc o lvl =
    if negb (existsb isc o) && (len o <=? MAX_ITEMS) then
      match for_each enc o lvl with
      | (lvl1, Ok parts) =>
          if len (inline_text parts) + lvl1 * 2 <? MAX_WIDTH
          then (lvl1, Ok (inline_text parts))
          else expand_list self enc o lvl1
      | (lvl1, Raise e) => (lvl1, Raise e)
      end
    else expand_list self enc o lvl.
Proof.
    unfold _encode_list, _primitives_only.
    destruct (negb (existsb isc o) && (len o <=? MAX_ITEMS)); [|reflexivity].
    unfold bind at 1. unfold bind at 1.
    destruct (for_each enc o lvl) as [lvl1 [parts|e]]; [|reflexivity].
    unfold bind at 1. cbn [get_level].
    fold (inline_text parts).
    destruct (len (inline_text parts) + lvl1 * 2 <? MAX_WIDTH); reflexivity.
Qed.


Lemma expand_list_run o outs lvl :
    Forall2 (fun el out => enc el (lvl + 1) = (lvl + 1, Ok out)) o outs ->
    expand_list self enc o lvl
    = (lvl, Ok (expanded_text (lit "[") (lit "]") (indent self) lvl
                  (map (element_line self lvl) outs))).
Proof.
    intros H. unfold expand_list.
    unfold bind at 1. cbn [add_level].
    erewrite bind_run; cycle 1.
    { apply for_each_run with (outs := map (element_line self lvl) outs).
      induction H as [|el out o outs Hel _ IH]; simpl; constructor; [|exact IH].
      unfold bind at 1. rewrite indent_str_run.
      now rewrite (bind_run _ _ _ _ _ Hel). }
    unfold bind at 1. cbn [add_level].
    replace (lvl + 1 + -1) with lvl by lia.
    reflexivity.
Qed.


Lemma _encode_object_cases o :
    _encode_object self enc o
    = match o with
      | [] => ret (lit "{}")
      | _ :: _ => expand_object self enc o
      end.
Proof. destruct o; reflexivity. Qed.

Lemma expand_object_run o outs lvl :
    Forall2 (fun kv out => enc (snd kv) (lvl + 1) = (lvl + 1, Ok out))
            (object_entries self o) outs ->
    expand_object self enc o lvl
    = (lvl, Ok (expanded_text (lit "{") (lit "}") (indent self) lvl
                  (map (fun ko => entry_line self lvl (fst (fst ko)) (snd ko))
                       (combine (object_entries self o) outs)))).
Proof.
    intros H. unfold expand_object.
    unfold bind at 1. cbn [add_level].
    erewrite bind_run; cycle 1.
    { apply for_each_run
        with (outs := map (fun ko => entry_line self lvl (fst (fst ko)) (snd ko))
                          (combine (object_entries self o) outs)).
      induction H as [|kv out es outs Hel _ IH]; simpl; constructor;
        [|exact IH].
      unfold bind at 1. rewrite indent_str_run.
      now rewrite (bind_run _ _ _ _ _ Hel). }
    unfold bind at 1. cbn [add_level].
    replace (lvl + 1 + -1) with lvl by lia.
    reflexivity.
Qed.
End Runs.

(** *** Members of the normalised dictionary *)

Section EntriesForall.
Context {V : Type}.
Variable Q : V -> Prop.
Local Abbreviation QV := (on_value Q).

Lemma dict_set_Forall d k v :
    Forall QV d -> Q v -> Forall QV (dict_set d k v).
Proof.
    induction 1 as [|[k' v'] d Hkv Hd IH]; simpl; intros Hv.
    - now constructor.
    - destruct (str_eqb k' k); constructor; auto.
Qed.

Lemma dict_of_items_Forall (l : list (pystr * V)) :
    Forall QV l -> Forall QV (dict_of_items l).
Proof.
    unfold dict_of_items.
    assert (Hacc : Forall (on_value (K:=pystr) Q) []) by constructor.
    revert Hacc. generalize (@nil (pystr * V)) as acc.
    induction l as [|kv l IH]; simpl; intros acc Hacc Hl; [exact Hacc|].
    inversion Hl; subst. apply IH; [|assumption].
    now apply dict_set_Forall.
Qed.

Lemma insert_item_Forall x (l : list (pystr * V)) :
    QV x -> Forall QV l -> Forall QV (insert_item x l).
Proof.
    intros Hx. induction 1 as [|y l Hy Hl IH]; simpl.
    - now constructor.
    - destruct (str_ltb (fst y) (fst x)); repeat constructor; auto.
Qed.

Lemma sorted_Forall (l : list (pystr * V)) :
    Forall QV l -> Forall QV (sorted l).
Proof.
    induction 1 as [|x l Hx _ IH]; simpl; [constructor|].
    now apply insert_item_Forall.
Qed.

Lemma stringify_keys_Forall (o : list (pykey * V)) :
    Forall QV o -> Forall QV (stringify_keys o).
Proof.
    intros H. apply dict_of_items_Forall.
    induction H; simpl; constructor; auto.
Qed.

Lemma object_entries_Forall self (o : list (pykey * V)) :
    Forall QV o -> Forall QV (object_entries self o).
Proof.
    intros H. unfold object_entries.
    pose proof (stringify_keys_Forall o H) as H1.
    destruct (sort_keys self); [|exact H1].
    now apply dict_of_items_Forall, sorted_Forall.
Qed.
End EntriesForall.

(** *** A call that returns has restored the counter *)

Section Balanced.
Variable self : encoder.
Context {V : Type}.
Variable isc : V -> bool.
Variable enc : V -> M pystr.

Lemma expand_list_ok o lvl lvl' s :
    Forall (fun el => balanced (enc el)) o ->
    expand_list self enc o lvl = (lvl', Ok s) ->
    lvl' = lvl /\
    exists outs,
      Forall2 (fun el out => enc el (lvl + 1) = (lvl + 1, Ok out)) o outs /\
      s = expanded_text (lit "[") (lit "]") (indent self) lvl
            (map (element_line self lvl) outs).
Proof.
    intros Hbal H. unfold expand_list in H.
    unfold bind at 1 in H. cbn [add_level] in H.
    apply bind_ok in H as (lvl1 & lines & Hlines & H).
    apply for_each_ok in Hlines as [-> Hlines]; cycle 1.
    { clear -Hbal. induction Hbal as [|el o Hel _ IH]; constructor; [|exact IH].
      intros l l' s H. unfold bind at 1 in H. rewrite indent_str_run in H.
      apply bind_ok in H as (l1 & out & Hout & H). inversion H; subst.
      exact (Hel _ _ _ Hout). }
    assert (Houts : exists outs,
      Forall2 (fun el out => enc el (lvl + 1) = (lvl + 1, Ok out)) o outs).
    { clear -Hlines Hbal.
      induction Hlines as [|el line o lines Hel _ IH].
      - exists []. constructor.
      - inversion Hbal; subst. destruct (IH H2) as [outs Houts].
        unfold bind at 1 in Hel. rewrite indent_str_run in Hel.
        apply bind_ok in Hel as (l1 & out & Hout & Hel).
        pose proof (H1 _ _ _ Hout) as ->.
        exists (out :: outs). now constructor. }
    destruct Houts as [outs Houts].
    pose proof (expand_list_run self enc o outs lvl Houts) as Hrun.
    unfold expand_list in Hrun.
    unfold bind at 1 in Hrun. cbn [add_level] in Hrun.
    rewrite (bind_run _ _ _ _ _
               (for_each_run _ _ _ _ Hlines)) in Hrun.
    rewrite H in Hrun. inversion Hrun; subst.
    split; [reflexivity|]. exists outs. split; [exact Houts|reflexivity].
Qed.

Lemma _encode_list_balanced o :
    Forall (fun el => balanced (enc el)) o ->
    balanced (_encode_list self isc enc o).
Proof.
    intros Hbal lvl lvl' s H. rewrite _encode_list_cases in H.
    destruct (negb (existsb isc o) && (len o <=? MAX_ITEMS)).
    - destruct (for_each enc o lvl) as [lvl1 [parts|e]] eqn:Hparts;
        [|discriminate].
      apply for_each_ok in Hparts as [-> _]; cycle 1.
      { eapply Forall_impl; [|exact Hbal]. intros el Hel. exact Hel. }
      destruct (len (inline_text parts) + lvl * 2 <? MAX_WIDTH).
      + now inversion H.
      + now apply expand_list_ok in H as [-> _].
    - now apply expand_list_ok in H as [-> _].
Qed.

Lemma expand_object_ok o lvl lvl' s :
    Forall (fun kv => balanced (enc (snd kv))) o ->
    expand_object self enc o lvl = (lvl', Ok s) ->
    lvl' = lvl /\
    exists outs,
      Forall2 (fun kv out => enc (snd kv) (lvl + 1) = (lvl + 1, Ok out))
              (object_entries self o) outs /\
      s = expanded_text (lit "{") (lit "}") (indent self) lvl
            (map (fun ko => entry_line self lvl (fst (fst ko)) (snd ko))
                 (combine (object_entries self o) outs)).
Proof.
    intros Hbal H.
    apply (object_entries_Forall (fun v => balanced (enc v)) self) in Hbal.
    unfold on_value in Hbal.
    unfold expand_object in H.
    unfold bind at 1 in H. cbn [add_level] in H.
    apply bind_ok in H as (lvl1 & lines & Hlines & H).
    apply for_each_ok in Hlines as [-> Hlines]; cycle 1.
    { clear -Hbal.
      induction Hbal as [|el es Hel _ IH]; constructor; [|exact IH].
      intros l l' s H. unfold bind at 1 in H. rewrite indent_str_run in H.
      apply bind_ok in H as (l1 & out & Hout & H). inversion H; subst.
      exact (Hel _ _ _ Hout). }
    assert (Houts : exists outs,
      Forall2 (fun kv out => enc (snd kv) (lvl + 1) = (lvl + 1, Ok out))
              (object_entries self o) outs).
    { clear -Hlines Hbal.
      induction Hlines as [|el line es lines Hel _ IH].
      - exists []. constructor.
      - inversion Hbal; subst. destruct (IH H2) as [outs Houts].
        unfold bind at 1 in Hel. rewrite indent_str_run in Hel.
        apply bind_ok in Hel as (l1 & out & Hout & Hel).
        pose proof (H1 _ _ _ Hout) as ->.
        exists (out :: outs). now constructor. }
    destruct Houts as [outs Houts].
    pose proof (expand_object_run self enc o outs lvl Houts) as Hrun.
    unfold expand_object in Hrun.
    unfold bind at 1 in Hrun. cbn [add_level] in Hrun.
    rewrite (bind_run _ _ _ _ _
               (for_each_run _ _ _ _ Hlines)) in Hrun.
    rewrite H in Hrun. inversion Hrun; subst.
    split; [reflexivity|]. exists outs. split; [exact Houts|reflexivity].
Qed.

Lemma _encode_object_balanced o :
    Forall (fun kv => balanced (enc (snd kv))) o ->
    balanced (_encode_object self enc o).
Proof.
    intros Hbal lvl lvl' s H. rewrite _encode_object_cases in H.
    destruct o as [|kv o].
    - now inversion H.
    - now apply expand_object_ok in H as [-> _].
Qed.
End Balanced.

Lemma encode_prim_run self p lvl :
  exists r, encode self (Prim p) lvl = (lvl, r).
Proof. destruct p; eexists; reflexivity. Qed.

Lemma encode_balanced self o : balanced (encode self o).
Proof.
  induction o as [p|l IH|l IH|items IH] using pyval_nested_ind.
  - intros lvl lvl' s H.
    destruct (encode_prim_run self p lvl) as [r Hr].
    rewrite Hr in H. now inversion H.
  - rewrite encode_list_eq. now apply _encode_list_balanced.
  - rewrite encode_tuple_eq. now apply _encode_list_balanced.
  - rewrite encode_dict_eq. now apply _encode_object_balanced.
Qed.

(** ** Non-finite floats *)

(** C1: the claim asks that NaN and the infinities fail with the
    non-finite-number error when [allow_nan] is false.  The float branch of
    [encode] formats them itself and never reaches the [allow_nan] check of
    [json.dumps]: whatever the encoder, they are returned as the texts
    [nan], [inf] and [-inf], also through [dumps] and inside a list. *)
Theorem dumps_nonfinite_returns_text :
  (forall self lvl,
      encode self (Prim (PFloat S754_nan)) lvl = (lvl, Ok (lit "nan")) /\
      encode self (Prim (PFloat (S754_infinity false))) lvl
      = (lvl, Ok (lit "inf")) /\
      encode self (Prim (PFloat (S754_infinity true))) lvl
      = (lvl, Ok (lit "-inf"))) /\
  dumps (Prim (PFloat S754_nan)) = Ok (lit "nan") /\
  dumps (PList [Prim (PFloat S754_nan)]) = Ok (lit "[nan]") /\
  json_dumps dumps_encoder (PFloat S754_nan) = Raise ValueError.
Proof.
  split; [|repeat split].
  intros self lvl. repeat split.
Qed.

(** ** [iterencode] and [json.dump] *)

Lemma write_chunks s fp :
  fold_left (fun written chunk => written ++ chunk) (chunks s) fp = fp ++ s.
Proof.
  revert fp. induction s as [|c s IH]; intros fp; simpl.
  - now rewrite app_nil_r.
  - unfold chunks in IH. rewrite IH, <- app_assoc. reflexivity.
Qed.

(** C10: [iterencode] returns the string [encode] returns, so [json.dump]
    with this encoder class writes, character by character, exactly the
    text of [encode] (and nothing when [encode] raises); with the encoder
    of [dumps] it writes the string [dumps] returns. *)
Theorem iterencode_same_text :
  (forall self o lvl, iterencode self o lvl = encode self o lvl) /\
  (forall self o fp,
      json_dump self o fp
      = match snd (encode self o 0) with
        | Ok s => (fp ++ s, Ok tt)
        | Raise e => (fp, Raise e)
        end) /\
  (forall o,
      json_dump dumps_encoder o []
      = match dumps o with
        | Ok s => (s, Ok tt)
        | Raise e => ([], Raise e)
        end).
Proof.
  assert (H : forall self o fp,
      json_dump self o fp
      = match snd (encode self o 0) with
        | Ok s => (fp ++ s, Ok tt)
        | Raise e => (fp, Raise e)
        end).
  { intros self o fp. unfold json_dump, iterencode.
    destruct (encode self o 0) as [lvl [s|e]]; simpl; [|reflexivity].
    now rewrite write_chunks. }
  split; [reflexivity|]. split; [exact H|].
  intros o. rewrite H. unfold dumps.
  destruct (snd (encode dumps_encoder o 0)); reflexivity.
Qed.

(** ** [dump] *)

Lemma str_eqb_refl s : str_eqb s s = true.
Proof.
  induction s as [|c s IH]; simpl; [reflexivity|].
  now rewrite N.eqb_refl.
Qed.

Lemma str_eqb_eq a b : str_eqb a b = true <-> a = b.
Proof.
  revert b. induction a as [|x a IH]; intros [|y b]; simpl;
    try (split; [discriminate|discriminate]); [tauto|].
  rewrite andb_true_iff, N.eqb_eq, IH.
  split; [intros [-> ->]; reflexivity|intros H; inversion H; auto].
Qed.

(** C8: [dump] obtains the whole text from [dumps] before it opens the
    file.  When formatting raises, the file system is returned as it was:
    no file is created, emptied or written.  When formatting returns, the
    file holds exactly that text and every other file is untouched. *)
Theorem dump_failure_keeps_file data path fs e :
  dumps data = Raise e ->
  dump data path fs = (fs, Raise e) /\
  fst (dump data path fs) path = fs path.
Proof.
  intros H. unfold dump. rewrite H. split; reflexivity.
Qed.

Lemma dump_failure_keeps_file_witness :
  let fs := fs_set (fun _ => None) (lit "scene.json") (lit "{}") in
  dumps (PList [PList []; Prim POpaque]) = Raise TypeError /\
  dump (PList [PList []; Prim POpaque]) (lit "scene.json") fs
  = (fs, Raise TypeError) /\
  fst (dump (PList [PList []; Prim POpaque]) (lit "scene.json") fs)
      (lit "scene.json") = Some (lit "{}").
Proof.
  intros fs.
  assert (H : dumps (PList [PList []; Prim POpaque]) = Raise TypeError)
    by reflexivity.
  split; [exact H|].
  destruct (dump_failure_keeps_file _ (lit "scene.json") fs _ H) as [H1 H2].
  split; [exact H1|]. rewrite H2. reflexivity.
Defined.

Lemma dump_success data path fs raw_json :
  dumps data = Ok raw_json ->
  exists fs',
    dump data path fs = (fs', Ok tt) /\
    fs' path = Some raw_json /\
    forall p, p <> path -> fs' p = fs p.
Proof.
  intros H. unfold dump. rewrite H. eexists. split; [reflexivity|].
  unfold write, open_w, fs_set. rewrite !str_eqb_refl. split; [reflexivity|].
  intros p Hp. destruct (str_eqb p path) eqn:E; [|reflexivity].
  apply str_eqb_eq in E. contradiction.
Qed.

(** ** The width test *)

(** C6: the claim measures the indentation by the length of the configured
    [indent].  [_encode_list] adds [indentation_level * 2] whatever the
    [indent] is.  With a four-space indent the inner list of
    [wide_nested_list], 76 characters on one line at depth 1, is kept on one
    line (76 + 2 < 79) although 76 + 1 * 4 = 80 is not below 79: its line
    is 80 characters long. *)
Theorem width_test_counts_two_per_level :
  let inner := inline_text [encode_basestring (repeat 120%N 72)] in
  encode four_space_encoder wide_nested_list 0
  = (0, Ok (expanded_text (lit "[") (lit "]") (lit "    ") 0
              [lit "    " ++ inner])) /\
  len inner = 76 /\
  len (indent four_space_encoder) = 4 /\
  (len inner + 1 * len (indent four_space_encoder) <? MAX_WIDTH) = false /\
  (len inner + 1 * 2 <? MAX_WIDTH) = true /\
  len (lit "    " ++ inner) = 80.
Proof. vm_compute. repeat split. Qed.

(** ** What a returning call has done *)

Section ListReturn.
Variable self : encoder.
Context {V : Type}.
Variable isc : V -> bool.
Variable enc : V -> M pystr.

Lemma _encode_list_ok o lvl lvl' s :
    Forall (fun el => balanced (enc el)) o ->
    _encode_list self isc enc o lvl = (lvl', Ok s) ->
    lvl' = lvl /\
    ((negb (existsb isc o) && (len o <=? MAX_ITEMS) = true /\
      exists parts,
        Forall2 (fun el p => enc el lvl = (lvl, Ok p)) o parts /\
        len (inline_text parts) + lvl * 2 < MAX_WIDTH /\
        s = inline_text parts) \/
     (exists outs,
        Forall2 (fun el out => enc el (lvl + 1) = (lvl + 1, Ok out)) o outs /\
        s = expanded_text (lit "[") (lit "]") (indent self) lvl
              (map (element_line self lvl) outs))).
Proof.
    intros Hbal H. rewrite _encode_list_cases in H.
    destruct (negb (existsb isc o) && (len o <=? MAX_ITEMS)) eqn:Helig.
    - destruct (for_each enc o lvl) as [lvl1 [parts|e]] eqn:Hparts;
        [|discriminate].
      apply for_each_ok in Hparts as [-> Hparts]; cycle 1.
      { eapply Forall_impl; [|exact Hbal]. intros el Hel. exact Hel. }
      destruct (len (inline_text parts) + lvl * 2 <? MAX_WIDTH) eqn:Hw.
      + inversion H; subst. split; [reflexivity|]. left.
        split; [reflexivity|]. exists parts. apply Z.ltb_lt in Hw. auto.
      + apply expand_list_ok in H as [-> H]; auto.
    - apply expand_list_ok in H as [-> H]; auto.
Qed.

Lemma _encode_list_inline o parts lvl :
    existsb isc o = false ->
    len o <= MAX_ITEMS ->
    Forall2 (fun el p => enc el lvl = (lvl, Ok p)) o parts ->
    len (inline_text parts) + lvl * 2 < MAX_WIDTH ->
    _encode_list self isc enc o lvl = (lvl, Ok (inline_text parts)).
Proof.
    intros Hprim Hlen Hparts Hw. rewrite _encode_list_cases, Hprim.
    apply Z.leb_le in Hlen. rewrite Hlen. cbn [negb andb].
    rewrite (for_each_run _ _ _ _ Hparts).
    apply Z.ltb_lt in Hw. now rewrite Hw.
Qed.

Lemma _encode_list_nested o lvl :
    existsb isc o = true ->
    _encode_list self isc enc o lvl = expand_list self enc o lvl.
Proof. intros H. now rewrite _encode_list_cases, H. Qed.
End ListReturn.

Lemma encode_children_balanced self (l : list pyval) :
  Forall (fun el => balanced (encode self el)) l.
Proof. apply Forall_forall. intros el _. apply encode_balanced. Qed.

Lemma encode_values_balanced {K : Type} self (items : list (K * pyval)) :
  Forall (fun kv => balanced (encode self (snd kv))) items.
Proof. apply Forall_forall. intros el _. apply encode_balanced. Qed.

(** ** Objects are never put on one line *)

(** C2, the claim as stated fails: the object [{"a": 1}] has one scalar
    value and its one-line rendering is 8 characters wide, yet it is
    rendered over three lines. *)
Lemma object_inline_counterexample : ~ objects_follow_inline_rule.
Proof.
  intros H.
  destruct (H dumps_encoder [(KStr (lit "a"), Prim (PInt 1))] 0 [lit "1"])
    as (s & Hs & Hline).
  - discriminate.
  - reflexivity.
  - vm_compute. discriminate.
  - repeat constructor.
  - vm_compute. reflexivity.
  - vm_compute in Hs. inversion Hs; subst. apply Hline.
    vm_compute. auto.
Qed.

(** C2, amended: the inline rule applies to lists only.  Every object that
    is not empty, whatever its values, size and width, is rendered
    expanded: an opening brace, one ["key": value] line per entry at one
    more level of indentation, and the closing brace behind the indentation
    of the object; its text starts with a brace and a newline.  The empty
    object is rendered [{}]. *)
Theorem nonempty_object_always_expanded self items lvl :
  items <> [] ->
  (forall outs,
      Forall2 (fun kv out => encode self (snd kv) (lvl + 1)
                             = (lvl + 1, Ok out))
              (object_entries self items) outs ->
      encode self (PDict items) lvl
      = (lvl, Ok (expanded_text (lit "{") (lit "}") (indent self) lvl
                    (map (fun ko => entry_line self lvl (fst (fst ko)) (snd ko))
                         (combine (object_entries self items) outs))))) /\
  (forall lvl' s,
      encode self (PDict items) lvl = (lvl', Ok s) ->
      exists rest, s = lit "{" ++ nl ++ rest) /\
  encode self (PDict []) lvl = (lvl, Ok (lit "{}")).
Proof.
  intros Hne. rewrite encode_dict_eq, _encode_object_cases.
  destruct items as [|kv items]; [contradiction|].
  split; [|split].
  - intros outs Houts. now apply expand_object_run.
  - intros lvl' s H.
    apply expand_object_ok in H as [_ (outs & _ & ->)];
      [|apply encode_values_balanced].
    eexists. reflexivity.
  - reflexivity.
Qed.

Lemma nonempty_object_always_expanded_witness :
  encode dumps_encoder (PDict [(KStr (lit "a"), Prim (PInt 1))]) 0
  = (0, Ok (lit "{" ++ nl ++ lit "  " ++ [34%N] ++ lit "a" ++ [34%N]
              ++ lit ": 1" ++ nl ++ lit "}")).
Proof.
  assert (Hne : [(KStr (lit "a"), Prim (PInt 1))] <> []) by discriminate.
  destruct (nonempty_object_always_expanded dumps_encoder _ 0 Hne)
    as [H _].
  rewrite (H [lit "1"]); [reflexivity|].
  repeat constructor.
Defined.

(** ** The depth counter *)

(** C5, the claim as stated fails: in [[[], set()]] the second member
    cannot be serialised; the exception leaves [indentation_level] at 1. *)
Lemma depth_leaks_on_error : ~ depth_restored_on_all_paths.
Proof.
  intros H.
  specialize (H dumps_encoder (PList [PList []; Prim POpaque]) 0 eq_refl).
  vm_compute in H. discriminate.
Qed.

(** C5, amended: whenever the encoding of a value returns, the counter has
    its value from before the call.  The members of a list or object that
    is rendered expanded are encoded with the counter raised by exactly 1;
    the members of a list put on one line are encoded at the level of the
    list.  (Nothing is restored when a member raises.) *)
Theorem depth_restored_on_return self o lvl lvl' s :
  encode self o lvl = (lvl', Ok s) ->
  lvl' = lvl /\
  match o with
  | PList l | PTuple l =>
      (exists parts,
          Forall2 (fun el p => encode self el lvl = (lvl, Ok p)) l parts /\
          s = inline_text parts) \/
      (exists outs,
          Forall2 (fun el out => encode self el (lvl + 1) = (lvl + 1, Ok out))
                  l outs /\
          s = expanded_text (lit "[") (lit "]") (indent self) lvl
                (map (element_line self lvl) outs))
  | PDict [] => s = lit "{}"
  | PDict items =>
      exists outs,
        Forall2 (fun kv out => encode self (snd kv) (lvl + 1)
                               = (lvl + 1, Ok out))
                (object_entries self items) outs /\
        s = expanded_text (lit "{") (lit "}") (indent self) lvl
              (map (fun ko => entry_line self lvl (fst (fst ko)) (snd ko))
                   (combine (object_entries self items) outs))
  | Prim _ => True
  end.
Proof.
  intros H. split; [exact (encode_balanced self o _ _ _ H)|].
  destruct o as [p|l|l|items]; [exact I| | |].
  - rewrite encode_list_eq in H.
    apply _encode_list_ok in H as [_ [(_ & parts & Hp & _ & ->)|Hx]];
      [left; eauto|right; exact Hx|apply encode_children_balanced].
  - rewrite encode_tuple_eq in H.
    apply _encode_list_ok in H as [_ [(_ & parts & Hp & _ & ->)|Hx]];
      [left; eauto|right; exact Hx|apply encode_children_balanced].
  - rewrite encode_dict_eq, _encode_object_cases in H.
    destruct items as [|kv items]; [now inversion H|].
    apply expand_object_ok in H as [_ Hx];
      [exact Hx|apply encode_values_balanced].
Qed.

Lemma depth_restored_on_return_witness :
  let l := [PList [Prim (PInt 1); Prim (PInt 2)]; PDict []] in
  let s := lit "[" ++ nl ++ lit "  [1, 2]," ++ nl ++ lit "  {}" ++ nl
           ++ lit "]" in
  encode dumps_encoder (PList l) 0 = (0, Ok s) /\
  ((exists parts,
       Forall2 (fun el p => encode dumps_encoder el 0 = (0, Ok p)) l parts /\
       s = inline_text parts) \/
   (exists outs,
       Forall2 (fun el out => encode dumps_encoder el (0 + 1)
                              = (0 + 1, Ok out)) l outs /\
       s = expanded_text (lit "[") (lit "]") (indent dumps_encoder) 0
             (map (element_line dumps_encoder 0) outs))).
Proof.
  intros l s.
  assert (H : encode dumps_encoder (PList l) 0 = (0, Ok s)) by reflexivity.
  split; [exact H|].
  exact (proj2 (depth_restored_on_return _ _ _ _ _ H)).
Defined.

(** ** Scalars are written on one line *)

Lemma single_line_Forall s : single_line s <-> Forall no_nl s.
Proof.
  unfold single_line, no_nl. rewrite Forall_forall. split.
  - intros H c Hc ->. exact (H Hc).
  - intros H Hin. exact (H _ Hin eq_refl).
Qed.

Ltac no_nl_lit := repeat constructor; unfold no_nl; discriminate.

Lemma digit_char_no_nl d : 0 <= d -> no_nl (digit_char d).
Proof. intros H. unfold no_nl, digit_char. lia. Qed.

Lemma digits_fuel_no_nl fuel n acc :
  Forall no_nl acc -> Forall no_nl (digits_fuel fuel n acc).
Proof.
  revert n acc. induction fuel as [|fuel IH]; intros n acc Hacc; simpl;
    [exact Hacc|].
  assert (Hd : no_nl (digit_char (n mod 10))).
  { apply digit_char_no_nl. apply Z.mod_pos_bound. lia. }
  destruct (n <? 10); [now constructor|].
  apply IH. now constructor.
Qed.

Lemma nat_digits_no_nl n : Forall no_nl (nat_digits n).
Proof. apply digits_fuel_no_nl. constructor. Qed.

Lemma sign_str_no_nl s : Forall no_nl (sign_str s).
Proof. destruct s; no_nl_lit. Qed.

Lemma int_repr_no_nl n : Forall no_nl (int_repr n).
Proof.
  unfold int_repr. destruct (n <? 0); [|apply nat_digits_no_nl].
  apply Forall_app. split; [no_nl_lit|apply nat_digits_no_nl].
Qed.

Lemma hex_char_no_nl d : no_nl (hex_char d).
Proof.
  unfold no_nl, hex_char. destruct (N.ltb_spec d 10); lia.
Qed.

Lemma hex4_no_nl n : Forall no_nl (hex4 n).
Proof. unfold hex4. repeat constructor; apply hex_char_no_nl. Qed.

Lemma str_repeat_no_nl n s : Forall no_nl s -> Forall no_nl (str_repeat n s).
Proof.
  intros H. unfold str_repeat.
  induction (Z.to_nat n) as [|k IH]; simpl; [constructor|].
  apply Forall_app. now split.
Qed.

Lemma firstn_no_nl k (s : pystr) : Forall no_nl s -> Forall no_nl (firstn k s).
Proof.
  intros H. rewrite <- (firstn_skipn k s) in H.
  now apply Forall_app in H.
Qed.

Lemma skipn_no_nl k (s : pystr) : Forall no_nl s -> Forall no_nl (skipn k s).
Proof.
  intros H. rewrite <- (firstn_skipn k s) in H.
  now apply Forall_app in H.
Qed.

Lemma lstrip_char_no_nl c s : Forall no_nl s -> Forall no_nl (lstrip_char c s).
Proof.
  induction 1 as [|x s Hx Hs IH]; simpl; [constructor|].
  destruct (x =? c)%N; [exact IH|now constructor].
Qed.

Lemma rstrip_no_nl c s : Forall no_nl s -> Forall no_nl (rstrip c s).
Proof.
  intros H. unfold rstrip. apply Forall_rev, lstrip_char_no_nl, Forall_rev, H.
Qed.

Lemma exp_str_no_nl x : Forall no_nl (exp_str x).
Proof.
  unfold exp_str. repeat (apply Forall_app; split).
  - destruct (x <? 0); no_nl_lit.
  - destruct (Z.abs x <? 10); [no_nl_lit|constructor].
  - apply nat_digits_no_nl.
Qed.

Lemma repr_layout_no_nl d k : Forall no_nl (repr_layout d k).
Proof.
  unfold repr_layout.
  pose proof (nat_digits_no_nl d) as Hd.
  repeat match goal with
         | |- Forall _ (if ?c then _ else _) => destruct c
         | |- Forall _ (_ ++ _) => apply Forall_app; split
         | |- Forall _ (firstn _ _) => apply firstn_no_nl
         | |- Forall _ (skipn _ _) => apply skipn_no_nl
         | |- Forall _ (zeros _) => apply str_repeat_no_nl
         | |- Forall _ (exp_str _) => apply exp_str_no_nl
         | |- Forall _ (nat_digits _) => exact Hd
         | |- Forall _ (lit _) => no_nl_lit
         | |- Forall _ [] => constructor
         end.
Qed.

Lemma float_repr_no_nl x : Forall no_nl (float_repr x).
Proof.
  destruct x as [s|s| |s m e]; simpl.
  - apply Forall_app; split; [apply sign_str_no_nl|no_nl_lit].
  - apply Forall_app; split; [apply sign_str_no_nl|no_nl_lit].
  - no_nl_lit.
  - apply Forall_app; split; [apply sign_str_no_nl|].
    destruct (shortest_digits m e). apply repr_layout_no_nl.
Qed.

Lemma fixed6_no_nl n : Forall no_nl (fixed6 n).
Proof.
  unfold fixed6. repeat (apply Forall_app; split).
  - apply nat_digits_no_nl.
  - no_nl_lit.
  - unfold pad6. apply Forall_map, Forall_forall. intros k _.
    apply digit_char_no_nl, Z.mod_pos_bound. lia.
Qed.

Lemma format_06f_no_nl x : Forall no_nl (format_06f x).
Proof.
  destruct x as [s|s| |s m e]; simpl;
    try (apply Forall_app; split; [apply sign_str_no_nl|]);
    try apply fixed6_no_nl; no_nl_lit.
Qed.

Lemma encode_float_no_nl x : Forall no_nl (encode_float x).
Proof.
  unfold encode_float. destruct (is_integer x).
  - apply float_repr_no_nl.
  - apply rstrip_no_nl, rstrip_no_nl, format_06f_no_nl.
Qed.

Lemma ESCAPE_DCT_no_nl c r : ESCAPE_DCT c = Some r -> Forall no_nl r.
Proof.
  unfold ESCAPE_DCT.
  repeat match goal with
         | |- (if ?b then _ else _) = _ -> _ => destruct b
         end; intros H; inversion H; subst; try no_nl_lit.
  repeat constructor; try (unfold no_nl; discriminate); apply hex_char_no_nl.
Qed.

Lemma ESCAPE_DCT_nl : ESCAPE_DCT 10 = Some [92; 110]%N.
Proof. reflexivity. Qed.

Lemma ESCAPE_DCT_None c : ESCAPE_DCT c = None -> no_nl c.
Proof. intros H ->. discriminate. Qed.

Lemma encode_basestring_no_nl s : Forall no_nl (encode_basestring s).
Proof.
  unfold encode_basestring. repeat (apply Forall_app; split);
    try no_nl_lit.
  apply Forall_flat_map, Forall_forall. intros c _.
  destruct (ESCAPE_DCT c) as [r|] eqn:E.
  - exact (ESCAPE_DCT_no_nl _ _ E).
  - constructor; [exact (ESCAPE_DCT_None _ E)|constructor].
Qed.

Lemma escape_ascii_no_nl c : Forall no_nl (escape_ascii c).
Proof.
  unfold escape_ascii. destruct (ESCAPE_DCT c) as [r|] eqn:E.
  - exact (ESCAPE_DCT_no_nl _ _ E).
  - destruct ((32 <=? c) && (c <=? 126))%N.
    + constructor; [exact (ESCAPE_DCT_None _ E)|constructor].
    + destruct (c <? 65536)%N;
        repeat (apply Forall_app; split); try apply hex4_no_nl; no_nl_lit.
Qed.

Lemma encode_basestring_ascii_no_nl s :
  Forall no_nl (encode_basestring_ascii s).
Proof.
  unfold encode_basestring_ascii. repeat (apply Forall_app; split);
    try no_nl_lit.
  apply Forall_flat_map, Forall_forall. intros c _. apply escape_ascii_no_nl.
Qed.

Lemma encode_prim_single_line self p lvl lvl' s :
  encode self (Prim p) lvl = (lvl', Ok s) -> single_line s.
Proof.
  intros H. apply single_line_Forall.
  destruct p as [|b|n|x|t|]; simpl in H; inversion H; subst.
  - no_nl_lit.
  - destruct b; no_nl_lit.
  - apply int_repr_no_nl.
  - apply encode_float_no_nl.
  - destruct (ensure_ascii self);
      [apply encode_basestring_ascii_no_nl|apply encode_basestring_no_nl].
Qed.

Lemma join_no_nl sep parts :
  Forall no_nl sep -> Forall (Forall no_nl) parts ->
  Forall no_nl (join sep parts).
Proof.
  intros Hsep. induction 1 as [|p parts Hp Hparts IH]; simpl; [constructor|].
  destruct parts as [|q parts]; [exact Hp|].
  apply Forall_app; split; [exact Hp|].
  apply Forall_app; split; [exact Hsep|exact IH].
Qed.

Lemma inline_text_single_line parts :
  Forall single_line parts -> single_line (inline_text parts).
Proof.
  intros H. apply single_line_Forall. unfold inline_text.
  repeat (apply Forall_app; split); try no_nl_lit.
  apply join_no_nl; [no_nl_lit|].
  eapply Forall_impl; [|exact H]. intros p. apply single_line_Forall.
Qed.

(** ** Nested lists *)

Lemma encode_array_eq self o l :
  array_items o = Some l ->
  encode self o = _encode_list self is_container (encode self) l.
Proof.
  destruct o as [p|l'|l'|items]; simpl; intros H; inversion H; subst.
  - apply encode_list_eq.
  - apply encode_tuple_eq.
Qed.

Lemma expanded_text_not_single_line opening closing ind lvl lines :
  ~ single_line (expanded_text opening closing ind lvl lines).
Proof.
  intros H. apply H. unfold expanded_text.
  apply in_or_app. right. apply in_or_app. left. now left.
Qed.

Lemma prims_single_line self cl parts lvl :
  existsb is_container cl = false ->
  Forall2 (fun el p => encode self el lvl = (lvl, Ok p)) cl parts ->
  Forall single_line parts.
Proof.
  intros Hprim H. induction H as [|el p cl parts Hel _ IH]; [constructor|].
  simpl in Hprim. apply orb_false_iff in Hprim as [Hc Hprim].
  constructor; [|exact (IH Hprim)].
  destruct el; try discriminate.
  exact (encode_prim_single_line _ _ _ _ _ Hel).
Qed.

(** C9: a list (or tuple) with a member that is itself a list, tuple or
    dict is never put on one line: when its encoding returns, the text is
    the expanded rendering, which holds a newline, and it is that rendering
    of the members' texts whenever the members encode.  A member list whose
    own members are all scalars, with at most [MAX_ITEMS] of them and whose
    one-line text passes the width test at the member's depth, is encoded as
    that one-line text, which holds no newline. *)
Theorem nested_array_expands self o l lvl :
  array_items o = Some l ->
  existsb is_container l = true ->
  (forall lvl' s,
      encode self o lvl = (lvl', Ok s) ->
      ~ single_line s /\
      exists outs,
        Forall2 (fun el out => encode self el (lvl + 1) = (lvl + 1, Ok out))
                l outs /\
        s = expanded_text (lit "[") (lit "]") (indent self) lvl
              (map (element_line self lvl) outs)) /\
  (forall outs,
      Forall2 (fun el out => encode self el (lvl + 1) = (lvl + 1, Ok out))
              l outs ->
      encode self o lvl
      = (lvl, Ok (expanded_text (lit "[") (lit "]") (indent self) lvl
                    (map (element_line self lvl) outs)))) /\
  (forall c cl parts,
      In c l ->
      array_items c = Some cl ->
      existsb is_container cl = false ->
      len cl <= MAX_ITEMS ->
      Forall2 (fun el p => encode self el (lvl + 1) = (lvl + 1, Ok p))
              cl parts ->
      len (inline_text parts) + (lvl + 1) * 2 < MAX_WIDTH ->
      encode self c (lvl + 1) = (lvl + 1, Ok (inline_text parts)) /\
      single_line (inline_text parts)).
Proof.
  intros Ho Hnested. rewrite (encode_array_eq self o l Ho).
  rewrite _encode_list_nested by exact Hnested.
  split; [|split].
  - intros lvl' s H.
    apply expand_list_ok in H as [_ (outs & Houts & ->)];
      [|apply encode_children_balanced].
    split; [apply expanded_text_not_single_line|].
    exists outs. split; [exact Houts|reflexivity].
  - intros outs Houts. now apply expand_list_run.
  - intros c cl parts _ Hc Hprim Hlen Hparts Hw.
    rewrite (encode_array_eq self c cl Hc).
    split; [now apply _encode_list_inline|].
    apply inline_text_single_line.
    exact (prims_single_line _ _ _ _ Hprim Hparts).
Qed.

Lemma nested_array_expands_witness :
  let inner1 := PList [Prim (PInt 1); Prim (PInt 2)] in
  let inner2 := PList [Prim (PInt 3); Prim (PInt 4)] in
  encode dumps_encoder (PList [inner1; inner2]) 0
  = (0, Ok (lit "[" ++ nl ++ lit "  [1, 2]," ++ nl ++ lit "  [3, 4]" ++ nl
              ++ lit "]")) /\
  encode dumps_encoder inner1 1 = (1, Ok (lit "[1, 2]")) /\
  encode dumps_encoder inner2 1 = (1, Ok (lit "[3, 4]")).
Proof.
  intros inner1 inner2.
  destruct (nested_array_expands dumps_encoder (PList [inner1; inner2])
              [inner1; inner2] 0 eq_refl eq_refl) as (_ & Hexp & Hin).
  assert (H1 : encode dumps_encoder inner1 (0 + 1)
               = (0 + 1, Ok (inline_text [lit "1"; lit "2"]))).
  { apply (Hin inner1 [Prim (PInt 1); Prim (PInt 2)]);
      [now left|reflexivity|reflexivity|vm_compute; discriminate
      |repeat constructor|vm_compute; reflexivity]. }
  assert (H2 : encode dumps_encoder inner2 (0 + 1)
               = (0 + 1, Ok (inline_text [lit "3"; lit "4"]))).
  { apply (Hin inner2 [Prim (PInt 3); Prim (PInt 4)]);
      [right; now left|reflexivity|reflexivity|vm_compute; discriminate
      |repeat constructor|vm_compute; reflexivity]. }
  split; [|split; [exact H1|exact H2]].
  rewrite (Hexp [inline_text [lit "1"; lit "2"];
                 inline_text [lit "3"; lit "4"]]); [reflexivity|].
  constructor; [exact H1|]. constructor; [exact H2|]. constructor.
Defined.

(** ** The order on strings *)

Lemma str_ltb_irrefl a : str_ltb a a = false.
Proof.
  induction a as [|x a IH]; simpl; [reflexivity|].
  now rewrite N.compare_refl.
Qed.

Lemma str_ltb_trans a b c :
  str_ltb a b = true -> str_ltb b c = true -> str_ltb a c = true.
Proof.
  revert b c. induction a as [|x a IH]; intros [|y b] [|z c]; simpl;
    try discriminate; try reflexivity.
  destruct (N.compare_spec x y) as [->|Hxy|Hxy]; try discriminate.
  - destruct (N.compare_spec y z) as [->|Hyz|Hyz]; try discriminate.
    + apply IH.
    + reflexivity.
  - destruct (N.compare_spec y z) as [->|Hyz|Hyz]; try discriminate; intros _ _.
    + destruct (N.compare_spec x z); try reflexivity; lia.
    + destruct (N.compare_spec x z); try reflexivity; lia.
Qed.

Lemma str_ltb_total a b :
  str_ltb a b = false -> a <> b -> str_ltb b a = true.
Proof.
  revert b. induction a as [|x a IH]; intros [|y b]; simpl;
    try discriminate; try reflexivity; try congruence.
  rewrite (N.compare_antisym x y).
  destruct (N.compare_spec x y) as [->|Hxy|Hxy]; simpl;
    try discriminate; try reflexivity.
  intros H Hne. apply IH; [exact H|congruence].
Qed.

(** ** Dictionaries *)

Section DictFacts.
Context {V : Type}.
Implicit Types (d l : list (pystr * V)) (k t : pystr) (v : V).

Lemma str_eqb_neq a b : str_eqb a b = false <-> a <> b.
Proof.
  rewrite <- str_eqb_eq. destruct (str_eqb a b); split; congruence.
Qed.

Lemma dict_get_set d k v t :
  dict_get (dict_set d k v) t = if str_eqb k t then Some v else dict_get d t.
Proof.
  induction d as [|[k' v'] d IH]; simpl.
  - reflexivity.
  - destruct (str_eqb k' k) eqn:E; simpl.
    + apply str_eqb_eq in E. subst k'. now destruct (str_eqb k t).
    + rewrite IH. destruct (str_eqb k' t) eqn:E'; [|reflexivity].
      apply str_eqb_eq in E'. subst k'.
      apply str_eqb_neq in E.
      destruct (str_eqb k t) eqn:E''; [|reflexivity].
      apply str_eqb_eq in E''. congruence.
Qed.

Lemma dict_set_keys d k v x :
  In x (map fst (dict_set d k v)) <-> x = k \/ In x (map fst d).
Proof.
  induction d as [|[k' v'] d IH]; simpl.
  - intuition congruence.
  - destruct (str_eqb k' k) eqn:E; simpl.
    + apply str_eqb_eq in E. subst. intuition congruence.
    + rewrite IH. intuition congruence.
Qed.

Lemma dict_set_NoDup d k v :
  NoDup (map fst d) -> NoDup (map fst (dict_set d k v)).
Proof.
  induction d as [|[k' v'] d IH]; simpl; intros H.
  - constructor; [intros []|constructor].
  - inversion H as [|? ? Hnotin Hd]; subst.
    destruct (str_eqb k' k) eqn:E; simpl.
    + now constructor.
    + constructor; [|auto].
      rewrite dict_set_keys. intros [->|Hin]; [|contradiction].
      apply str_eqb_neq in E. congruence.
Qed.

Lemma dict_set_fresh d k v :
  ~ In k (map fst d) -> dict_set d k v = d ++ [(k, v)].
Proof.
  induction d as [|[k' v'] d IH]; simpl; intros H; [reflexivity|].
  destruct (str_eqb k' k) eqn:E.
  - apply str_eqb_eq in E. subst. tauto.
  - rewrite IH; [reflexivity|tauto].
Qed.

Lemma fold_dict_set_NoDup l acc :
  NoDup (map fst acc) ->
  NoDup (map fst (fold_left (fun d kv => dict_set d (fst kv) (snd kv)) l acc)).
Proof.
  revert acc. induction l as [|kv l IH]; simpl; intros acc H; [exact H|].
  apply IH, dict_set_NoDup, H.
Qed.

Lemma dict_of_items_NoDup l : NoDup (map fst (dict_of_items l)).
Proof. apply fold_dict_set_NoDup. constructor. Qed.

Lemma fold_dict_set_get l acc t :
  dict_get (fold_left (fun d kv => dict_set d (fst kv) (snd kv)) l acc) t
  = match last_with_key (fun k => str_eqb k t) l with
    | Some v => Some v
    | None => dict_get acc t
    end.
Proof.
  revert acc. induction l as [|[k v] l IH]; simpl; intros acc; [reflexivity|].
  rewrite IH, dict_get_set.
  destruct (last_with_key (fun k0 => str_eqb k0 t) l); [reflexivity|].
  now destruct (str_eqb k t).
Qed.

Lemma dict_of_items_get l t :
  dict_get (dict_of_items l) t = last_with_key (fun k => str_eqb k t) l.
Proof.
  unfold dict_of_items. rewrite fold_dict_set_get.
  now destruct (last_with_key _ l).
Qed.

Lemma fold_dict_set_id l acc :
  NoDup (map fst (acc ++ l)) ->
  fold_left (fun d kv => dict_set d (fst kv) (snd kv)) l acc = acc ++ l.
Proof.
  revert acc. induction l as [|[k v] l IH]; simpl; intros acc H.
  - now rewrite app_nil_r.
  - assert (Hk : ~ In k (map fst acc)).
    { rewrite map_app in H. apply NoDup_remove_2 in H.
      intros Hin. apply H, in_or_app. now left. }
    rewrite dict_set_fresh by exact Hk.
    rewrite IH; rewrite <- app_assoc; [reflexivity|exact H].
Qed.

(** Building a dictionary from items with distinct keys keeps them. *)
Lemma dict_of_items_id l : NoDup (map fst l) -> dict_of_items l = l.
Proof. intros H. now apply (fold_dict_set_id l []). Qed.

Lemma dict_get_In l t v :
  NoDup (map fst l) -> (dict_get l t = Some v <-> In (t, v) l).
Proof.
  induction l as [|[k w] l IH]; simpl; intros H.
  - split; [discriminate|tauto].
  - inversion H as [|? ? Hnotin Hl]; subst.
    destruct (str_eqb k t) eqn:E.
    + apply str_eqb_eq in E. subst k. split.
      * intros Heq. inversion Heq. now left.
      * intros [Heq|Hin]; [now inversion Heq|].
        exfalso. apply Hnotin. now apply (in_map fst) in Hin.
    + rewrite (IH Hl). apply str_eqb_neq in E. split; [tauto|].
      intros [Heq|Hin]; [inversion Heq; congruence|exact Hin].
Qed.

Lemma dict_get_None l t :
  dict_get l t = None <-> ~ In t (map fst l).
Proof.
  induction l as [|[k w] l IH]; simpl; [tauto|].
  destruct (str_eqb k t) eqn:E.
  - apply str_eqb_eq in E. split; [discriminate|tauto].
  - apply str_eqb_neq in E. rewrite IH. tauto.
Qed.

Lemma insert_item_In x y l : In y (insert_item x l) <-> y = x \/ In y l.
Proof.
  induction l as [|z l IH]; simpl; [intuition congruence|].
  destruct (str_ltb (fst z) (fst x)); simpl; [rewrite IH|];
    intuition congruence.
Qed.

Lemma sorted_In y l : In y (sorted l) <-> In y l.
Proof.
  induction l as [|x l IH]; simpl; [tauto|].
  rewrite insert_item_In, IH. intuition congruence.
Qed.

Lemma insert_item_keys x l :
  forall t, In t (map fst (insert_item x l)) <-> t = fst x \/ In t (map fst l).
Proof.
  intros t. rewrite !in_map_iff. split.
  - intros (y & <- & Hy). apply insert_item_In in Hy as [->|Hy]; [now left|].
    right. now exists y.
  - intros [->|(y & <- & Hy)].
    + exists x. split; [reflexivity|]. apply insert_item_In. now left.
    + exists y. split; [reflexivity|]. apply insert_item_In. now right.
Qed.

Lemma insert_item_ascending x l :
  ~ In (fst x) (map fst l) -> ascending l -> ascending (insert_item x l).
Proof.
  unfold ascending. intros Hx Hl.
  induction Hl as [|y l Hl IH Hy]; simpl.
  - repeat constructor.
  - simpl in Hx. destruct (str_ltb (fst y) (fst x)) eqn:E.
    + constructor; [apply IH; tauto|].
      apply Forall_forall. intros z Hz.
      apply insert_item_In in Hz as [->|Hz]; [exact E|].
      rewrite Forall_forall in Hy. now apply Hy.
    + assert (Hxy : str_ltb (fst x) (fst y) = true).
      { apply str_ltb_total; [exact E|]. intros Heq. apply Hx. now left. }
      constructor; [now constructor|].
      constructor; [exact Hxy|].
      eapply Forall_impl; [|exact Hy]. intros z Hz.
      exact (str_ltb_trans _ _ _ Hxy Hz).
Qed.

Lemma sorted_keys l t : In t (map fst (sorted l)) <-> In t (map fst l).
Proof.
  induction l as [|x l IH]; simpl; [tauto|].
  rewrite insert_item_keys, IH. intuition congruence.
Qed.

Lemma sorted_ascending l : NoDup (map fst l) -> ascending (sorted l).
Proof.
  induction l as [|x l IH]; simpl; intros H; [constructor|].
  inversion H as [|? ? Hx Hl]; subst.
  apply insert_item_ascending; [|auto].
  now rewrite sorted_keys.
Qed.

Lemma ascending_NoDup l : ascending l -> NoDup (map fst l).
Proof.
  induction 1 as [|x l Hl IH Hx]; simpl; constructor; [|exact IH].
  intros Hin. apply in_map_iff in Hin as (y & Heq & Hy).
  rewrite Forall_forall in Hx. specialize (Hx y Hy).
  rewrite Heq, str_ltb_irrefl in Hx. discriminate.
Qed.

Lemma sorted_get l t :
  NoDup (map fst l) -> dict_get (sorted l) t = dict_get l t.
Proof.
  intros H.
  pose proof (ascending_NoDup _ (sorted_ascending l H)) as Hs.
  destruct (dict_get l t) as [v|] eqn:E.
  - apply (dict_get_In _ _ _ Hs), sorted_In, (dict_get_In _ _ _ H), E.
  - apply dict_get_None. rewrite sorted_keys. now apply dict_get_None.
Qed.
End DictFacts.

Lemma last_with_key_map {K V : Type} (f : K -> pystr) (p : pystr -> bool)
    (items : list (K * V)) :
  last_with_key p (map (fun kv => (f (fst kv), snd kv)) items)
  = last_with_key (fun k => p (f k)) items.
Proof.
  induction items as [|kv items IH]; simpl; [reflexivity|].
  now rewrite IH.
Qed.

Section Entries.
Context {V : Type}.
Variable self : encoder.
Variable items : list (pykey * V).

Lemma stringify_keys_get t :
  dict_get (stringify_keys items) t
  = last_with_key (fun k => str_eqb (key_text k) t) items.
Proof.
  unfold stringify_keys.
  now rewrite dict_of_items_get, last_with_key_map.
Qed.

Lemma object_entries_NoDup : NoDup (map fst (object_entries self items)).
Proof.
  unfold object_entries.
  destruct (sort_keys self); apply dict_of_items_NoDup.
Qed.

Lemma object_entries_sorted :
  sort_keys self = true ->
  object_entries self items = sorted (stringify_keys items).
Proof.
  intros H. unfold object_entries. rewrite H.
  apply dict_of_items_id, ascending_NoDup, sorted_ascending.
  apply dict_of_items_NoDup.
Qed.

Lemma object_entries_get t :
  dict_get (object_entries self items) t
  = last_with_key (fun k => str_eqb (key_text k) t) items.
Proof.
  destruct (sort_keys self) eqn:E.
  - rewrite (object_entries_sorted E), sorted_get, stringify_keys_get;
      [reflexivity|apply dict_of_items_NoDup].
  - unfold object_entries. rewrite E. apply stringify_keys_get.
Qed.

Lemma object_entries_ascending :
  sort_keys self = true -> ascending (object_entries self items).
Proof.
  intros H. rewrite (object_entries_sorted H).
  apply sorted_ascending, dict_of_items_NoDup.
Qed.
End Entries.

Lemma last_with_key_None {K V : Type} (p : K -> bool) (items : list (K * V)) :
  last_with_key p items = None <-> forall kv, In kv items -> p (fst kv) = false.
Proof.
  induction items as [|kv items IH]; simpl.
  - split; [intros _ ? []|reflexivity].
  - destruct (last_with_key p items) as [v|].
    + split; [discriminate|]. intros H.
      apply IH. intros x Hx. apply H. now right.
    + destruct (p (fst kv)) eqn:E.
      * split; [discriminate|]. intros H.
        rewrite (H kv) in E by now left. discriminate.
      * split; [|reflexivity]. intros _ x [<-|Hx]; [exact E|].
        now apply (proj1 IH).
Qed.

Lemma last_with_key_Some {K V : Type} (p : K -> bool) (items : list (K * V)) v :
  last_with_key p items = Some v ->
  exists k, In (k, v) items /\ p k = true.
Proof.
  induction items as [|[k w] items IH]; simpl; [discriminate|].
  destruct (last_with_key p items) as [v'|].
  - intros H. inversion H; subst.
    destruct (IH eq_refl) as (k' & Hin & Hp). exists k'. auto.
  - destruct (p k) eqn:E; [|discriminate].
    intros H. inversion H; subst. exists k. auto.
Qed.

Lemma dict_get_Some_key {V : Type} (l : list (pystr * V)) t v :
  dict_get l t = Some v -> In t (map fst l).
Proof.
  intros H. destruct (in_dec (list_eq_dec N.eq_dec) t (map fst l)) as [|Hn];
    [assumption|].
  apply dict_get_None in Hn. congruence.
Qed.

(** ** Object keys *)

(** C7: an object is rendered from the entries [object_entries]: every key
    is replaced by its text, [None] by the text [null] and any other key by
    [str(k)]; each text occurs once, with the value of the last item, in
    iteration order, whose key has that text; with [sort_keys] the entries
    are in strictly ascending lexicographic order of the key texts; and the
    lines of the object are written in the order of these entries. *)
Theorem object_keys_normalised self (items : list (pykey * pyval)) :
  let entries := object_entries self items in
  key_text KNone = lit "null" /\
  (forall k, k <> KNone -> key_text k = py_str k) /\
  NoDup (map fst entries) /\
  (forall t,
      dict_get entries t
      = last_with_key (fun k => str_eqb (key_text k) t) items) /\
  (forall t,
      In t (map fst entries) <->
      exists k v, In (k, v) items /\ key_text k = t) /\
  (sort_keys self = true -> ascending entries) /\
  (forall lvl outs,
      items <> [] ->
      Forall2 (fun kv out => encode self (snd kv) (lvl + 1)
                             = (lvl + 1, Ok out)) entries outs ->
      encode self (PDict items) lvl
      = (lvl, Ok (expanded_text (lit "{") (lit "}") (indent self) lvl
                    (map (fun ko => entry_line self lvl (fst (fst ko)) (snd ko))
                         (combine entries outs))))).
Proof.
  intros entries. repeat split.
  - intros k Hk. destruct k; try reflexivity. contradiction.
  - apply object_entries_NoDup.
  - apply object_entries_get.
  - intros Hin.
    destruct (dict_get entries t) as [v|] eqn:E.
    + unfold entries in E. rewrite object_entries_get in E.
      apply last_with_key_Some in E as (k & Hk & Heq).
      exists k, v. split; [exact Hk|]. now apply str_eqb_eq.
    + apply dict_get_None in E. contradiction.
  - intros (k & v & Hin & <-).
    destruct (dict_get entries (key_text k)) as [w|] eqn:E.
    + exact (dict_get_Some_key _ _ _ E).
    + unfold entries in E. rewrite object_entries_get in E.
      pose proof (proj1 (last_with_key_None _ _) E _ Hin) as Hp.
      simpl in Hp. rewrite str_eqb_refl in Hp. discriminate.
  - apply object_entries_ascending.
  - intros lvl outs Hne Houts.
    rewrite encode_dict_eq, _encode_object_cases.
    destruct items as [|kv rest]; [contradiction|].
    now apply expand_object_run.
Qed.

Lemma object_keys_normalised_witness :
  let items := [(KNone, Prim (PInt 1)); (KStr (lit "b"), Prim (PInt 2));
                (KStr (lit "null"), Prim (PInt 3));
                (KStr (lit "a"), Prim (PInt 4))] in
  object_entries dumps_encoder items
  = [(lit "a", Prim (PInt 4)); (lit "b", Prim (PInt 2));
     (lit "null", Prim (PInt 3))] /\
  ascending (object_entries dumps_encoder items) /\
  encode dumps_encoder (PDict items) 0
  = (0, Ok (expanded_text (lit "{") (lit "}") (lit "  ") 0
              [lit "  " ++ [34%N] ++ lit "a" ++ [34%N] ++ lit ": 4";
               lit "  " ++ [34%N] ++ lit "b" ++ [34%N] ++ lit ": 2";
               lit "  " ++ [34%N] ++ lit "null" ++ [34%N] ++ lit ": 3"])).
Proof.
  intros items.
  destruct (object_keys_normalised dumps_encoder items)
    as (_ & _ & _ & _ & _ & Hasc & Henc).
  split; [reflexivity|]. split; [exact (Hasc eq_refl)|].
  rewrite (Henc 0 [lit "4"; lit "2"; lit "3"]); [reflexivity|discriminate|].
  repeat constructor.
Defined.

(** ** Decimal digits *)

Lemma digits_fuel_fuel f1 : forall f2 n acc,
  0 <= n -> n < 2 ^ Z.of_nat (S f1) -> n < 2 ^ Z.of_nat (S f2) ->
  digits_fuel (S f1) n acc = digits_fuel (S f2) n acc.
Proof.
  induction f1 as [|f1 IH]; intros f2 n acc Hn H1 H2.
  - change (2 ^ Z.of_nat 1) with 2 in H1. simpl.
    destruct (Z.ltb_spec n 10); [reflexivity|lia].
  - cbn [digits_fuel]. destruct (Z.ltb_spec n 10) as [Hlt|Hge]; [reflexivity|].
    rewrite Nat2Z.inj_succ, Z.pow_succ_r in H1, H2 by lia.
    assert (Hd1 : n / 10 < 2 ^ Z.of_nat (S f1))
      by (apply Z.div_lt_upper_bound; lia).
    assert (Hd2 : n / 10 < 2 ^ Z.of_nat f2)
      by (apply Z.div_lt_upper_bound; lia).
    assert (Hd0 : 1 <= n / 10) by (apply Z.div_le_lower_bound; lia).
    destruct f2 as [|f2]; [simpl in Hd2; lia|].
    apply IH; [lia|exact Hd1|exact Hd2].
Qed.

Lemma digits_fuel_acc f : forall n acc,
  digits_fuel f n acc = digits_fuel f n [] ++ acc.
Proof.
  induction f as [|f IH]; intros n acc; simpl; [reflexivity|].
  destruct (n <? 10); [reflexivity|].
  rewrite IH, (IH _ [_]), <- app_assoc. reflexivity.
Qed.

Lemma log2_fuel n : 0 <= n -> n < 2 ^ Z.of_nat (S (Z.to_nat (Z.log2 n))).
Proof.
  intros Hn. rewrite Nat2Z.inj_succ, Z2Nat.id by apply Z.log2_nonneg.
  destruct (Z.eq_dec n 0) as [->|Hne]; [reflexivity|].
  apply Z.log2_spec. lia.
Qed.

Lemma nat_digits_fuel n f :
  0 <= n -> n < 2 ^ Z.of_nat (S f) -> nat_digits n = digits_fuel (S f) n [].
Proof.
  intros Hn Hf. unfold nat_digits.
  apply digits_fuel_fuel; [exact Hn|now apply log2_fuel|exact Hf].
Qed.

(** The digits of [n]: its last digit behind the digits of [n / 10]. *)
Lemma nat_digits_eq n :
  0 <= n ->
  nat_digits n
  = if n <? 10 then [digit_char n]
    else nat_digits (n / 10) ++ [digit_char (n mod 10)].
Proof.
  intros Hn. pose proof (log2_fuel n Hn) as Hf.
  unfold nat_digits at 1. cbn [digits_fuel].
  destruct (Z.ltb_spec n 10) as [Hlt|Hge].
  - now rewrite Z.mod_small by lia.
  - rewrite digits_fuel_acc. f_equal. symmetry.
    rewrite Nat2Z.inj_succ, Z.pow_succ_r in Hf by lia.
    assert (Hd : n / 10 < 2 ^ Z.of_nat (Z.to_nat (Z.log2 n)))
      by (apply Z.div_lt_upper_bound; lia).
    assert (Hd0 : 1 <= n / 10) by (apply Z.div_le_lower_bound; lia).
    destruct (Z.to_nat (Z.log2 n)) as [|f]; [simpl in Hd; lia|].
    apply nat_digits_fuel; [lia|exact Hd].
Qed.

Lemma zeros_succ k : 0 <= k -> zeros (k + 1) = zeros k ++ lit "0".
Proof.
  intros Hk. unfold zeros, str_repeat.
  replace (Z.to_nat (k + 1)) with (S (Z.to_nat k)) by lia.
  induction (Z.to_nat k) as [|j IH]; [reflexivity|].
  change (repeat (lit "0") (S (S j))) with (lit "0" :: repeat (lit "0") (S j)).
  change (repeat (lit "0") (S j)) with (lit "0" :: repeat (lit "0") j) at 2.
  rewrite !concat_cons, IH, <- app_assoc. reflexivity.
Qed.

Lemma nat_digits_pow10 d k :
  1 <= d -> 0 <= k -> nat_digits (d * 10 ^ k) = nat_digits d ++ zeros k.
Proof.
  intros Hd Hk. revert k Hk.
  apply natlike_ind.
  - now rewrite Z.mul_1_r, app_nil_r.
  - intros k Hk IH. unfold Z.succ.
    rewrite zeros_succ, Z.pow_add_r, Z.pow_1_r by lia.
    assert (Hp : 0 < 10 ^ k) by (apply Z.pow_pos_nonneg; lia).
    rewrite nat_digits_eq by nia.
    destruct (Z.ltb_spec (d * (10 ^ k * 10)) 10) as [Hlt|Hge]; [nia|].
    replace (d * (10 ^ k * 10)) with (d * 10 ^ k * 10) by ring.
    rewrite Z.div_mul, Z.mod_mul, IH, <- app_assoc by lia.
    reflexivity.
Qed.

Lemma nat_digits_len n :
  forall j : nat, 0 <= n -> n < 10 ^ Z.of_nat (S j) ->
  len (nat_digits n) <= Z.of_nat (S j).
Proof.
  intros j. revert n. induction j as [|j IH]; intros n Hn Hlt.
  - rewrite nat_digits_eq by exact Hn.
    change (10 ^ Z.of_nat 1) with 10 in Hlt.
    destruct (Z.ltb_spec n 10); [|lia]. unfold len. simpl. lia.
  - rewrite nat_digits_eq by exact Hn.
    destruct (Z.ltb_spec n 10); [unfold len; simpl; lia|].
    unfold len in *. rewrite length_app. simpl.
    rewrite Nat2Z.inj_add.
    assert (Hdiv : n / 10 < 10 ^ Z.of_nat (S j)).
    { rewrite (Nat2Z.inj_succ (S j)), Z.pow_succ_r in Hlt by lia.
      apply Z.div_lt_upper_bound; lia. }
    specialize (IH (n / 10) ltac:(apply Z.div_pos; lia) Hdiv). lia.
Qed.

Lemma nat_digits_nonempty n : 1 <= len (nat_digits n).
Proof.
  unfold nat_digits, len. simpl.
  destruct (n <? 10); [simpl; lia|].
  rewrite digits_fuel_acc, length_app. simpl. lia.
Qed.

(** ** [repr] of a float that is an integer *)

(** An interval around an integer [v] that is narrower than the distance
    to the next multiple of ten. *)
Section IntegralInterval.
Variable iv : interval.
Variable v : Z.
Hypothesis Hnum : num iv = v * den iv.
Hypothesis Hden : 4 <= den iv \/ (den iv = 2 /\ Z.even v = true).
Hypothesis Hbelow : 0 < below iv <= 2.
Hypothesis Habove : 0 < above iv <= 2.
Hypothesis Hv : 1 <= v.

Lemma nearest_at_cases k :
  0 <= k ->
  nearest_at true iv k
  = if v mod 10 ^ k =? 0 then Some (v / 10 ^ k) else None.
Proof.
  intros Hk. unfold nearest_at.
  apply Z.leb_le in Hk as Hkb. rewrite Hkb. apply Z.leb_le in Hkb.
  cbn [negb orb]. rewrite !Z.mul_1_r.
  set (P := 10 ^ k).
  assert (HP : 0 < P) by (apply Z.pow_pos_nonneg; lia).
  assert (Hdenpos : 0 < den iv) by lia.
  rewrite Hnum, Z.div_mul_cancel_r by lia.
  pose proof (Z.div_mod v P ltac:(lia)) as Hqr.
  pose proof (Z.mod_pos_bound v P HP) as Hr.
  set (q := v / P) in *. set (r := v mod P) in *. clearbody q r.
  destruct (Z.eqb_spec r 0) as [Hr0|Hr0].
  all: revert Hr0.
  all: assert (Hc0 : v * den iv - q * (P * den iv) = r * den iv)
         by (rewrite Hqr; ring).
  all: assert (Hc1 : (q + 1) * (P * den iv) - v * den iv = (P - r) * den iv)
         by (rewrite Hqr; ring).
  all: intros Hr0.
  - (* the value is itself a multiple of [10^k] *)
    rewrite Hr0 in *.
    assert (Hin0 : (if closed iv
                    then (v * den iv - below iv <=? q * (P * den iv))
                         && (q * (P * den iv) <=? v * den iv + above iv)
                    else (v * den iv - below iv <? q * (P * den iv))
                         && (q * (P * den iv) <? v * den iv + above iv))
                   = true).
    { destruct (closed iv); apply andb_true_iff; split;
        first [apply Z.leb_le|apply Z.ltb_lt]; lia. }
    rewrite Hin0.
    assert (Hlt : (v * den iv - q * (P * den iv)
                   ?= (q + 1) * (P * den iv) - v * den iv) = Lt).
    { apply Z.compare_lt_iff. nia. }
    rewrite Hlt.
    match goal with
    | |- (if ?c then Some q else Some q) = _ => destruct c; reflexivity
    end.
  - (* otherwise no multiple of [10^k] is close enough *)
    assert (Hpar : 4 <= den iv \/ (den iv = 2 /\ exists a, r = 2 * a /\ exists b, P = 2 * b)).
    { destruct Hden as [H4|[H2 Hev]]; [now left|right].
      split; [exact H2|].
      assert (Hk1 : 1 <= k).
      { destruct (Z.eq_dec k 0) as [->|]; [|lia].
        exfalso. unfold P in Hr. rewrite Z.pow_0_r in Hr. lia. }
      apply Z.even_spec in Hev as [a Ha].
      assert (HPb : P = 2 * (5 * 10 ^ (k - 1))).
      { unfold P. replace k with (Z.succ (k - 1)) at 1 by lia.
        rewrite Z.pow_succ_r by lia. ring. }
      exists (a - 5 * 10 ^ (k - 1) * q). split; [|eauto].
      rewrite HPb in Hqr. lia. }
    assert (Hout0 : (if closed iv
                     then (v * den iv - below iv <=? q * (P * den iv))
                          && (q * (P * den iv) <=? v * den iv + above iv)
                     else (v * den iv - below iv <? q * (P * den iv))
                          && (q * (P * den iv) <? v * den iv + above iv))
                    = false).
    { assert (Hfar : q * (P * den iv) < v * den iv - below iv).
      { destruct Hpar as [H4|(H2 & a & Ha & b & Hb)]; [nia|].
        rewrite H2 in *. lia. }
      destruct (closed iv); apply andb_false_iff; left;
        first [apply Z.leb_gt|apply Z.ltb_ge]; lia. }
    assert (Hout1 : (if closed iv
                     then (v * den iv - below iv <=? (q + 1) * (P * den iv))
                          && ((q + 1) * (P * den iv) <=? v * den iv + above iv)
                     else (v * den iv - below iv <? (q + 1) * (P * den iv))
                          && ((q + 1) * (P * den iv) <? v * den iv + above iv))
                    = false).
    { assert (Hfar : v * den iv + above iv < (q + 1) * (P * den iv)).
      { destruct Hpar as [H4|(H2 & a & Ha & b & Hb)]; [nia|].
        rewrite H2 in *. lia. }
      destruct (closed iv); apply andb_false_iff; right;
        first [apply Z.leb_gt|apply Z.ltb_ge]; lia. }
    rewrite Hout0, Hout1. reflexivity.
Qed.

Lemma nearest_at_integral k d :
  0 <= k -> nearest_at true iv k = Some d -> d * 10 ^ k = v.
Proof.
  intros Hk. rewrite nearest_at_cases by exact Hk.
  assert (HP : 0 < 10 ^ k) by (apply Z.pow_pos_nonneg; lia).
  pose proof (Z.div_mod v (10 ^ k) ltac:(lia)) as Hqr.
  destruct (Z.eqb_spec (v mod 10 ^ k) 0) as [Hr0|Hr0]; [|discriminate].
  intros H. inversion H. lia.
Qed.

Lemma nearest_at_unit : nearest_at true iv 0 = Some v.
Proof.
  rewrite nearest_at_cases by lia.
  now rewrite Z.pow_0_r, Z.mod_1_r, Z.div_1_r.
Qed.

Hypothesis Hsmall : v < 10 ^ 16.

Lemma digit_count :
  forall j v', 0 <= j -> 1 <= v' < 10 ^ j ->
  exists T, 1 <= T <= j /\ 10 ^ (T - 1) <= v' < 10 ^ T.
Proof.
  intros j v' Hj. revert v'. pattern j. apply natlike_ind; [| |exact Hj].
  - intros v' H. rewrite Z.pow_0_r in H. lia.
  - clear j Hj. intros j Hj IH v' H.
    destruct (Z.lt_ge_cases v' (10 ^ j)) as [Hlt|Hge].
    + destruct (IH v' ltac:(lia)) as (T & HT & Hb). exists T. split; [lia|exact Hb].
    + exists (Z.succ j). replace (Z.succ j - 1) with j by lia. lia.
Qed.

Lemma decpt_from_spec n d T fuel : forall t0,
  t0 <= T -> T - t0 < Z.of_nat fuel ->
  (forall t, t0 <= t < T -> pow10_le t n d = true) ->
  pow10_le T n d = false ->
  decpt_from fuel t0 n d = T.
Proof.
  induction fuel as [|fuel IH]; intros t0 Ht Hfuel Hbelow' Hat; [simpl in Hfuel; lia|].
  cbn [decpt_from]. destruct (Z.eq_dec t0 T) as [->|Hne].
  - now rewrite Hat.
  - rewrite Hbelow' by lia. apply IH; [lia|lia| |exact Hat].
    intros t Ht'. apply Hbelow'. lia.
Qed.

Lemma decimal_point_integral :
  exists T, 1 <= T <= 16 /\ 10 ^ (T - 1) <= v < 10 ^ T /\
            decimal_point (num iv) (den iv) = T.
Proof.
  destruct (digit_count 16 v ltac:(lia) ltac:(lia)) as (T & HT & Hb).
  exists T. split; [exact HT|]. split; [exact Hb|].
  assert (Hdenpos : 0 < den iv) by lia.
  unfold decimal_point. apply decpt_from_spec; try lia.
  - intros t Ht. unfold pow10_le. rewrite Hnum.
    destruct (Z.leb_spec 0 t) as [Hpos|Hneg].
    + apply Z.leb_le. apply Z.mul_le_mono_nonneg_r; [lia|].
      apply Z.le_trans with (10 ^ (T - 1)); [|lia].
      apply Z.pow_le_mono_r; lia.
    + apply Z.leb_le.
      assert (0 < 10 ^ (- t)) by (apply Z.pow_pos_nonneg; lia).
      assert (den iv <= v * den iv) by nia.
      apply Z.le_trans with (v * den iv * 1); [lia|].
      apply Z.mul_le_mono_nonneg_l; lia.
  - unfold pow10_le. rewrite Hnum.
    destruct (Z.leb_spec 0 T); [|lia]. apply Z.leb_gt. nia.
Qed.

Lemma shortest_from_integral T fuel : forall n,
  1 <= n <= T -> T - n < Z.of_nat fuel ->
  exists d k, shortest_from fuel iv T n = (d, k) /\ d * 10 ^ k = v /\ 0 <= k.
Proof.
  induction fuel as [|fuel IH]; intros n Hn Hfuel; [simpl in Hfuel; lia|].
  cbn [shortest_from].
  destruct (nearest_at true iv (T - n)) as [d|] eqn:E.
  - exists d, (T - n). split; [reflexivity|].
    split; [apply nearest_at_integral; [lia|exact E]|lia].
  - assert (Hlt : n < T).
    { destruct (Z.eq_dec n T) as [->|]; [|lia].
      rewrite Z.sub_diag, nearest_at_unit in E. discriminate. }
    apply IH; lia.
Qed.
End IntegralInterval.

Lemma strip_zeros_spec fuel : forall d k,
  0 <= k ->
  exists d' k', strip_zeros fuel d k = (d', k') /\
                d' * 10 ^ k' = d * 10 ^ k /\ 0 <= k'.
Proof.
  induction fuel as [|fuel IH]; intros d k Hk; cbn [strip_zeros].
  - exists d, k. auto.
  - destruct ((d mod 10 =? 0) && (0 <? d)) eqn:E.
    + apply andb_true_iff in E as [Hmod _]. apply Z.eqb_eq in Hmod.
      destruct (IH (d / 10) (k + 1) ltac:(lia)) as (d' & k' & -> & Heq & Hk').
      exists d', k'. split; [reflexivity|]. split; [|exact Hk'].
      rewrite Heq, Z.pow_add_r, Z.pow_1_r by lia.
      pose proof (Z.div_mod d 10 ltac:(lia)). nia.
    + exists d, k. auto.
Qed.

Lemma repr_layout_integral d k :
  1 <= d -> 0 <= k -> d * 10 ^ k < 10 ^ 16 ->
  repr_layout d k = nat_digits (d * 10 ^ k) ++ lit ".0".
Proof.
  intros Hd Hk Hlt. unfold repr_layout.
  pose proof (nat_digits_nonempty d) as Hne.
  assert (Hk16 : k < 16).
  { destruct (Z.lt_ge_cases k 16) as [|Hge]; [assumption|].
    assert (10 ^ 16 <= 10 ^ k) by (apply Z.pow_le_mono_r; lia).
    assert (0 < 10 ^ k) by (apply Z.pow_pos_nonneg; lia). nia. }
  assert (Hlen : len (nat_digits d) <= 16 - k).
  { replace (16 - k) with (Z.of_nat (S (Z.to_nat (15 - k)))) by lia.
    apply nat_digits_len; [lia|].
    replace (Z.of_nat (S (Z.to_nat (15 - k)))) with (16 - k) by lia.
    assert (Hsplit : 10 ^ 16 = 10 ^ (16 - k) * 10 ^ k).
    { rewrite <- Z.pow_add_r by lia. f_equal. lia. }
    assert (0 < 10 ^ k) by (apply Z.pow_pos_nonneg; lia).
    rewrite Hsplit in Hlt. nia. }
  destruct (Z.leb_spec (k + len (nat_digits d)) (-4)); [lia|].
  destruct (Z.ltb_spec 16 (k + len (nat_digits d))); [lia|].
  cbn [orb].
  destruct (Z.leb_spec (k + len (nat_digits d)) 0); [lia|].
  destruct (Z.leb_spec (len (nat_digits d)) (k + len (nat_digits d))); [|lia].
  replace (k + len (nat_digits d) - len (nat_digits d)) with k by lia.
  now rewrite nat_digits_pow10, app_assoc by lia.
Qed.

Lemma digits2_pos_size m : digits2_pos m = Pos.size m.
Proof. induction m as [m IH|m IH|]; simpl; now rewrite ?IH. Qed.

Lemma size_bounds m :
  2 ^ (Z.pos (Pos.size m) - 1) <= Z.pos m < 2 ^ Z.pos (Pos.size m).
Proof.
  pose proof (Pos.size_gt m) as Hgt. pose proof (Pos.size_le m) as Hle.
  assert (Hpow : Z.pos (2 ^ Pos.size m) = 2 ^ Z.pos (Pos.size m))
    by apply Pos2Z.inj_pow.
  assert (Hsplit : 2 ^ Z.pos (Pos.size m) = 2 * 2 ^ (Z.pos (Pos.size m) - 1)).
  { rewrite <- Z.pow_succ_r by lia. f_equal. lia. }
  lia.
Qed.

(** An integer below [10^16] is a normal binary64 number with an exponent
    between -52 and 1; the decimals that read back as it are less than one
    unit away, or one unit away from an even integer. *)
Lemma integral_float_interval s m e :
  valid_float (S754_finite s m e) = true ->
  is_integer (S754_finite s m e) = true ->
  float_magnitude (S754_finite s m e) < 10 ^ 16 ->
  let iv := rounding_interval m e in
  let v := float_magnitude (S754_finite s m e) in
  num iv = v * den iv /\
  (4 <= den iv \/ (den iv = 2 /\ Z.even v = true)) /\
  0 < below iv <= 2 /\ 0 < above iv <= 2 /\ 1 <= v.
Proof.
  unfold valid_float, valid_binary, bounded, canonical_mantissa, fexp, emin.
  rewrite digits2_pos_size. intros Hvalid Hint Hsmall.
  apply andb_true_iff in Hvalid as [Hcanon _]. apply Z.eqb_eq in Hcanon.
  pose proof (size_bounds m) as Hsize.
  set (sz := Z.pos (Pos.size m)) in *.
  cbn [is_integer] in Hint. cbn [float_magnitude] in *.
  assert (Hexp : -52 <= e <= 1 /\ sz = 53 /\
                 (if 0 <=? e then Z.pos m * 2 ^ e else Z.pos m / 2 ^ (- e))
                 * 2 ^ (2 - e) = 4 * Z.pos m).
  { destruct (Z.leb_spec 0 e) as [Hpos|Hneg].
    - assert (Hsz : sz = 53) by lia. rewrite Hsz in Hsize.
      change (2 ^ (53 - 1)) with 4503599627370496 in Hsize.
      assert (He : e <= 1).
      { destruct (Z.le_gt_cases e 1) as [|Hgt]; [assumption|].
        assert (2 ^ 2 <= 2 ^ e) by (apply Z.pow_le_mono_r; lia).
        change (2 ^ 2) with 4 in *. change (10 ^ 16) with 10000000000000000 in *.
        nia. }
      split; [lia|]. split; [exact Hsz|].
      rewrite <- Z.mul_assoc, <- Z.pow_add_r by lia.
      replace (e + (2 - e)) with 2 by lia. change (2 ^ 2) with 4. lia.
    - apply Z.eqb_eq in Hint.
      assert (Hp : 0 < 2 ^ (- e)) by (apply Z.pow_pos_nonneg; lia).
      pose proof (Z.div_mod (Z.pos m) (2 ^ (- e)) ltac:(lia)) as Hdm.
      rewrite Hint, Z.add_0_r in Hdm.
      assert (Hle : 2 ^ (- e) <= Z.pos m).
      { assert (0 < Z.pos m / 2 ^ (- e)) by nia. nia. }
      assert (He : -52 <= e).
      { destruct (Z.le_gt_cases (-52) e) as [|Hgt]; [assumption|].
        assert (2 ^ 53 <= 2 ^ (- e)) by (apply Z.pow_le_mono_r; lia).
        assert (2 ^ sz <= 2 ^ 53) by (apply Z.pow_le_mono_r; lia).
        lia. }
      split; [lia|]. split; [lia|].
      replace (2 - e) with (- e + 2) by lia.
      rewrite Z.pow_add_r by lia. change (2 ^ 2) with 4.
      rewrite Hdm at 2. ring. }
  destruct Hexp as (He & Hsz & Hval).
  unfold rounding_interval. cbn [num den below above closed].
  destruct (Z.leb_spec 2 e) as [|_]; [lia|].
  clear Hint.
  set (v := if 0 <=? e then Z.pos m * 2 ^ e else Z.pos m / 2 ^ (- e)) in *.
  assert (Hv1 : 1 <= v).
  { assert (0 < 2 ^ (2 - e)) by (apply Z.pow_pos_nonneg; lia). nia. }
  split; [lia|]. split; [|split; [|split; [lia|exact Hv1]]].
  - destruct (Z.eq_dec e 1) as [->|Hne].
    + right. split; [reflexivity|].
      unfold v. change (0 <=? 1) with true. cbv iota.
      rewrite Z.even_mul. apply orb_true_r.
    + left. assert (2 ^ 2 <= 2 ^ (2 - e)) by (apply Z.pow_le_mono_r; lia).
      change (2 ^ 2) with 4 in *. lia.
  - destruct ((Z.pos m =? 2 ^ 52) && (-1074 <? e)); lia.
Qed.

Lemma shortest_digits_integral s m e :
  valid_float (S754_finite s m e) = true ->
  is_integer (S754_finite s m e) = true ->
  float_magnitude (S754_finite s m e) < 10 ^ 16 ->
  exists d k,
    shortest_digits m e = (d, k) /\
    d * 10 ^ k = float_magnitude (S754_finite s m e) /\ 0 <= k.
Proof.
  intros Hvalid Hint Hsmall.
  destruct (integral_float_interval s m e Hvalid Hint Hsmall)
    as (Hnum & Hden & Hbelow & Habove & Hv).
  set (v := float_magnitude (S754_finite s m e)) in *.
  set (iv := rounding_interval m e) in *.
  destruct (decimal_point_integral iv v Hnum Hden Hv Hsmall)
    as (T & HT & _ & Hdp).
  destruct (shortest_from_integral iv v Hnum Hden Hbelow Habove T 16 1)
    as (d & k & Hsf & Hdk & Hk); [lia|simpl; lia|].
  unfold shortest_digits. fold iv. rewrite Hdp, Hsf.
  destruct (strip_zeros_spec 20 d k Hk) as (d' & k' & Hsz & Heq & Hk').
  exists d', k'. split; [exact Hsz|]. split; [lia|exact Hk'].
Qed.

(** ** Floats that are integers *)

(** C3, the claim as stated fails: [3.0] is rendered [3.0], not [3]. *)
Lemma integral_float_counterexample : ~ integral_floats_lose_the_point.
Proof.
  intros [Hall H3].
  destruct (Hall dumps_encoder float_3 0 eq_refl eq_refl) as (s & Hs & Hdot).
  vm_compute in H3. discriminate H3.
Qed.

(** C3, amended: a finite float whose value is an integer is rendered by
    [repr]: for a magnitude below [10^16], the sign, the decimal digits of
    the integer and the suffix [.0] (one zero after the point, instead of
    six); in particular [3.0] is rendered [3.0]. *)
Theorem integral_float_keeps_point_zero self x lvl :
  valid_float x = true ->
  is_integer x = true ->
  float_magnitude x < 10 ^ 16 ->
  encode self (Prim (PFloat x)) lvl
  = (lvl, Ok (sign_str (float_sign x) ++ nat_digits (float_magnitude x)
                ++ lit ".0")).
Proof.
  intros Hvalid Hint Hsmall. rewrite encode_float_eq.
  unfold ret, encode_float. rewrite Hint. f_equal. f_equal.
  destruct x as [s|s| |s m e]; try discriminate.
  - reflexivity.
  - destruct (shortest_digits_integral s m e Hvalid Hint Hsmall)
      as (d & k & Hsd & Hdk & Hk).
    destruct (integral_float_interval s m e Hvalid Hint Hsmall)
      as (_ & _ & _ & _ & Hv).
    cbn [float_repr float_sign]. rewrite Hsd. f_equal.
    rewrite <- Hdk in *.
    apply repr_layout_integral; [|exact Hk|exact Hsmall].
    assert (0 < 10 ^ k) by (apply Z.pow_pos_nonneg; lia). nia.
Qed.

Lemma integral_float_keeps_point_zero_witness :
  dumps (Prim (PFloat float_3)) = Ok (lit "3.0") /\
  encode dumps_encoder
    (Prim (PFloat (S754_finite true 4503599627370496 1))) 0
  = (0, Ok (lit "-9007199254740992.0")).
Proof.
  split.
  - unfold dumps.
    rewrite (integral_float_keeps_point_zero dumps_encoder float_3 0);
      [reflexivity|reflexivity|reflexivity|reflexivity].
  - rewrite (integral_float_keeps_point_zero dumps_encoder _ 0);
      [reflexivity|reflexivity|reflexivity|reflexivity].
Defined.

(** ** Reading the text back *)

(** C4, the claim as stated fails: the finite float [0.1234567] is written
    with six decimals, [0.123457], and that text reads back as another
    float. *)
Lemma round_trip_counterexample :
  ~ format_round_trips (fun x => is_finite x && valid_float x).
Proof.
  intros H.
  destruct (H (Prim (PFloat float_0_1234567)) eq_refl)
    as (text & w & Hd & Hl & He).
  vm_compute in Hd. inversion Hd; subst text; clear Hd.
  vm_compute in Hl. inversion Hl; subst w; clear Hl.
  vm_compute in He. discriminate He.
Qed.

(** *** Whitespace and delimiters *)

Lemma skip_ws_app w s : ws_only w -> skip_ws (w ++ s) = skip_ws s.
Proof.
  induction 1 as [|c w Hc _ IH]; simpl; [reflexivity|].
  now rewrite Hc.
Qed.

Lemma skip_ws_solid s : starts_solid s -> skip_ws s = s.
Proof. destruct s as [|c s]; simpl; [tauto|]. now intros [-> _]. Qed.

Lemma starts_solid_app s t : starts_solid s -> starts_solid (s ++ t).
Proof. destruct s; simpl; tauto. Qed.

Lemma ws_only_app a b : ws_only a -> ws_only b -> ws_only (a ++ b).
Proof. intros Ha Hb. apply Forall_app. now split. Qed.

Lemma ws_only_repeat n s : ws_only s -> ws_only (str_repeat n s).
Proof.
  intros Hs. unfold str_repeat.
  induction (Z.to_nat n) as [|k IH]; simpl; [constructor|].
  now apply ws_only_app.
Qed.

Lemma ws_only_nl : ws_only nl.
Proof. repeat constructor. Qed.

Lemma delimited_ws w s : ws_only w -> delimited s -> delimited (w ++ s).
Proof.
  intros Hw Hs. destruct Hw as [|c w Hc _]; [exact Hs|].
  simpl. now left.
Qed.

Lemma delimiter_cases c :
  delimiter c ->
  (c = 32 \/ c = 9 \/ c = 10 \/ c = 13 \/ c = 44 \/ c = 93 \/ c = 125)%N.
Proof.
  unfold delimiter, is_ws. intros [H|H]; [|tauto].
  repeat (apply orb_true_iff in H as [H|H]); apply N.eqb_eq in H; tauto.
Qed.

Ltac by_delimiter H :=
  apply delimiter_cases in H;
  repeat (destruct H as [H|H]); subst; reflexivity.

(** *** Numbers *)

Lemma span_digits_app s rest :
  delimited rest ->
  span_digits (s ++ rest)
  = (fst (span_digits s), snd (span_digits s) ++ rest).
Proof.
  intros Hrest. induction s as [|c s IH].
  - destruct rest as [|d rest]; [reflexivity|].
    cbn [app delimited span_digits fst snd] in *.
    assert (Hd : is_digit d = false) by by_delimiter Hrest.
    now rewrite Hd.
  - change ((c :: s) ++ rest) with (c :: s ++ rest).
    cbn [span_digits]. destruct (is_digit c); [|reflexivity].
    rewrite IH. now destruct (span_digits s).
Qed.

Lemma match_unsigned_app sign s rest i r :
  delimited rest ->
  match_unsigned sign s = Some (i, r) ->
  match_unsigned sign (s ++ rest) = Some (i, r ++ rest).
Proof.
  intros Hrest. unfold match_unsigned.
  destruct s as [|c s]; [discriminate|].
  change ((c :: s) ++ rest) with (c :: s ++ rest). cbv iota.
  destruct (c =? 48)%N.
  - intros H. now inversion H.
  - destruct (is_digit c) eqn:Hd; [|discriminate].
    change (c :: s ++ rest) with ((c :: s) ++ rest).
    rewrite (span_digits_app (c :: s) rest Hrest).
    destruct (span_digits (c :: s)) as [ds r0]. cbn [fst snd].
    intros H. now inversion H.
Qed.

Lemma match_integer_app s rest i r :
  delimited rest ->
  match_integer s = Some (i, r) ->
  match_integer (s ++ rest) = Some (i, r ++ rest).
Proof.
  intros Hrest. unfold match_integer.
  destruct s as [|c s]; [discriminate|].
  change ((c :: s) ++ rest) with (c :: s ++ rest). cbv iota.
  destruct (c =? 45)%N.
  - now apply match_unsigned_app.
  - change (c :: s ++ rest) with ((c :: s) ++ rest).
    now apply match_unsigned_app.
Qed.

Lemma match_frac_app s rest :
  delimited rest ->
  match_frac (s ++ rest)
  = (fst (match_frac s), snd (match_frac s) ++ rest).
Proof.
  intros Hrest. unfold match_frac. destruct s as [|c s].
  - destruct rest as [|d rest]; [reflexivity|]. cbn [app delimited] in *.
    assert (Hd : (d =? 46)%N = false) by by_delimiter Hrest.
    now rewrite Hd.
  - change ((c :: s) ++ rest) with (c :: s ++ rest). cbv iota.
    destruct (c =? 46)%N; [|reflexivity].
    rewrite (span_digits_app s rest Hrest).
    destruct (span_digits s) as [[|f fs] r]; reflexivity.
Qed.

Lemma match_sign_app s rest :
  delimited rest ->
  match_sign (s ++ rest)
  = (fst (match_sign s), snd (match_sign s) ++ rest).
Proof.
  intros Hrest. unfold match_sign. destruct s as [|d s].
  - destruct rest as [|d rest]; [reflexivity|]. cbn [app delimited] in *.
    assert (Hd : ((d =? 43) || (d =? 45))%N = false) by by_delimiter Hrest.
    now rewrite Hd.
  - change ((d :: s) ++ rest) with (d :: s ++ rest). cbv iota.
    destruct ((d =? 43) || (d =? 45))%N; reflexivity.
Qed.

Lemma match_exp_app s rest :
  delimited rest ->
  match_exp (s ++ rest) = (fst (match_exp s), snd (match_exp s) ++ rest).
Proof.
  intros Hrest. unfold match_exp. destruct s as [|c s].
  - destruct rest as [|d rest]; [reflexivity|]. cbn [app delimited] in *.
    assert (Hd : ((d =? 101) || (d =? 69))%N = false) by by_delimiter Hrest.
    now rewrite Hd.
  - change ((c :: s) ++ rest) with (c :: s ++ rest). cbv iota.
    destruct ((c =? 101) || (c =? 69))%N; [|reflexivity].
    rewrite (match_sign_app s rest Hrest).
    destruct (match_sign s) as [sg s2]. cbn [fst snd].
    rewrite (span_digits_app s2 rest Hrest).
    destruct (span_digits s2) as [[|f fs] r]; reflexivity.
Qed.

(** A number that fills a text is found again, whole, in front of a
    delimiter. *)
Lemma match_number_app s rest integer frac exp :
  delimited rest ->
  match_number s = Some (integer, frac, exp, []) ->
  match_number (s ++ rest) = Some (integer, frac, exp, rest).
Proof.
  intros Hrest. unfold match_number.
  destruct (match_integer s) as [[i r]|] eqn:Hi; [|discriminate].
  rewrite (match_integer_app s rest i r Hrest Hi).
  rewrite (match_frac_app r rest Hrest).
  destruct (match_frac r) as [f r1]. cbn [fst snd].
  rewrite (match_exp_app r1 rest Hrest).
  destruct (match_exp r1) as [e r2]. cbn [fst snd].
  intros H. inversion H; subst. reflexivity.
Qed.

(** *** Integers *)

Lemma digit_char_digit d :
  0 <= d < 10 ->
  is_digit (digit_char d) = true /\ Z.of_N (digit_char d) - 48 = d /\
  (d <> 0 -> (digit_char d =? 48)%N = false) /\
  (digit_char d =? 45)%N = false.
Proof.
  intros Hd. unfold is_digit, digit_char. repeat split.
  - apply andb_true_iff. split; apply N.leb_le; lia.
  - lia.
  - intros Hne. apply N.eqb_neq. lia.
  - apply N.eqb_neq. lia.
Qed.

Lemma nat_digits_is_digit n : Forall (fun c => is_digit c = true) (nat_digits n).
Proof.
  assert (H : forall fuel n acc,
             Forall (fun c => is_digit c = true) acc ->
             Forall (fun c => is_digit c = true) (digits_fuel fuel n acc)).
  { induction fuel as [|fuel IH]; intros k acc Hacc; simpl; [exact Hacc|].
    assert (Hd : is_digit (digit_char (k mod 10)) = true).
    { apply digit_char_digit, Z.mod_pos_bound. lia. }
    destruct (k <? 10); [now constructor|]. apply IH. now constructor. }
  apply H. constructor.
Qed.

Lemma span_digits_all ds :
  Forall (fun c => is_digit c = true) ds -> span_digits ds = (ds, []).
Proof.
  induction 1 as [|c ds Hc _ IH]; simpl; [reflexivity|].
  now rewrite Hc, IH.
Qed.

Lemma digits_value_app ds c :
  digits_value (ds ++ [c]) = 10 * digits_value ds + (Z.of_N c - 48).
Proof. unfold digits_value. now rewrite fold_left_app. Qed.

Lemma digits_value_nat_digits n : 0 <= n -> digits_value (nat_digits n) = n.
Proof.
  revert n. apply (Zlt_0_ind (fun n => digits_value (nat_digits n) = n)).
  intros n IH Hn. rewrite nat_digits_eq by exact Hn.
  destruct (Z.ltb_spec n 10) as [Hlt|Hge].
  - unfold digits_value. simpl.
    destruct (digit_char_digit n ltac:(lia)) as (_ & -> & _). reflexivity.
  - rewrite digits_value_app, IH.
    + destruct (digit_char_digit (n mod 10)) as (_ & -> & _).
      * apply Z.mod_pos_bound. lia.
      * pose proof (Z.div_mod n 10 ltac:(lia)). lia.
    + split; [apply Z.div_pos; lia|apply Z.div_lt; lia].
Qed.

(** The first digit of a positive integer is not 0. *)
Lemma nat_digits_head n :
  1 <= n ->
  exists c t, nat_digits n = c :: t /\ (c =? 48)%N = false /\
              is_digit c = true /\ (c =? 45)%N = false.
Proof.
  intros Hn. assert (H0 : 0 <= n) by lia. revert n H0 Hn.
  apply (Zlt_0_ind (fun n => 1 <= n -> exists c t, nat_digits n = c :: t /\
           (c =? 48)%N = false /\ is_digit c = true /\ (c =? 45)%N = false)).
  intros n IH Hn H1. rewrite nat_digits_eq by exact Hn.
  destruct (Z.ltb_spec n 10) as [Hlt|Hge].
  - exists (digit_char n), [].
    destruct (digit_char_digit n ltac:(lia)) as (Hd & _ & Hz & Hm).
    split; [reflexivity|]. split; [apply Hz; lia|]. split; assumption.
  - destruct (IH (n / 10)) as (c & t & Heq & Hc).
    + split; [apply Z.div_pos; lia|apply Z.div_lt; lia].
    + apply Z.div_le_lower_bound; lia.
    + rewrite Heq. exists c, (t ++ [digit_char (n mod 10)]).
      split; [reflexivity|exact Hc].
Qed.

Lemma match_unsigned_nat_digits sign n :
  0 <= n ->
  match_unsigned sign (nat_digits n) = Some (sign ++ nat_digits n, []).
Proof.
  intros Hn. destruct (Z.eq_dec n 0) as [->|Hne]; [reflexivity|].
  destruct (nat_digits_head n ltac:(lia)) as (c & t & Heq & Hz & Hd & _).
  pose proof (span_digits_all _ (nat_digits_is_digit n)) as Hspan.
  unfold match_unsigned. rewrite Heq in *. now rewrite Hz, Hd, Hspan.
Qed.

Lemma match_number_int_repr n :
  match_number (int_repr n) = Some (int_repr n, [], [], []).
Proof.
  unfold match_number, int_repr.
  destruct (Z.ltb_spec n 0) as [Hneg|Hpos].
  - change (lit "-" ++ nat_digits (- n)) with (45%N :: nat_digits (- n)).
    unfold match_integer. change (45 =? 45)%N with true. cbv iota.
    now rewrite match_unsigned_nat_digits by lia.
  - assert (Hi : match_integer (nat_digits n) = Some (nat_digits n, [])).
    { destruct (Z.eq_dec n 0) as [->|Hne]; [reflexivity|].
      destruct (nat_digits_head n ltac:(lia)) as (c & t & Heq & _ & _ & Hm).
      unfold match_integer. rewrite Heq, Hm, <- Heq.
      now apply match_unsigned_nat_digits. }
    now rewrite Hi.
Qed.

Lemma parse_int_int_repr n : parse_int (int_repr n) = n.
Proof.
  unfold int_repr. destruct (Z.ltb_spec n 0) as [Hneg|Hpos].
  - change (lit "-" ++ nat_digits (- n)) with (45%N :: nat_digits (- n)).
    unfold parse_int. change (45 =? 45)%N with true. cbv iota.
    rewrite digits_value_nat_digits; lia.
  - destruct (Z.eq_dec n 0) as [->|Hne]; [reflexivity|].
    destruct (nat_digits_head n ltac:(lia)) as (c & t & Heq & _ & _ & Hm).
    unfold parse_int. rewrite Heq, Hm, <- Heq.
    now apply digits_value_nat_digits.
Qed.

(** *** Strings *)

Lemma below_32 (P : N -> Prop) :
  (forall c, In c (map N.of_nat (seq 0 32)) -> P c) ->
  forall c, (c < 32)%N -> P c.
Proof.
  intros H c Hc. apply H. apply in_map_iff. exists (N.to_nat c).
  split; [lia|]. apply in_seq. lia.
Qed.

Lemma decode_hex4 c :
  (c < 32)%N ->
  decode_uXXXX (hex_char (N.land (N.shiftr c 12) 15))
               (hex_char (N.land (N.shiftr c 8) 15))
               (hex_char (N.land (N.shiftr c 4) 15))
               (hex_char (N.land c 15)) = Some c.
Proof.
  revert c. apply below_32.
  assert (H : forallb
                (fun c =>
                   match decode_uXXXX (hex_char (N.land (N.shiftr c 12) 15))
                                      (hex_char (N.land (N.shiftr c 8) 15))
                                      (hex_char (N.land (N.shiftr c 4) 15))
                                      (hex_char (N.land c 15)) with
                   | Some u => (u =? c)%N
                   | None => false
                   end) (map N.of_nat (seq 0 32)) = true) by (vm_compute; reflexivity).
  intros c Hc. rewrite forallb_forall in H. specialize (H c Hc).
  destruct (decode_uXXXX _ _ _ _) as [u|]; [|discriminate].
  apply N.eqb_eq in H. now subst.
Qed.

Lemma scanstring_u h1 h2 h3 h4 uni more :
  decode_uXXXX h1 h2 h3 h4 = Some uni ->
  (uni < 55296)%N ->
  scanstring (92 :: 117 :: h1 :: h2 :: h3 :: h4 :: more)%N
  = match scanstring more with
    | Some (t, r) => Some (uni :: t, r)
    | None => None
    end.
Proof.
  intros Hdec Huni. cbn [scanstring].
  change (92 =? 34)%N with false. change (92 <? 32)%N with false.
  change (92 =? 92)%N with true. change (117 =? 117)%N with true.
  cbv iota. rewrite Hdec.
  assert (Hlo : (55296 <=? uni)%N = false) by (apply N.leb_gt; exact Huni).
  rewrite Hlo. reflexivity.
Qed.

Lemma scanstring_escape c more :
  scanstring (escape c ++ more)
  = match scanstring more with
    | Some (t, r) => Some (c :: t, r)
    | None => None
    end.
Proof.
  unfold escape, ESCAPE_DCT.
  destruct (N.eqb_spec c 92) as [->|H92]; [reflexivity|].
  destruct (N.eqb_spec c 34) as [->|H34]; [reflexivity|].
  destruct (N.eqb_spec c 8) as [->|H8]; [reflexivity|].
  destruct (N.eqb_spec c 12) as [->|H12]; [reflexivity|].
  destruct (N.eqb_spec c 10) as [->|H10]; [reflexivity|].
  destruct (N.eqb_spec c 13) as [->|H13]; [reflexivity|].
  destruct (N.eqb_spec c 9) as [->|H9]; [reflexivity|].
  destruct (N.ltb_spec c 32) as [Hlt|Hge].
  - unfold hex4. cbn [app].
    apply scanstring_u; [now apply decode_hex4|lia].
  - cbn [app scanstring].
    apply N.eqb_neq in H34, H92. rewrite H34, H92.
    assert (Hc : (c <? 32)%N = false) by (apply N.ltb_ge; exact Hge).
    now rewrite Hc.
Qed.

Lemma scanstring_basestring s rest :
  scanstring (flat_map escape s ++ 34%N :: rest) = Some (s, rest).
Proof.
  induction s as [|c s IH]; [reflexivity|].
  cbn [flat_map]. rewrite <- app_assoc, scanstring_escape, IH. reflexivity.
Qed.

Lemma encode_basestring_eq s :
  encode_basestring s = 34%N :: flat_map escape s ++ [34%N].
Proof. reflexivity. Qed.

(** *** Scalars *)

Lemma float_eqb_eq x y : float_eqb x y = true -> x = y.
Proof.
  destruct x as [s|s| |s m e], y as [t|t| |t n f]; simpl; try discriminate;
    try reflexivity.
  - intros H. apply Bool.eqb_prop in H. now subst.
  - intros H. apply Bool.eqb_prop in H. now subst.
  - intros H. apply andb_true_iff in H as [H He].
    apply andb_true_iff in H as [Hs Hm].
    apply Bool.eqb_prop in Hs. apply Pos.eqb_eq in Hm. apply Z.eqb_eq in He.
    now subst.
Qed.

Lemma match_number_head text x :
  match_number text = Some x ->
  exists c t, text = c :: t /\ (c = 45%N \/ is_digit c = true).
Proof.
  unfold match_number, match_integer.
  destruct text as [|c t]; [discriminate|]. intros H. exists c, t.
  split; [reflexivity|].
  destruct (N.eqb_spec c 45) as [->|Hne]; [now left|right].
  unfold match_unsigned in H.
  destruct (N.eqb_spec c 48) as [->|Hz]; [reflexivity|].
  destruct (is_digit c); [reflexivity|discriminate].
Qed.

Lemma number_char c :
  c = 45%N \/ is_digit c = true ->
  (c =? 34)%N = false /\ (c =? 123)%N = false /\ (c =? 91)%N = false /\
  (110 =? c)%N = false /\ (116 =? c)%N = false /\ (102 =? c)%N = false /\
  is_ws c = false /\ (c =? 93)%N = false.
Proof.
  intros H.
  assert (Hc : (c = 45 \/ 48 <= c <= 57)%N).
  { destruct H as [->|H]; [now left|right]. unfold is_digit in H.
    apply andb_true_iff in H as [H1 H2].
    apply N.leb_le in H1, H2. lia. }
  unfold is_ws.
  repeat split; try (apply N.eqb_neq; lia).
  repeat (apply orb_false_iff; split); apply N.eqb_neq; lia.
Qed.

Lemma number_solid c : c = 45%N \/ is_digit c = true -> starts_solid [c].
Proof. intros H. simpl. apply number_char in H. tauto. Qed.

Lemma scan_once_number fuel text rest integer frac exp :
  match_number text = Some (integer, frac, exp, []) ->
  delimited rest ->
  scan_once (S fuel) (text ++ rest)
  = Some (Prim (match frac, exp with
                | [], [] => PInt (parse_int integer)
                | _, _ => PFloat (parse_float integer frac exp)
                end), rest).
Proof.
  intros Hnum Hrest.
  pose proof (match_number_app text rest _ _ _ Hrest Hnum) as Happ.
  destruct (match_number_head _ _ Hnum) as (c & t & -> & Hc).
  destruct (number_char c Hc) as (H1 & H2 & H3 & H4 & H5 & H6 & _ & _).
  change ((c :: t) ++ rest) with (c :: (t ++ rest)) in *.
  set (s := t ++ rest) in *.
  cbn [scan_once]. rewrite H1, H2, H3.
  change (lit "null") with [110; 117; 108; 108]%N.
  change (lit "true") with [116; 114; 117; 101]%N.
  change (lit "false") with [102; 97; 108; 115; 101]%N.
  cbn [starts_with]. rewrite H4, H5, H6, Happ.
  destruct frac, exp; reflexivity.
Qed.

Lemma parses_number text integer frac exp :
  match_number text = Some (integer, frac, exp, []) ->
  parses text (Prim (match frac, exp with
                     | [], [] => PInt (parse_int integer)
                     | _, _ => PFloat (parse_float integer frac exp)
                     end)).
Proof.
  intros Hnum. split.
  - destruct (match_number_head _ _ Hnum) as (c & t & -> & Hc).
    apply (number_solid c Hc).
  - intros [|fuel] rest Hrest Hfuel; [lia|].
    now apply scan_once_number.
Qed.

Lemma parses_string s : parses (encode_basestring s) (Prim (PStr s)).
Proof.
  split; [split; reflexivity|].
  intros [|fuel] rest Hrest Hfuel; [lia|].
  rewrite encode_basestring_eq.
  change ((34%N :: flat_map escape s ++ [34%N]) ++ rest)
    with (34%N :: ((flat_map escape s ++ [34%N]) ++ rest)).
  rewrite <- app_assoc. cbn [scan_once app].
  change (34 =? 34)%N with true. cbv iota.
  now rewrite scanstring_basestring.
Qed.

Lemma parses_literal word w :
  (word = lit "null" /\ w = Prim PNone) \/
  (word = lit "true" /\ w = Prim (PBool true)) \/
  (word = lit "false" /\ w = Prim (PBool false)) ->
  parses word w.
Proof.
  intros [[-> ->]|[[-> ->]|[-> ->]]]; (split; [split; reflexivity|]);
    intros [|fuel] rest Hrest Hfuel; try lia; reflexivity.
Qed.

(** The text of a scalar reads back as the scalar. *)
Lemma parses_prim p lvl :
  json_tree float_reads_back (Prim p) = true ->
  exists text,
    encode dumps_encoder (Prim p) lvl = (lvl, Ok text) /\
    parses text (Prim p).
Proof.
  destruct p as [|b|n|x|s|]; cbn [json_tree]; intros Hok; try discriminate.
  - exists (lit "null"). split; [reflexivity|]. apply parses_literal. auto.
  - exists (lit (if b then "true" else "false")). split; [reflexivity|].
    apply parses_literal. destruct b; auto.
  - exists (int_repr n). split; [reflexivity|].
    pose proof (parses_number _ _ _ _ (match_number_int_repr n)) as H.
    cbv iota in H. now rewrite parse_int_int_repr in H.
  - exists (encode_float x). split; [reflexivity|].
    unfold float_reads_back in Hok.
    destruct (match_number (encode_float x)) as [[[[i f] e] [|? ?]]|] eqn:Hnum;
      try discriminate.
    apply andb_true_iff in Hok as [Hfe Heq].
    apply float_eqb_eq in Heq.
    pose proof (parses_number _ _ _ _ Hnum) as H.
    destruct f, e; try discriminate Hfe; now rewrite Heq in H.
  - exists (encode_basestring s). split; [reflexivity|]. apply parses_string.
Qed.

(** *** Lists *)

Lemma delimited_after_ws w c s :
  ws_only w -> delimiter c -> delimited (w ++ c :: s).
Proof. intros Hw Hc. now apply delimited_ws. Qed.

Lemma starts_solid_join sep p parts :
  starts_solid p -> starts_solid (join sep (p :: parts)).
Proof.
  intros Hp. cbn [join]. destruct parts; [exact Hp|].
  now apply starts_solid_app.
Qed.

Lemma starts_solid_head s :
  starts_solid s ->
  exists c t, s = c :: t /\ is_ws c = false /\ (c =? 93)%N = false.
Proof. destruct s as [|c t]; simpl; [tauto|]. eauto. Qed.

Ltac list_len :=
  repeat (progress (rewrite ?length_app in *; cbn [List.length] in *)); lia.

Section ArrayLoop.
Variables w1 w2 post : pystr.
Hypothesis Hw1 : ws_only w1.
Hypothesis Hw2 : ws_only w2.
Hypothesis Hpost : ws_only post.

Local Abbreviation sep := (w1 ++ 44%N :: w2).

Lemma JSONArray_members parts vals :
  Forall2 parses parts vals ->
  parts <> [] ->
  forall fuel acc rest,
    (2 * List.length (join sep parts ++ post ++ 93%N :: rest) + 1 < fuel)%nat ->
    JSONArray fuel (join sep parts ++ post ++ 93%N :: rest) acc
    = Some (PList (acc ++ vals), rest).
Proof.
  induction 1 as [|p v parts vals Hp Hparts IH]; [contradiction|].
  intros _ [|fuel] acc rest Hfuel; [lia|].
  destruct Hp as [Hsolid Hscan].
  destruct parts as [|q parts].
  - inversion Hparts; subst. cbn [join] in *. cbn [JSONArray].
    rewrite Hscan; [|apply delimited_after_ws; [exact Hpost|unfold delimiter; tauto]|list_len].
    rewrite skip_ws_app by exact Hpost. cbn [skip_ws].
    change (is_ws 93) with false. cbv iota.
    change (93 =? 93)%N with true. reflexivity.
  - inversion Hparts as [|? w ? vals' Hq Hrestparts]; subst.
    change (join sep (p :: q :: parts))
      with (p ++ sep ++ join sep (q :: parts)) in *.
    rewrite <- !app_assoc in *. cbn [app] in *.
    cbn [JSONArray].
    rewrite Hscan; [|apply delimited_after_ws; [exact Hw1|unfold delimiter; tauto]|list_len].
    rewrite skip_ws_app by exact Hw1. cbn [skip_ws].
    change (is_ws 44) with false. cbv iota.
    change (44 =? 93)%N with false. change (44 =? 44)%N with true. cbv iota.
    rewrite skip_ws_app by exact Hw2.
    rewrite skip_ws_solid.
    + rewrite IH; [now rewrite <- app_assoc|discriminate|].
      list_len.
    + apply starts_solid_app, starts_solid_join, Hq.
Qed.
End ArrayLoop.

Lemma scan_once_array fuel s rest vals :
  (forall c t, skip_ws s = c :: t ->
               ((c =? 93)%N = true /\ t = rest /\ vals = []) \/
               ((c =? 93)%N = false /\
                JSONArray fuel (c :: t) [] = Some (PList vals, rest))) ->
  skip_ws s <> [] ->
  scan_once (S fuel) (91%N :: s) = Some (PList vals, rest).
Proof.
  intros H Hne. cbn [scan_once].
  change (91 =? 34)%N with false. change (91 =? 123)%N with false.
  change (91 =? 91)%N with true. cbv iota.
  destruct (skip_ws s) as [|c t]; [contradiction|].
  destruct (H c t eq_refl) as [(-> & -> & ->)|(-> & ->)]; reflexivity.
Qed.

Lemma parses_inline parts vals :
  Forall2 parses parts vals -> parses (inline_text parts) (PList vals).
Proof.
  intros Hparts. split; [split; reflexivity|].
  intros [|fuel] rest Hrest Hfuel; [lia|].
  unfold inline_text in *.
  change (lit "[" ++ join (lit ", ") parts ++ lit "]")
    with (91%N :: (join (lit ", ") parts ++ [93%N])) in *.
  change ((91%N :: (join (lit ", ") parts ++ [93%N])) ++ rest)
    with (91%N :: ((join (lit ", ") parts ++ [93%N]) ++ rest)) in *.
  rewrite <- app_assoc in *. cbn [app] in *.
  apply scan_once_array.
  - destruct Hparts as [|p v parts vals Hp Hparts].
    + cbn [join app skip_ws]. change (is_ws 93) with false. cbv iota.
      intros c t Heq. inversion Heq; subst. left. auto.
    + assert (Hsolid : starts_solid (join (lit ", ") (p :: parts)
                                       ++ 93%N :: rest)).
      { apply starts_solid_app, starts_solid_join, Hp. }
      rewrite (skip_ws_solid _ Hsolid).
      intros c t Heq. right.
      destruct (starts_solid_head _ Hsolid) as (c' & t' & Heq' & _ & Hc).
      rewrite Heq in Heq'. inversion Heq'; subst c' t'. split; [exact Hc|].
      rewrite <- Heq.
      change (join (lit ", ") (p :: parts) ++ 93%N :: rest)
        with (join ([] ++ 44%N :: lit " ") (p :: parts) ++ [] ++ 93%N :: rest)
        in *.
      change (PList (v :: vals)) with (PList ([] ++ v :: vals)).
      apply (JSONArray_members [] (lit " ") []);
        [constructor|repeat constructor|constructor|now constructor
        |discriminate|list_len].
  - destruct Hparts as [|p v parts vals Hp Hparts].
    + discriminate.
    + rewrite skip_ws_solid.
      * destruct p as [|c p]; [destruct Hp as [[] _]|].
        cbn [join]. destruct parts; discriminate.
      * apply starts_solid_app, starts_solid_join, Hp.
Qed.

Lemma join_lines ind outs o :
  join (lit "," ++ nl) (map (fun out => ind ++ out) (o :: outs))
  = ind ++ join ([] ++ 44%N :: (nl ++ ind)) (o :: outs).
Proof.
  revert o. induction outs as [|o' outs IH]; intros o; [reflexivity|].
  change (map (fun out => ind ++ out) (o :: o' :: outs))
    with ((ind ++ o) :: map (fun out => ind ++ out) (o' :: outs)).
  change (join (lit "," ++ nl) ((ind ++ o)
            :: map (fun out => ind ++ out) (o' :: outs)))
    with ((ind ++ o) ++ (lit "," ++ nl)
            ++ join (lit "," ++ nl) (map (fun out => ind ++ out) (o' :: outs))).
  rewrite IH.
  change (join ([] ++ 44%N :: (nl ++ ind)) (o :: o' :: outs))
    with (o ++ ([] ++ 44%N :: (nl ++ ind))
            ++ join ([] ++ 44%N :: (nl ++ ind)) (o' :: outs)).
  rewrite <- !app_assoc. reflexivity.
Qed.

Lemma parses_expanded ind lvl outs vals :
  ws_only ind ->
  Forall2 parses outs vals ->
  parses (expanded_text (lit "[") (lit "]") ind lvl
            (map (fun out => str_repeat (lvl + 1) ind ++ out) outs))
         (PList vals).
Proof.
  intros Hind Houts. split; [split; reflexivity|].
  intros [|fuel] rest Hrest Hfuel; [lia|].
  unfold expanded_text in *.
  set (ind1 := str_repeat (lvl + 1) ind) in *.
  set (ind0 := str_repeat lvl ind) in *.
  assert (Hind1 : ws_only ind1) by now apply ws_only_repeat.
  assert (Hind0 : ws_only ind0) by now apply ws_only_repeat.
  assert (Htext :
    (lit "[" ++ nl ++ join (lit "," ++ nl) (map (fun out => ind1 ++ out) outs)
       ++ nl ++ ind0 ++ lit "]") ++ rest
    = 91%N :: ((nl ++ match outs with
                      | [] => []
                      | o :: outs' =>
                          ind1 ++ join ([] ++ 44%N :: (nl ++ ind1)) outs
                      end)
               ++ (nl ++ ind0) ++ 93%N :: rest)).
  { destruct outs as [|o outs'].
    - cbn [map join]. rewrite <- !app_assoc. reflexivity.
    - rewrite join_lines, <- !app_assoc. reflexivity. }
  rewrite Htext in *. clear Htext.
  destruct Houts as [|o v outs vals Ho Houts].
  - assert (Hskip : skip_ws ((nl ++ []) ++ (nl ++ ind0) ++ 93%N :: rest)
                    = 93%N :: rest).
    { rewrite skip_ws_app by (repeat constructor).
      rewrite skip_ws_app by (apply ws_only_app; [apply ws_only_nl|exact Hind0]).
      reflexivity. }
    apply scan_once_array.
    + rewrite Hskip. intros c t Heq. inversion Heq; subst. left. auto.
    + rewrite Hskip. discriminate.
  - set (body := join ([] ++ 44%N :: (nl ++ ind1)) (o :: outs)) in *.
    assert (Hsolid : starts_solid (body ++ (nl ++ ind0) ++ 93%N :: rest)).
    { apply starts_solid_app, starts_solid_join, Ho. }
    assert (Hskip : skip_ws ((nl ++ ind1 ++ body) ++ (nl ++ ind0) ++ 93%N :: rest)
                    = body ++ (nl ++ ind0) ++ 93%N :: rest).
    { rewrite <- !app_assoc, (app_assoc nl ind1).
      rewrite skip_ws_app by (apply ws_only_app; [apply ws_only_nl|exact Hind1]).
      now apply skip_ws_solid. }
    apply scan_once_array.
    + rewrite Hskip. intros c t Heq. right.
      destruct (starts_solid_head _ Hsolid) as (c' & t' & Heq' & _ & Hc).
      rewrite Heq in Heq'. inversion Heq'; subst c' t'. split; [exact Hc|].
      rewrite <- Heq. unfold body.
      change (PList (v :: vals)) with (PList ([] ++ v :: vals)).
      apply (JSONArray_members [] (nl ++ ind1) (nl ++ ind0));
        [constructor|apply ws_only_app; [apply ws_only_nl|exact Hind1]
        |apply ws_only_app; [apply ws_only_nl|exact Hind0]
        |now constructor|discriminate|].
      fold body. list_len.
    + rewrite Hskip.
      destruct (starts_solid_head _ Hsolid) as (c' & t' & -> & _).
      discriminate.
Qed.

(** *** Objects *)

Lemma delimited_members_tail w2 kos post c s :
  ws_only post -> delimiter c ->
  delimited (members_tail w2 kos ++ post ++ c :: s).
Proof.
  intros Hpost Hc. destruct kos as [|ko kos].
  - now apply delimited_after_ws.
  - simpl. unfold delimiter. tauto.
Qed.

Lemma JSONObject_step fuel k out v X acc :
  parses out v ->
  delimited X ->
  (2 * List.length (out ++ X) < fuel)%nat ->
  JSONObject (S fuel) (member_text k out ++ X) acc
  = match skip_ws X with
    | d :: r3 =>
        if (d =? 125)%N then
          Some (PDict (str_items (dict_of_items (acc ++ [(k, v)]))), r3)
        else if (d =? 44)%N then
          match skip_ws r3 with
          | q :: r4 =>
              if (q =? 34)%N then JSONObject fuel r4 (acc ++ [(k, v)])
              else None
          | [] => None
          end
        else None
    | [] => None
    end.
Proof.
  intros [Hsolid Hscan] HX Hfuel.
  unfold member_text. rewrite <- app_assoc. cbn [app JSONObject].
  rewrite scanstring_basestring.
  change (skip_ws ((lit ": " ++ out) ++ X))
    with (58%N :: 32%N :: (out ++ X)).
  cbv iota. change (58 =? 58)%N with true. cbv iota.
  change (skip_ws (32%N :: (out ++ X))) with (skip_ws (out ++ X)).
  rewrite skip_ws_solid by now apply starts_solid_app.
  now rewrite Hscan.
Qed.

Section ObjectLoop.
Variables w2 post : pystr.
Hypothesis Hw2 : ws_only w2.
Hypothesis Hpost : ws_only post.

Lemma JSONObject_members kos vals :
  Forall2 (fun ko v => parses (snd ko) v) kos vals ->
  forall k out v fuel acc rest,
    parses out v ->
    (2 * List.length (member_text k out ++ members_tail w2 kos
                        ++ post ++ 125%N :: rest) + 3 < fuel)%nat ->
    JSONObject fuel (member_text k out ++ members_tail w2 kos
                       ++ post ++ 125%N :: rest) acc
    = Some (PDict (str_items
                     (dict_of_items
                        (acc ++ (k, v) :: combine (map fst kos) vals))),
            rest).
Proof.
  induction 1 as [|ko v' kos vals Hko Hkos IH];
    intros k out v [|fuel] acc rest Hout Hfuel; try lia.
  - cbn [members_tail map combine app] in *.
    rewrite (JSONObject_step fuel k out v _ acc Hout);
      [|apply delimited_after_ws; [exact Hpost|unfold delimiter; tauto]
       |unfold member_text in Hfuel; list_len].
    rewrite skip_ws_app by exact Hpost.
    reflexivity.
  - cbn [members_tail map combine] in *.
    set (next := member_text (fst ko) (snd ko) ++ members_tail w2 kos
                   ++ post ++ 125%N :: rest) in *.
    replace ((44%N :: w2 ++ 34%N :: member_text (fst ko) (snd ko)
                ++ members_tail w2 kos) ++ post ++ 125%N :: rest)
      with (44%N :: w2 ++ 34%N :: next) in *
      by (unfold next;
          repeat (progress (rewrite <- ?app_assoc; cbn [app]));
          reflexivity).
    rewrite (JSONObject_step fuel k out v _ acc Hout);
      [|simpl; unfold delimiter; tauto
       |unfold member_text in Hfuel; list_len].
    change (skip_ws (44%N :: w2 ++ 34%N :: next))
      with (44%N :: w2 ++ 34%N :: next).
    cbv iota. change (44 =? 125)%N with false. change (44 =? 44)%N with true.
    cbv iota. rewrite skip_ws_app by exact Hw2.
    change (skip_ws (34%N :: next)) with (34%N :: next).
    cbv iota. change (34 =? 34)%N with true. cbv iota.
    unfold next. destruct ko as [k' out']. cbn [fst snd] in *.
    rewrite (IH k' out' v' fuel (acc ++ [(k, v)]) rest Hko).
    + now rewrite <- app_assoc.
    + fold next. unfold member_text in Hfuel. list_len.
Qed.
End ObjectLoop.

Lemma join_cons2 {A : Type} sep p (f : A -> pystr) x l :
  join sep (p :: map f (x :: l)) = p ++ sep ++ join sep (map f (x :: l)).
Proof. reflexivity. Qed.

Lemma join_members ind1 (ko : pystr * pystr) kos :
  join (lit "," ++ nl)
       (map (fun ko : pystr * pystr =>
               ind1 ++ encode_basestring (fst ko) ++ lit ": " ++ snd ko)
            (ko :: kos))
  = ind1 ++ 34%N :: member_text (fst ko) (snd ko)
      ++ members_tail (nl ++ ind1) kos.
Proof.
  revert ko. induction kos as [|ko' kos IH]; intros ko.
  - cbn [map join members_tail]. rewrite app_nil_r.
    unfold member_text. rewrite encode_basestring_eq.
    repeat (progress (rewrite <- ?app_assoc; cbn [app])). reflexivity.
  - rewrite map_cons, join_cons2, IH. cbn [members_tail].
    unfold member_text. rewrite !encode_basestring_eq.
    change (lit "," ++ nl) with [44%N; 10%N]. unfold nl.
    repeat (progress (rewrite <- ?app_assoc; cbn [app])). reflexivity.
Qed.

Lemma parses_object ind lvl (kos : list (pystr * pystr)) vals :
  ws_only ind ->
  kos <> [] ->
  Forall2 (fun ko v => parses (snd ko) v) kos vals ->
  parses (expanded_text (lit "{") (lit "}") ind lvl
            (map (fun ko : pystr * pystr =>
                    str_repeat (lvl + 1) ind
                    ++ encode_basestring (fst ko) ++ lit ": " ++ snd ko)
                 kos))
         (PDict (str_items (dict_of_items (combine (map fst kos) vals)))).
Proof.
  intros Hind Hne Hkos. split; [split; reflexivity|].
  intros [|fuel] rest Hrest Hfuel; [lia|].
  destruct Hkos as [|ko v kos vals Hko Hkos]; [contradiction|].
  unfold expanded_text in *.
  set (ind1 := str_repeat (lvl + 1) ind) in *.
  set (ind0 := str_repeat lvl ind) in *.
  assert (Hind1 : ws_only ind1) by now apply ws_only_repeat.
  assert (Hind0 : ws_only ind0) by now apply ws_only_repeat.
  rewrite join_members in *.
  set (body := member_text (fst ko) (snd ko) ++ members_tail (nl ++ ind1) kos
                 ++ (nl ++ ind0) ++ 125%N :: rest) in *.
  assert (Htext :
    (lit "{" ++ nl ++ (ind1 ++ 34%N :: member_text (fst ko) (snd ko)
                         ++ members_tail (nl ++ ind1) kos)
       ++ nl ++ ind0 ++ lit "}") ++ rest
    = 123%N :: ((nl ++ ind1) ++ 34%N :: body)).
  { unfold body, nl.
    repeat (progress (rewrite <- ?app_assoc; cbn [app])). reflexivity. }
  rewrite Htext in *. clear Htext.
  cbn [scan_once].
  change (123 =? 34)%N with false. change (123 =? 123)%N with true. cbv iota.
  rewrite skip_ws_app by (apply ws_only_app; [apply ws_only_nl|exact Hind1]).
  change (skip_ws (34%N :: body)) with (34%N :: body). cbv iota.
  change (34 =? 125)%N with false. change (34 =? 34)%N with true. cbv iota.
  unfold body. destruct ko as [k out]. cbn [fst snd map combine] in *.
  change ((k, v) :: combine (map fst kos) vals)
    with ([] ++ (k, v) :: combine (map fst kos) vals).
  apply (JSONObject_members (nl ++ ind1) (nl ++ ind0));
    [apply ws_only_app; [apply ws_only_nl|exact Hind1]
    |apply ws_only_app; [apply ws_only_nl|exact Hind0]
    |exact Hkos|exact Hko|].
  fold body. fold body in Hfuel. list_len.
Qed.

(** *** Trees *)

Lemma object_entries_map {V W : Type} (g : V -> W) self (o : list (pykey * V)) :
  object_entries self (map (on_snd g) o) = map (on_snd g) (object_entries self o).
Proof.
  unfold object_entries. rewrite stringify_keys_map.
  destruct (sort_keys self); [|reflexivity].
  now rewrite sorted_map, dict_of_items_map.
Qed.

Lemma object_entries_nonempty {V : Type} self (o : list (pykey * V)) :
  o <> [] -> object_entries self o <> [].
Proof.
  destruct o as [|kv o]; [contradiction|]. intros _ Hnil.
  pose proof (object_entries_get self (kv :: o) (key_text (fst kv))) as Hget.
  rewrite Hnil in Hget. cbn [dict_get] in Hget. symmetry in Hget.
  pose proof (proj1 (last_with_key_None _ _) Hget kv (or_introl eq_refl)) as H.
  cbn beta in H. rewrite str_eqb_refl in H. discriminate.
Qed.

Lemma texts_exist {A : Type} (get : A -> pyval) (l : list A) lvl :
  Forall (fun el => reads_back (get el)) l ->
  exists texts,
    Forall2 (fun el t => encode dumps_encoder (get el) lvl = (lvl, Ok t))
            l texts /\
    Forall2 (fun t el => parses t (sorted_tree (get el))) texts l.
Proof.
  induction 1 as [|el l Hel _ IH].
  - exists []. split; constructor.
  - destruct (Hel lvl) as (t & Ht & Hp). destruct IH as (ts & Hts & Hps).
    exists (t :: ts). split; constructor; assumption.
Qed.

Lemma Forall2_map_r {A B C : Type} (R : A -> C -> Prop) (f : B -> C) l l' :
  Forall2 (fun a b => R a (f b)) l l' -> Forall2 R l (map f l').
Proof. induction 1; simpl; constructor; assumption. Qed.

Lemma ws_only_indent : ws_only (indent dumps_encoder).
Proof. repeat constructor. Qed.

Lemma reads_back_list l :
  Forall reads_back l -> reads_back (PList l).
Proof.
  intros Hl lvl.
  destruct (texts_exist (fun el => el) l lvl Hl) as (parts & Hparts & Hpp).
  destruct (texts_exist (fun el => el) l (lvl + 1) Hl) as (outs & Houts & Hpo).
  apply Forall2_map_r in Hpp, Hpo.
  cbn [sorted_tree].
  assert (Hexp : expand_list dumps_encoder (encode dumps_encoder) l lvl
                 = (lvl, Ok (expanded_text (lit "[") (lit "]")
                               (indent dumps_encoder) lvl
                               (map (fun out => str_repeat (lvl + 1)
                                                  (indent dumps_encoder) ++ out)
                                    outs))))
    by now apply expand_list_run.
  rewrite encode_list_eq, _encode_list_cases.
  destruct (negb (existsb is_container l) && (len l <=? MAX_ITEMS)).
  - rewrite (for_each_run _ _ _ _ Hparts).
    destruct (len (inline_text parts) + lvl * 2 <? MAX_WIDTH).
    + eexists. split; [reflexivity|]. now apply parses_inline.
    + eexists. split; [exact Hexp|].
      apply parses_expanded; [apply ws_only_indent|exact Hpo].
  - eexists. split; [exact Hexp|].
    apply parses_expanded; [apply ws_only_indent|exact Hpo].
Qed.

Lemma entries_texts (es : list (pystr * pyval)) outs :
  Forall2 (fun t e => parses t (sorted_tree (snd e))) outs es ->
  let kos := combine (map fst es) outs in
  (forall f : pystr * pystr -> pystr,
      map (fun eo : (pystr * pyval) * pystr => f (fst (fst eo), snd eo))
          (combine es outs)
      = map f kos) /\
  Forall2 (fun ko v => parses (snd ko) v) kos
          (map (fun e => sorted_tree (snd e)) es) /\
  combine (map fst kos) (map (fun e => sorted_tree (snd e)) es)
  = map (on_snd sorted_tree) es /\
  (es <> [] -> kos <> []).
Proof.
  induction 1 as [|t e outs es Ht _ IH]; cbn zeta.
  - repeat split; try constructor. intros H. contradiction.
  - cbn zeta in IH. destruct IH as (Hmap & Hkos & Hcomb & _).
    cbn [map combine fst snd]. repeat split.
    + intros f. now rewrite Hmap.
    + constructor; [exact Ht|exact Hkos].
    + rewrite Hcomb. reflexivity.
    + discriminate.
Qed.

Lemma parses_empty_object : parses (lit "{}") (PDict []).
Proof.
  split; [split; reflexivity|].
  intros [|fuel] rest Hrest Hfuel; [lia|]. reflexivity.
Qed.

Lemma reads_back_dict items :
  Forall (fun kv => reads_back (snd kv)) items -> reads_back (PDict items).
Proof.
  intros Hitems lvl. rewrite encode_dict_eq, _encode_object_cases.
  destruct items as [|kv items].
  - eexists. split; [reflexivity|]. apply parses_empty_object.
  - set (o := kv :: items) in *.
    assert (Hne : o <> []) by discriminate.
    pose proof (object_entries_Forall reads_back dumps_encoder o Hitems)
      as Hentries.
    destruct (texts_exist snd _ (lvl + 1) Hentries) as (outs & Houts & Hpo).
    rewrite (expand_object_run _ _ _ _ _ Houts).
    eexists. split; [reflexivity|].
    destruct (entries_texts _ _ Hpo) as (Hmap & Hkos & Hcomb & Hkne).
    cbn [sorted_tree].
    change (map (fun kv0 : pykey * pyval => (fst kv0, sorted_tree (snd kv0))) o)
      with (map (on_snd sorted_tree) o).
    rewrite object_entries_map.
    rewrite <- (dict_of_items_id (map (on_snd sorted_tree) _)).
    + rewrite <- Hcomb.
      pose (F := (fun ko : pystr * pystr =>
                    str_repeat (lvl + 1) (indent dumps_encoder)
                    ++ encode_basestring (fst ko) ++ lit ": " ++ snd ko)
                 : pystr * pystr -> pystr).
      change (map (fun ko : pystr * pyval * pystr =>
                     entry_line dumps_encoder lvl (fst (fst ko)) (snd ko))
                  (combine (object_entries dumps_encoder o) outs))
        with (@map (pystr * pyval * pystr) pystr
                   (fun eo => F (fst (fst eo), snd eo))
                   (combine (object_entries dumps_encoder o) outs)).
      rewrite (Hmap F). unfold F.
      apply parses_object;
        [apply ws_only_indent
        |apply Hkne, object_entries_nonempty, Hne|exact Hkos].
    + rewrite map_map. cbn [on_snd fst]. apply object_entries_NoDup.
Qed.

Lemma json_tree_reads_back v :
  json_tree float_reads_back v = true -> reads_back v.
Proof.
  induction v as [p|l IH|l IH|items IH] using pyval_nested_ind;
    cbn [json_tree]; intros Hok.
  - intros lvl. now apply parses_prim.
  - apply reads_back_list. rewrite forallb_forall in Hok.
    rewrite Forall_forall in *. auto.
  - discriminate.
  - apply reads_back_dict. apply andb_true_iff in Hok as [Hok _].
    rewrite forallb_forall in Hok. rewrite Forall_forall in *.
    intros kv Hkv. apply (IH kv Hkv).
    specialize (Hok kv Hkv). now apply andb_true_iff in Hok as [_ Hok].
Qed.

Lemma loads_dumps v :
  reads_back v ->
  exists text, dumps v = Ok text /\ loads text = Some (sorted_tree v).
Proof.
  intros Hv. destruct (Hv 0) as (text & Henc & Hsolid & Hscan).
  exists text. unfold dumps. rewrite Henc. split; [reflexivity|].
  unfold loads. rewrite (skip_ws_solid _ Hsolid).
  specialize (Hscan (2 * List.length text + 1)%nat [] I).
  rewrite app_nil_r in Hscan. rewrite Hscan by lia. reflexivity.
Qed.

(** *** The tree read back equals the tree written *)

Lemma float_eqb_refl x : float_eqb x x = true.
Proof.
  destruct x as [s|s| |s m e]; simpl; try reflexivity;
    try (now destruct s).
  rewrite Pos.eqb_refl, Z.eqb_refl. now destruct s.
Qed.

Lemma prim_eqb_refl p : p <> POpaque -> prim_eqb p p = true.
Proof.
  destruct p as [|b|n|x|s|]; simpl; intros H; try reflexivity.
  - now destruct b.
  - apply Z.eqb_refl.
  - apply float_eqb_refl.
  - apply str_eqb_refl.
  - contradiction.
Qed.

Lemma distinct_NoDup l : distinct l = true -> NoDup l.
Proof.
  induction l as [|x l IH]; simpl; intros H; [constructor|].
  apply andb_true_iff in H as [Hx Hl]. constructor; [|auto].
  intros Hin. apply negb_true_iff in Hx.
  assert (Hex : existsb (str_eqb x) l = true).
  { apply existsb_exists. exists x. split; [exact Hin|apply str_eqb_refl]. }
  congruence.
Qed.

Lemma length_insert_item {V : Type} (x : pystr * V) l :
  List.length (insert_item x l) = S (List.length l).
Proof.
  induction l as [|y l IH]; simpl; [reflexivity|].
  destruct (str_ltb (fst y) (fst x)); simpl; now rewrite ?IH.
Qed.

Lemma length_sorted {V : Type} (l : list (pystr * V)) :
  List.length (sorted l) = List.length l.
Proof.
  induction l as [|x l IH]; simpl; [reflexivity|].
  now rewrite length_insert_item, IH.
Qed.

Section SortedEntries.
Variable items : list (pykey * pyval).
Hypothesis Hkeys : Forall (fun kv => is_str_key (fst kv) = true) items.
Hypothesis Hdistinct : NoDup (map (fun kv => key_text (fst kv)) items).

Lemma key_texts_NoDup :
  NoDup (map fst (map (fun kv : pykey * pyval =>
                         (key_text (fst kv), snd kv)) items)).
Proof. now rewrite map_map. Qed.

Lemma object_entries_distinct :
  object_entries dumps_encoder items
  = sorted (map (fun kv => (key_text (fst kv), snd kv)) items).
Proof.
  rewrite object_entries_sorted by reflexivity.
  unfold stringify_keys. now rewrite dict_of_items_id by apply key_texts_NoDup.
Qed.

Lemma lookup_key_In k v :
  In (KStr k, v) items -> lookup_key (KStr k) items = Some v.
Proof.
  clear Hkeys. induction items as [|[k0 v0] l IH]; simpl; [tauto|].
  inversion Hdistinct as [|? ? Hnotin Hl]; subst. intros [Heq|Hin].
  - inversion Heq; subst. simpl. now rewrite str_eqb_refl.
  - destruct (key_eqb k0 (KStr k)) eqn:E.
    + exfalso. apply Hnotin.
      destruct k0; simpl in E; try discriminate.
      apply str_eqb_eq in E. subst.
      apply in_map_iff. exists (KStr k, v). split; [reflexivity|exact Hin].
    + now apply IH.
Qed.

Lemma entry_of_item k v :
  In (k, v) (object_entries dumps_encoder items) -> In (KStr k, v) items.
Proof.
  rewrite object_entries_distinct, sorted_In, in_map_iff.
  intros ([k0 v0] & Heq & Hin). inversion Heq; subst.
  rewrite Forall_forall in Hkeys. specialize (Hkeys _ Hin).
  destruct k0; try discriminate. exact Hin.
Qed.

Lemma length_object_entries :
  List.length (object_entries dumps_encoder items) = List.length items.
Proof. now rewrite object_entries_distinct, length_sorted, length_map. Qed.
End SortedEntries.

Lemma tree_eqb_list l l' :
  tree_eqb (PList l) (PList l')
  = (fix all2 (l l' : list pyval) : bool :=
       match l, l' with
       | [], [] => true
       | x :: l, y :: l' => tree_eqb x y && all2 l l'
       | _, _ => false
       end) l l'.
Proof. reflexivity. Qed.

Lemma sorted_tree_equal v :
  json_tree float_reads_back v = true -> tree_eqb (sorted_tree v) v = true.
Proof.
  induction v as [p|l IH|l IH|items IH] using pyval_nested_ind;
    cbn [json_tree]; intros Hok.
  - cbn [sorted_tree tree_eqb]. apply prim_eqb_refl.
    intros ->. discriminate.
  - cbn [sorted_tree]. rewrite tree_eqb_list.
    induction IH as [|el l Hel _ IHl]; [reflexivity|].
    cbn [forallb] in Hok. apply andb_true_iff in Hok as [Hel' Hl'].
    cbn [map]. now rewrite (Hel Hel'), (IHl Hl').
  - discriminate.
  - apply andb_true_iff in Hok as [Hall Hdist].
    assert (Hkeys : Forall (fun kv => is_str_key (fst kv) = true) items).
    { apply Forall_forall. intros kv Hkv. rewrite forallb_forall in Hall.
      specialize (Hall kv Hkv). now apply andb_true_iff in Hall. }
    apply distinct_NoDup in Hdist.
    cbn [sorted_tree].
    change (map (fun kv : pykey * pyval => (fst kv, sorted_tree (snd kv))) items)
      with (map (on_snd sorted_tree) items).
    rewrite object_entries_map. cbn [tree_eqb].
    apply andb_true_iff. split.
    + apply Nat.eqb_eq. unfold str_items.
      now rewrite !length_map, length_object_entries.
    + apply forallb_forall. intros x Hx. unfold str_items in Hx.
      rewrite map_map in Hx. apply in_map_iff in Hx as ([k v] & <- & Hin).
      cbn [on_snd fst snd].
      pose proof (entry_of_item items Hkeys Hdist k v Hin) as Hitem.
      rewrite (lookup_key_In items Hdist k v Hitem).
      rewrite Forall_forall in IH. apply (IH _ Hitem).
      rewrite forallb_forall in Hall. specialize (Hall _ Hitem).
      now apply andb_true_iff in Hall.
Qed.

(** C4, amended: for every JSON tree (null, booleans, integers, strings,
    lists, objects with distinct string keys, and floats) in which every
    float is reproduced by its own rendering, [float(encode(x)) == x],
    [dumps] returns a text and [loads] of that text is a tree structurally
    equal to the original, the order of the items of its objects left
    aside. *)
Theorem round_trip_of_faithful_floats v :
  json_tree float_reads_back v = true ->
  exists text w,
    dumps v = Ok text /\ loads text = Some w /\ tree_eqb w v = true.
Proof.
  intros Hok.
  destruct (loads_dumps v (json_tree_reads_back v Hok)) as (text & Hd & Hl).
  exists text, (sorted_tree v).
  split; [exact Hd|]. split; [exact Hl|]. now apply sorted_tree_equal.
Qed.

Lemma round_trip_of_faithful_floats_witness :
  json_tree float_reads_back sample_tree = true /\
  exists text w,
    dumps sample_tree = Ok text /\ loads text = Some w /\
    tree_eqb w sample_tree = true.
Proof.
  assert (H : json_tree float_reads_back sample_tree = true)
    by (vm_compute; reflexivity).
  split; [exact H|]. exact (round_trip_of_faithful_floats sample_tree H).
Defined.

(** * Further properties of the encoder *)

(** ** Which values are encoded, and which raise *)



Section Outcomes.
Variable self : encoder.
Context {V : Type}.
Variable enc : V -> M pystr.
Variable bad : V -> bool.



End Outcomes.

Lemma object_entries_nil {V : Type} self :
  object_entries self (@nil (pykey * V)) = [].
Proof. unfold object_entries. now destruct (sort_keys self). Qed.





(** ** Lists of scalars *)

Lemma encode_prim_any_level self p lvl lvl1 r :
  encode self (Prim p) lvl = (lvl, r) -> encode self (Prim p) lvl1 = (lvl1, r).
Proof.
  destruct p; simpl; unfold ret, lift; intros H; inversion H; reflexivity.
Qed.

Lemma scalars_any_level self l parts lvl lvl1 :
  existsb is_container l = false ->
  Forall2 (fun el p => encode self el lvl = (lvl, Ok p)) l parts ->
  Forall2 (fun el p => encode self el lvl1 = (lvl1, Ok p)) l parts.
Proof.
  intros Hprim H. induction H as [|el p l parts Hel _ IH]; [constructor|].
  simpl in Hprim. apply orb_false_iff in Hprim as [Hc Hprim].
  constructor; [|exact (IH Hprim)].
  destruct el; try discriminate. exact (encode_prim_any_level _ _ _ _ _ Hel).
Qed.

(** X2: how a list or tuple of scalars is laid out.  It is written on one
    line, [[e1, e2, ...]], exactly when it has at most [MAX_ITEMS] (10)
    members and the length of that line plus twice the depth is below
    [MAX_WIDTH] (79); otherwise it is written expanded, one member per
    line, whatever its length: eleven short members are expanded too. *)
Theorem scalar_list_layout self o l parts lvl :
  array_items o = Some l ->
  existsb is_container l = false ->
  Forall2 (fun el p => encode self el lvl = (lvl, Ok p)) l parts ->
  encode self o lvl
  = (lvl,
     Ok (if (len l <=? MAX_ITEMS) &&
            (len (inline_text parts) + lvl * 2 <? MAX_WIDTH)
         then inline_text parts
         else expanded_text (lit "[") (lit "]") (indent self) lvl
                (map (element_line self lvl) parts))).
Proof.
  intros Ho Hprim Hparts.
  rewrite (encode_array_eq self o l Ho), _encode_list_cases, Hprim.
  cbn [negb andb].
  pose proof (expand_list_run self (encode self) l parts lvl
                (scalars_any_level _ _ _ _ _ Hprim Hparts)) as Hexp.
  destruct (len l <=? MAX_ITEMS); [|exact Hexp].
  rewrite (for_each_run _ _ _ _ Hparts). cbn [andb].
  destruct (len (inline_text parts) + lvl * 2 <? MAX_WIDTH);
    [reflexivity|exact Hexp].
Qed.

Lemma scalar_list_layout_witness :
  encode dumps_encoder (PTuple [Prim (PInt 1); Prim (PBool true)]) 3
  = (3, Ok (lit "[1, true]")) /\
  encode dumps_encoder (PList (repeat (Prim (PInt 0)) 11)) 0
  = (0, Ok (lit "[" ++ nl ++
            join (lit "," ++ nl) (repeat (lit "  0") 11) ++ nl ++ lit "]")).
Proof.
  split.
  - rewrite (scalar_list_layout dumps_encoder
               (PTuple [Prim (PInt 1); Prim (PBool true)])
               [Prim (PInt 1); Prim (PBool true)] [lit "1"; lit "true"] 3);
      [reflexivity|reflexivity|reflexivity|repeat constructor].
  - rewrite (scalar_list_layout dumps_encoder
               (PList (repeat (Prim (PInt 0)) 11))
               (repeat (Prim (PInt 0)) 11) (repeat (lit "0") 11) 0);
      [reflexivity|reflexivity|reflexivity|repeat constructor].
Defined.

Lemma len_inline_text parts : 2 <= len (inline_text parts).
Proof.
  unfold inline_text, len. rewrite !length_app. simpl. lia.
Qed.

(** X3: the width test leaves no room from depth 39 on: at that depth
    every list or tuple is written expanded, the empty list as well. *)
Theorem deep_list_expands self o l lvl lvl' s :
  array_items o = Some l ->
  39 <= lvl ->
  encode self o lvl = (lvl', Ok s) ->
  ~ single_line s.
Proof.
  intros Ho Hlvl H. rewrite (encode_array_eq self o l Ho) in H.
  apply _encode_list_ok in H as [_ H]; [|apply encode_children_balanced].
  destruct H as [(_ & parts & _ & Hw & _)|(outs & _ & ->)].
  - pose proof (len_inline_text parts). unfold MAX_WIDTH in Hw. lia.
  - apply expanded_text_not_single_line.
Qed.

Lemma deep_list_expands_witness :
  encode dumps_encoder (PList []) 39
  = (39, Ok (lit "[" ++ nl ++ nl ++ str_repeat 39 (lit "  ") ++ lit "]")) /\
  ~ single_line (lit "[" ++ nl ++ nl ++ str_repeat 39 (lit "  ") ++ lit "]").
Proof.
  assert (H : encode dumps_encoder (PList []) 39
              = (39, Ok (lit "[" ++ nl ++ nl ++ str_repeat 39 (lit "  ")
                           ++ lit "]"))) by reflexivity.
  split; [exact H|].
  apply (deep_list_expands dumps_encoder (PList []) [] 39 39 _ eq_refl);
    [lia|exact H].
Defined.

Lemma len_app {A : Type} (a b : list A) : len (a ++ b) = len a + len b.
Proof. unfold len. rewrite length_app. lia. Qed.

Lemma len_str_repeat n s : 0 <= n -> len (str_repeat n s) = n * len s.
Proof.
  intros Hn. unfold str_repeat.
  rewrite <- (Z2Nat.id n Hn) at 2.
  induction (Z.to_nat n) as [|k IH]; [reflexivity|].
  cbn [repeat List.concat]. rewrite len_app, IH. lia.
Qed.

(** X4: what the width test guarantees.  With an indent of at most two
    characters, as the default, a list or tuple that is written on one line
    at depth [lvl] fits, together with the indentation of that depth, in
    fewer than [MAX_WIDTH] (79) columns. *)
Theorem inline_list_within_width self o l lvl lvl' s :
  array_items o = Some l ->
  len (indent self) <= 2 ->
  0 <= lvl ->
  encode self o lvl = (lvl', Ok s) ->
  single_line s ->
  len (str_repeat lvl (indent self) ++ s) < MAX_WIDTH.
Proof.
  intros Ho Hind Hlvl H Hline. rewrite (encode_array_eq self o l Ho) in H.
  apply _encode_list_ok in H as [_ H]; [|apply encode_children_balanced].
  destruct H as [(_ & parts & _ & Hw & ->)|(outs & _ & ->)].
  - rewrite len_app, len_str_repeat by exact Hlvl. nia.
  - now apply expanded_text_not_single_line in Hline.
Qed.

Lemma inline_list_within_width_witness :
  len (str_repeat 2 (indent dumps_encoder) ++ lit "[1, true]") < MAX_WIDTH.
Proof.
  apply (inline_list_within_width dumps_encoder
           (PList [Prim (PInt 1); Prim (PBool true)])
           [Prim (PInt 1); Prim (PBool true)] 2 2 (lit "[1, true]") eq_refl).
  - vm_compute. discriminate.
  - lia.
  - reflexivity.
  - intros Hin. vm_compute in Hin. repeat destruct Hin as [Hin|Hin]; try discriminate Hin; exact Hin.
Defined.

(** ** The order of the entries of an object *)

Lemma dict_set_keys_order {V : Type} (d : list (pystr * V)) k v :
  map fst (dict_set d k v)
  = if existsb (fun k' => str_eqb k' k) (map fst d) then map fst d
    else map fst d ++ [k].
Proof.
  induction d as [|[k' v'] d IH]; simpl; [reflexivity|].
  destruct (str_eqb k' k) eqn:E; simpl; [reflexivity|].
  rewrite IH. now destruct (existsb _ (map fst d)).
Qed.

Lemma fold_dict_set_keys_order {V : Type} (l : list (pystr * V)) acc :
  map fst (fold_left (fun d kv => dict_set d (fst kv) (snd kv)) l acc)
  = fold_left (fun seen k =>
                 if existsb (fun k' => str_eqb k' k) seen then seen
                 else seen ++ [k])
              (map fst l) (map fst acc).
Proof.
  revert acc. induction l as [|[k v] l IH]; intros acc; simpl; [reflexivity|].
  now rewrite IH, dict_set_keys_order.
Qed.

(** X5: without [sort_keys] the entries of an object are written in the
    order in which their key texts first occur in the dictionary; a key
    text that occurs again keeps the place of its first occurrence. *)
Theorem entries_keep_insertion_order self (items : list (pykey * pyval)) :
  sort_keys self = false ->
  map fst (object_entries self items)
  = first_occurrences (map (fun kv => key_text (fst kv)) items).
Proof.
  intros Hsort. unfold object_entries, stringify_keys, dict_of_items.
  rewrite Hsort, fold_dict_set_keys_order, map_map. reflexivity.
Qed.

Lemma entries_keep_insertion_order_witness :
  map fst (object_entries (VSLJSONEncoder None false false false)
             [(KStr (lit "b"), Prim (PInt 1)); (KInt 7, Prim (PInt 2));
              (KStr (lit "a"), Prim (PInt 3)); (KStr (lit "7"), Prim (PInt 4))])
  = [lit "b"; lit "7"; lit "a"].
Proof.
  rewrite (entries_keep_insertion_order
             (VSLJSONEncoder None false false false) _ eq_refl).
  reflexivity.
Defined.

Lemma str_ltb_asym a b : str_ltb a b = true -> str_ltb b a = false.
Proof.
  intros H. destruct (str_ltb b a) eqn:E; [|reflexivity].
  pose proof (str_ltb_trans _ _ _ H E) as Haa.
  now rewrite str_ltb_irrefl in Haa.
Qed.

(** Two lists in ascending order of their keys that hold the same entries
    are the same list. *)
Lemma ascending_unique {V : Type} (l l' : list (pystr * V)) :
  ascending l -> ascending l' ->
  (forall x, In x l <-> In x l') ->
  l = l'.
Proof.
  unfold ascending. intros Hl. revert l'.
  induction Hl as [|x l Hl IH Hx]; intros l' Hl' Hsame.
  - destruct l' as [|y l']; [reflexivity|].
    exfalso. apply (proj2 (Hsame y)). now left.
  - destruct Hl' as [|y l' Hl' Hy].
    { exfalso. apply (proj1 (Hsame x)). now left. }
    rewrite Forall_forall in Hx, Hy.
    assert (Hxy : x = y).
    { destruct (proj1 (Hsame x) (or_introl eq_refl)) as [Heq|Hin];
        [now symmetry|].
      destruct (proj2 (Hsame y) (or_introl eq_refl)) as [Heq|Hin'];
        [exact Heq|].
      pose proof (str_ltb_asym _ _ (Hy _ Hin)) as Hcontra.
      rewrite (Hx _ Hin') in Hcontra. discriminate. }
    subst y. f_equal. apply IH; [exact Hl'|].
    intros z. split; intros Hz.
    + destruct (proj1 (Hsame z) (or_intror Hz)) as [Heq|Hin]; [|exact Hin].
      subst z. pose proof (Hx _ Hz) as Hirr.
      now rewrite str_ltb_irrefl in Hirr.
    + destruct (proj2 (Hsame z) (or_intror Hz)) as [Heq|Hin]; [|exact Hin].
      subst z. pose proof (Hy _ Hz) as Hirr.
      now rewrite str_ltb_irrefl in Hirr.
Qed.

Lemma object_entries_reordered {V : Type} self (items items' : list (pykey * V)) :
  sort_keys self = true ->
  reordered items items' ->
  object_entries self items = object_entries self items'.
Proof.
  intros Hsort (Hnd & Hnd' & Hsame).
  rewrite !(object_entries_sorted _ _ Hsort). unfold stringify_keys.
  rewrite !dict_of_items_id by now rewrite map_map.
  apply ascending_unique.
  - apply sorted_ascending. now rewrite map_map.
  - apply sorted_ascending. now rewrite map_map.
  - intros x. rewrite !sorted_In, !in_map_iff.
    split; intros (kv & Hx & Hin); exists kv; (split; [exact Hx|]);
      now apply Hsame.
Qed.

(** The text of an object is that of its entries. *)
Lemma encode_dict_entries self items items' lvl :
  object_entries self items = object_entries self items' ->
  encode self (PDict items) lvl = encode self (PDict items') lvl.
Proof.
  intros H. rewrite !encode_dict_eq, !_encode_object_cases.
  destruct items as [|kv items], items' as [|kv' items'].
  - reflexivity.
  - exfalso. rewrite object_entries_nil in H. symmetry in H.
    now apply (object_entries_nonempty self (kv' :: items')) in H.
  - exfalso. rewrite object_entries_nil in H.
    now apply (object_entries_nonempty self (kv :: items)) in H.
  - unfold expand_object. now rewrite H.
Qed.

(** X6: with [sort_keys], as [dumps] sets it, the text of an object does
    not depend on the order in which its items were inserted, as long as no
    two keys have the same text. *)
Theorem sorted_object_ignores_insertion_order self items items' lvl :
  sort_keys self = true ->
  reordered items items' ->
  encode self (PDict items) lvl = encode self (PDict items') lvl.
Proof.
  intros Hsort Hre.
  now apply encode_dict_entries, object_entries_reordered.
Qed.

Lemma sorted_object_ignores_insertion_order_witness :
  encode dumps_encoder
    (PDict [(KStr (lit "b"), Prim (PInt 1)); (KNone, Prim (PInt 2))]) 0
  = encode dumps_encoder
      (PDict [(KNone, Prim (PInt 2)); (KStr (lit "b"), Prim (PInt 1))]) 0.
Proof.
  apply (sorted_object_ignores_insertion_order dumps_encoder
           [(KStr (lit "b"), Prim (PInt 1)); (KNone, Prim (PInt 2))]
           [(KNone, Prim (PInt 2)); (KStr (lit "b"), Prim (PInt 1))] 0 eq_refl).
  split; [|split].
  - repeat constructor; simpl; intuition discriminate.
  - repeat constructor; simpl; intuition discriminate.
  - intros kv. simpl. tauto.
Defined.

(** ** What [loads] returns for the text of a tree *)

Lemma sorted_of_ascending {V : Type} (l : list (pystr * V)) :
  ascending l -> sorted l = l.
Proof.
  induction 1 as [|x l Hl IH Hx]; simpl; [reflexivity|].
  rewrite IH. destruct l as [|y l']; [reflexivity|].
  simpl. inversion Hx as [|? ? Hxy _]; subst.
  now rewrite (str_ltb_asym _ _ Hxy).
Qed.

Lemma stringify_str_items (es : list (pystr * pyval)) :
  stringify_keys (str_items es) = dict_of_items es.
Proof.
  unfold stringify_keys, str_items. rewrite map_map. f_equal.
  rewrite <- (map_id es) at 2. apply map_ext. now intros [k v].
Qed.

(** The entries of an object, taken as a dictionary, are its own
    entries. *)
Lemma object_entries_fixed self (items : list (pykey * pyval)) :
  object_entries self (str_items (object_entries self items))
  = object_entries self items.
Proof.
  pose proof (object_entries_NoDup self items) as Hnd.
  unfold object_entries at 1.
  rewrite stringify_str_items, (dict_of_items_id _ Hnd).
  destruct (sort_keys self) eqn:Hsort; [|reflexivity].
  rewrite sorted_of_ascending by now apply object_entries_ascending.
  now apply dict_of_items_id.
Qed.

Lemma for_each_ext {A B : Type} (f g : A -> M B) o :
  Forall (fun el => forall lvl, f el lvl = g el lvl) o ->
  forall lvl, for_each f o lvl = for_each g o lvl.
Proof.
  induction 1 as [|el o Hel _ IH]; intros lvl; simpl; [reflexivity|].
  unfold bind. rewrite Hel.
  destruct (g el lvl) as [lvl1 [x|e]]; [|reflexivity].
  now rewrite IH.
Qed.

Section Extensionality.
Variable self : encoder.
Context {V : Type}.
Variables enc enc' : V -> M pystr.

Lemma expand_list_ext o :
  Forall (fun el => forall lvl, enc el lvl = enc' el lvl) o ->
  forall lvl, expand_list self enc o lvl = expand_list self enc' o lvl.
Proof.
  intros H lvl. unfold expand_list. unfold bind at 1 5. cbn [add_level].
  unfold bind at 1 4.
  rewrite (for_each_ext
             (fun el => i <- indent_str self ;; s <- enc el ;; ret (i ++ s))
             (fun el => i <- indent_str self ;; s <- enc' el ;; ret (i ++ s)));
    [reflexivity|].
  eapply Forall_impl; [|exact H]. intros el Hel l.
  unfold bind at 1 3. rewrite indent_str_run. unfold bind. now rewrite Hel.
Qed.

Lemma _encode_list_ext isc isc' o :
  Forall (fun el => isc el = isc' el) o ->
  Forall (fun el => forall lvl, enc el lvl = enc' el lvl) o ->
  forall lvl,
    _encode_list self isc enc o lvl = _encode_list self isc' enc' o lvl.
Proof.
  intros Hisc H lvl. rewrite !_encode_list_cases.
  assert (Hex : existsb isc o = existsb isc' o).
  { clear H. induction Hisc as [|el o Hel _ IH]; simpl; [reflexivity|].
    now rewrite Hel, IH. }
  rewrite Hex, (for_each_ext enc enc' o H lvl).
  destruct (negb (existsb isc' o) && (len o <=? MAX_ITEMS));
    [|now apply expand_list_ext].
  destruct (for_each enc' o lvl) as [lvl1 [parts|e]]; [|reflexivity].
  destruct (len (inline_text parts) + lvl1 * 2 <? MAX_WIDTH);
    [reflexivity|now apply expand_list_ext].
Qed.

Lemma _encode_object_ext o :
  Forall (fun kv => forall lvl, enc (snd kv) lvl = enc' (snd kv) lvl) o ->
  forall lvl, _encode_object self enc o lvl = _encode_object self enc' o lvl.
Proof.
  intros H lvl. rewrite !_encode_object_cases.
  destruct o as [|kv o]; [reflexivity|].
  apply (object_entries_Forall
           (fun v => forall lvl, enc v lvl = enc' v lvl) self) in H.
  unfold on_value in H.
  unfold expand_object. unfold bind at 1 5. cbn [add_level].
  unfold bind at 1 4.
  rewrite (for_each_ext
             (fun kv0 : pystr * V =>
                i <- indent_str self ;; s <- enc (snd kv0) ;;
                ret (i ++ json_dumps_key self (fst kv0) ++ lit ": " ++ s))
             (fun kv0 : pystr * V =>
                i <- indent_str self ;; s <- enc' (snd kv0) ;;
                ret (i ++ json_dumps_key self (fst kv0) ++ lit ": " ++ s)));
    [reflexivity|].
  eapply Forall_impl; [|exact H]. intros el Hel l.
  unfold bind at 1 3. rewrite indent_str_run. unfold bind. now rewrite Hel.
Qed.
End Extensionality.

Lemma is_container_sorted_tree el :
  is_container (sorted_tree el) = is_container el.
Proof. now destruct el. Qed.

(** The tree that [loads] returns for the text of a tree has the same text
    as that tree. *)
Lemma encode_sorted_tree v :
  forall lvl,
    encode dumps_encoder (sorted_tree v) lvl = encode dumps_encoder v lvl.
Proof.
  induction v as [p|l IH|l IH|items IH] using pyval_nested_ind; intros lvl.
  - reflexivity.
  - cbn [sorted_tree]. rewrite !encode_list_eq, _encode_list_map.
    apply _encode_list_ext; [|exact IH].
    apply Forall_forall. intros el _. apply is_container_sorted_tree.
  - cbn [sorted_tree]. rewrite encode_list_eq, encode_tuple_eq, _encode_list_map.
    apply _encode_list_ext; [|exact IH].
    apply Forall_forall. intros el _. apply is_container_sorted_tree.
  - cbn [sorted_tree].
    change (map (fun kv : pykey * pyval => (fst kv, sorted_tree (snd kv))) items)
      with (map (on_snd sorted_tree) items).
    rewrite (encode_dict_entries dumps_encoder _
               (map (on_snd sorted_tree) items) lvl
               (object_entries_fixed _ _)).
    rewrite !encode_dict_eq.
    rewrite (_encode_object_map sorted_tree dumps_encoder
               (encode dumps_encoder) items).
    now apply _encode_object_ext.
Qed.

Lemma reads_back_tuple l :
  Forall reads_back l -> reads_back (PTuple l).
Proof.
  intros Hl lvl. destruct (reads_back_list l Hl lvl) as (text & Henc & Hp).
  exists text. split; [|exact Hp].
  now rewrite encode_tuple_eq, <- encode_list_eq.
Qed.

Lemma writable_reads_back v :
  writable float_reads_back v = true -> reads_back v.
Proof.
  induction v as [p|l IH|l IH|items IH] using pyval_nested_ind;
    cbn [writable]; intros Hok.
  - intros lvl. apply parses_prim. now destruct p.
  - apply reads_back_list. rewrite forallb_forall in Hok.
    rewrite Forall_forall in *. auto.
  - apply reads_back_tuple. rewrite forallb_forall in Hok.
    rewrite Forall_forall in *. auto.
  - apply reads_back_dict. rewrite forallb_forall in Hok.
    rewrite Forall_forall in *. auto.
Qed.

(** X7: what comes back.  For every tree that holds no unserialisable
    object and whose floats are reproduced by their own rendering, [dumps]
    returns a text and [loads] reads that text as the tree [sorted_tree]
    makes of the original: tuples have become lists, every key has become
    its text ([None] the text [null]), an object keeps one entry per key
    text, with the value of the last item that has it, and its entries are
    in ascending order of their keys. *)
Theorem loads_dumps_normal_form v :
  writable float_reads_back v = true ->
  exists text, dumps v = Ok text /\ loads text = Some (sorted_tree v).
Proof.
  intros Hok. exact (loads_dumps v (writable_reads_back v Hok)).
Qed.

Lemma loads_dumps_normal_form_witness :
  sorted_tree mixed_keys_tree
  = PDict [(KStr (lit "2"), Prim (PBool true));
           (KStr (lit "null"), Prim (PStr (lit "x")))] /\
  exists text,
    dumps mixed_keys_tree = Ok text /\
    loads text = Some (sorted_tree mixed_keys_tree).
Proof.
  split; [reflexivity|].
  apply (loads_dumps_normal_form mixed_keys_tree). reflexivity.
Defined.



(** ** The characters of the output *)

Section ScalarCharacters.
Variable P : N -> Prop.
Hypothesis P_printable : forall c, printable c -> P c.

Ltac printable_lit :=
  repeat constructor; apply P_printable; vm_compute; split; discriminate.

Lemma digit_char_P d : 0 <= d < 10 -> P (digit_char d).
Proof.
  intros H. apply P_printable. unfold printable, digit_char. lia.
Qed.

Lemma digits_fuel_P fuel n acc :
  Forall P acc -> Forall P (digits_fuel fuel n acc).
Proof.
  revert n acc. induction fuel as [|fuel IH]; intros n acc Hacc; simpl;
    [exact Hacc|].
  assert (Hd : P (digit_char (n mod 10))).
  { apply digit_char_P. apply Z.mod_pos_bound. lia. }
  destruct (n <? 10); [now constructor|].
  apply IH. now constructor.
Qed.

Lemma nat_digits_P n : Forall P (nat_digits n).
Proof. apply digits_fuel_P. constructor. Qed.

Lemma sign_str_P s : Forall P (sign_str s).
Proof. destruct s; printable_lit. Qed.

Lemma int_repr_P n : Forall P (int_repr n).
Proof.
  unfold int_repr. destruct (n <? 0); [|apply nat_digits_P].
  apply Forall_app. split; [printable_lit|apply nat_digits_P].
Qed.

Lemma hex_char_P d : (d < 16)%N -> P (hex_char d).
Proof.
  intros H. apply P_printable. unfold printable, hex_char.
  destruct (N.ltb_spec d 10); lia.
Qed.

Lemma land_15 n : (N.land n 15 < 16)%N.
Proof.
  change 15%N with (N.ones 4). rewrite N.land_ones.
  apply N.mod_lt. discriminate.
Qed.

Lemma hex4_P n : Forall P (hex4 n).
Proof. unfold hex4. repeat constructor; apply hex_char_P, land_15. Qed.

Lemma str_repeat_P n s : Forall P s -> Forall P (str_repeat n s).
Proof.
  intros H. unfold str_repeat.
  induction (Z.to_nat n) as [|k IH]; simpl; [constructor|].
  apply Forall_app. now split.
Qed.

Lemma firstn_P k (s : pystr) : Forall P s -> Forall P (firstn k s).
Proof.
  intros H. rewrite <- (firstn_skipn k s) in H.
  now apply Forall_app in H.
Qed.

Lemma skipn_P k (s : pystr) : Forall P s -> Forall P (skipn k s).
Proof.
  intros H. rewrite <- (firstn_skipn k s) in H.
  now apply Forall_app in H.
Qed.

Lemma lstrip_char_P c s : Forall P s -> Forall P (lstrip_char c s).
Proof.
  induction 1 as [|x s Hx Hs IH]; simpl; [constructor|].
  destruct (x =? c)%N; [exact IH|now constructor].
Qed.

Lemma rstrip_P c s : Forall P s -> Forall P (rstrip c s).
Proof.
  intros H. unfold rstrip. apply Forall_rev, lstrip_char_P, Forall_rev, H.
Qed.

Lemma exp_str_P x : Forall P (exp_str x).
Proof.
  unfold exp_str. repeat (apply Forall_app; split).
  - destruct (x <? 0); printable_lit.
  - destruct (Z.abs x <? 10); [printable_lit|constructor].
  - apply nat_digits_P.
Qed.

Lemma repr_layout_P d k : Forall P (repr_layout d k).
Proof.
  unfold repr_layout.
  pose proof (nat_digits_P d) as Hd.
  repeat match goal with
         | |- Forall _ (if ?c then _ else _) => destruct c
         | |- Forall _ (_ ++ _) => apply Forall_app; split
         | |- Forall _ (firstn _ _) => apply firstn_P
         | |- Forall _ (skipn _ _) => apply skipn_P
         | |- Forall _ (zeros _) => apply str_repeat_P
         | |- Forall _ (exp_str _) => apply exp_str_P
         | |- Forall _ (nat_digits _) => exact Hd
         | |- Forall _ (lit _) => printable_lit
         | |- Forall _ [] => constructor
         end.
Qed.

Lemma float_repr_P x : Forall P (float_repr x).
Proof.
  destruct x as [s|s| |s m e]; simpl.
  - apply Forall_app; split; [apply sign_str_P|printable_lit].
  - apply Forall_app; split; [apply sign_str_P|printable_lit].
  - printable_lit.
  - apply Forall_app; split; [apply sign_str_P|].
    destruct (shortest_digits m e). apply repr_layout_P.
Qed.

Lemma fixed6_P n : Forall P (fixed6 n).
Proof.
  unfold fixed6. repeat (apply Forall_app; split).
  - apply nat_digits_P.
  - printable_lit.
  - unfold pad6. apply Forall_map, Forall_forall. intros k _.
    apply digit_char_P, Z.mod_pos_bound. lia.
Qed.

Lemma format_06f_P x : Forall P (format_06f x).
Proof.
  destruct x as [s|s| |s m e]; simpl;
    try (apply Forall_app; split; [apply sign_str_P|]);
    try apply fixed6_P; printable_lit.
Qed.

Lemma encode_float_P x : Forall P (encode_float x).
Proof.
  unfold encode_float. destruct (is_integer x).
  - apply float_repr_P.
  - apply rstrip_P, rstrip_P, format_06f_P.
Qed.

Lemma ESCAPE_DCT_P c r : ESCAPE_DCT c = Some r -> Forall P r.
Proof.
  unfold ESCAPE_DCT.
  repeat match goal with
         | |- (if ?b then _ else _) = _ -> _ => destruct b
         end; intros H; inversion H; subst; try printable_lit.
  repeat constructor;
    first [apply hex_char_P, land_15
          |apply P_printable; vm_compute; split; discriminate].
Qed.

Lemma ESCAPE_DCT_None_32 c : ESCAPE_DCT c = None -> (32 <= c)%N.
Proof.
  unfold ESCAPE_DCT.
  repeat match goal with
         | |- (if ?b then _ else _) = _ -> _ => destruct b eqn:?
         end; intros H; try discriminate H.
  now apply N.ltb_ge.
Qed.

Lemma escape_ascii_P c : Forall P (escape_ascii c).
Proof.
  unfold escape_ascii. destruct (ESCAPE_DCT c) as [r|] eqn:E.
  - exact (ESCAPE_DCT_P _ _ E).
  - destruct ((32 <=? c) && (c <=? 126))%N eqn:Hc.
    + constructor; [|constructor]. apply P_printable.
      apply andb_true_iff in Hc as [H1 H2].
      apply N.leb_le in H1, H2. split; assumption.
    + destruct (c <? 65536)%N;
        repeat (apply Forall_app; split); try apply hex4_P; printable_lit.
Qed.

Lemma encode_basestring_ascii_P s : Forall P (encode_basestring_ascii s).
Proof.
  unfold encode_basestring_ascii. repeat (apply Forall_app; split);
    try printable_lit.
  apply Forall_flat_map, Forall_forall. intros c _. apply escape_ascii_P.
Qed.

(** Without [ensure_ascii], the characters from 32 on that have no escape
    are written as they are. *)
Lemma encode_basestring_P s :
  Forall (fun c => (32 <= c)%N -> P c) s -> Forall P (encode_basestring s).
Proof.
  intros Hs. unfold encode_basestring. repeat (apply Forall_app; split);
    try printable_lit.
  apply Forall_flat_map. eapply Forall_impl; [|exact Hs].
  intros c Hc. destruct (ESCAPE_DCT c) as [r|] eqn:E.
  - exact (ESCAPE_DCT_P _ _ E).
  - constructor; [|constructor]. apply Hc. exact (ESCAPE_DCT_None_32 _ E).
Qed.

Lemma join_P sep parts :
  Forall P sep -> Forall (Forall P) parts -> Forall P (join sep parts).
Proof.
  intros Hsep. induction 1 as [|p parts Hp Hparts IH]; simpl; [constructor|].
  destruct parts as [|q parts]; [exact Hp|].
  apply Forall_app; split; [exact Hp|].
  apply Forall_app; split; [exact Hsep|exact IH].
Qed.

Lemma inline_text_P parts :
  Forall (Forall P) parts -> Forall P (inline_text parts).
Proof.
  intros H. unfold inline_text.
  repeat (apply Forall_app; split); try printable_lit.
  apply join_P; [printable_lit|exact H].
Qed.
End ScalarCharacters.

(** The text of a key that is not a string is made of printable
    characters. *)
Lemma key_text_printable k :
  match k with KStr _ => True | _ => Forall printable (key_text k) end.
Proof.
  destruct k as [|b|n|x|s]; try exact I; unfold key_text; cbn [is_None py_str].
  - repeat constructor; vm_compute; discriminate.
  - destruct b; repeat constructor; vm_compute; discriminate.
  - apply int_repr_P. auto.
  - apply float_repr_P. auto.
Qed.

Section TreeCharacters.
Variable self : encoder.
Variable P : N -> Prop.
Variable q : N -> bool.
Hypothesis P_printable : forall c, printable c -> P c.
Hypothesis P_nl : P 10%N.
Hypothesis P_indent : Forall P (indent self).
Hypothesis P_raw : forall c, q c = true -> (32 <= c)%N -> P c.

Lemma string_text_P s :
  ensure_ascii self = true \/ forallb q s = true ->
  Forall P (if ensure_ascii self then encode_basestring_ascii s
            else encode_basestring s).
Proof.
  intros [Ha|Hq].
  - rewrite Ha. now apply encode_basestring_ascii_P.
  - destruct (ensure_ascii self); [now apply encode_basestring_ascii_P|].
    apply encode_basestring_P; [exact P_printable|].
    apply Forall_forall. intros c Hc. apply P_raw.
    rewrite forallb_forall in Hq. now apply Hq.
Qed.

Lemma key_line_P k :
  ensure_ascii self = true \/
  match k with KStr s => forallb q s | _ => true end = true ->
  Forall P (json_dumps_key self (key_text k)).
Proof.
  intros H.
  assert (Hpr : Forall printable (key_text k) ->
                Forall P (json_dumps_key self (key_text k))).
  { intros Hk. unfold json_dumps_key.
    destruct (ensure_ascii self);
      [apply encode_basestring_ascii_P; exact P_printable|].
    apply encode_basestring_P; [exact P_printable|].
    eapply Forall_impl; [|exact Hk].
    intros c Hc _. now apply P_printable. }
  pose proof (key_text_printable k) as Hk.
  destruct k as [|b|n|x|s]; try exact (Hpr Hk).
  exact (string_text_P s H).
Qed.

Lemma expanded_text_P opening closing lvl lines :
  Forall P opening -> Forall P closing -> Forall (Forall P) lines ->
  Forall P (expanded_text opening closing (indent self) lvl lines).
Proof.
  intros Ho Hc Hl. unfold expanded_text.
  repeat (apply Forall_app; split); try assumption;
    try (repeat constructor; exact P_nl).
  - apply join_P; [|exact Hl].
    apply Forall_app; split;
      [repeat constructor; apply P_printable; vm_compute; split; discriminate
      |repeat constructor; exact P_nl].
  - now apply str_repeat_P.
Qed.

Lemma prim_text_P p lvl lvl' s :
  ensure_ascii self = true \/ all_chars q (Prim p) = true ->
  encode self (Prim p) lvl = (lvl', Ok s) ->
  Forall P s.
Proof.
  intros Hq H.
  destruct p as [|b|n|x|t|]; simpl in H; inversion H; subst.
  - repeat constructor; apply P_printable; vm_compute; split; discriminate.
  - destruct b; repeat constructor; apply P_printable; vm_compute; split; discriminate.
  - now apply int_repr_P.
  - now apply encode_float_P.
  - now apply string_text_P.
Qed.

Lemma members_text_P (l : list pyval) lvl parts :
  Forall (fun el => forall lvl lvl' s,
              ensure_ascii self = true \/ all_chars q el = true ->
              encode self el lvl = (lvl', Ok s) -> Forall P s) l ->
  ensure_ascii self = true \/ forallb (all_chars q) l = true ->
  Forall2 (fun el p => encode self el lvl = (lvl, Ok p)) l parts ->
  Forall (Forall P) parts.
Proof.
  intros IH Hq H. induction H as [|el p l parts Hel _ IHl]; [constructor|].
  inversion IH as [|? ? IHel IHrest]; subst.
  assert (Hq' : (ensure_ascii self = true \/ all_chars q el = true) /\
                (ensure_ascii self = true \/ forallb (all_chars q) l = true)).
  { destruct Hq as [Ha|Hq]; [auto|].
    cbn [forallb] in Hq. apply andb_true_iff in Hq as [H1 H2]. auto. }
  destruct Hq' as [Hq1 Hq2].
  constructor; [exact (IHel _ _ _ Hq1 Hel)|exact (IHl IHrest Hq2)].
Qed.

Lemma entry_from_item {V : Type} (items : list (pykey * V)) t v :
  In (t, v) (object_entries self items) ->
  exists k, In (k, v) items /\ key_text k = t.
Proof.
  intros Hin.
  apply (dict_get_In _ _ _ (object_entries_NoDup self items)) in Hin.
  rewrite object_entries_get in Hin.
  apply last_with_key_Some in Hin as (k & Hk & Heq).
  exists k. split; [exact Hk|]. now apply str_eqb_eq.
Qed.

Lemma entries_text_P (items : list (pykey * pyval)) lvl outs :
  Forall (fun kv => forall lvl lvl' s,
              ensure_ascii self = true \/ all_chars q (snd kv) = true ->
              encode self (snd kv) lvl = (lvl', Ok s) -> Forall P s) items ->
  ensure_ascii self = true \/ all_chars q (PDict items) = true ->
  Forall2 (fun kv out => encode self (snd kv) (lvl + 1) = (lvl + 1, Ok out))
          (object_entries self items) outs ->
  Forall (Forall P)
         (map (fun ko => entry_line self lvl (fst (fst ko)) (snd ko))
              (combine (object_entries self items) outs)).
Proof.
  intros IH Hq H.
  assert (Hentry : forall t v,
             In (t, v) (object_entries self items) ->
             Forall P (json_dumps_key self t) /\
             forall l l' s, encode self v l = (l', Ok s) -> Forall P s).
  { intros t v Hin. apply entry_from_item in Hin as (k & Hk & <-).
    rewrite Forall_forall in IH. specialize (IH _ Hk). cbn [snd] in IH.
    assert (Hkv : (ensure_ascii self = true \/
                   match k with KStr s => forallb q s | _ => true end = true) /\
                  (ensure_ascii self = true \/ all_chars q v = true)).
    { destruct Hq as [Ha|Hq]; [auto|].
      cbn [all_chars] in Hq. rewrite forallb_forall in Hq.
      specialize (Hq _ Hk). cbn [fst snd] in Hq.
      apply andb_true_iff in Hq as [H1 H2]. auto. }
    destruct Hkv as [Hk1 Hk2].
    split; [now apply key_line_P|].
    intros l l' s Hs. exact (IH _ _ _ Hk2 Hs). }
  clear IH Hq.
  induction H as [|[t v] out es outs Hel _ IHes]; [constructor|].
  cbn [combine map fst snd].
  destruct (Hentry t v (or_introl eq_refl)) as [Hkey Hval].
  constructor.
  - unfold entry_line. repeat (apply Forall_app; split).
    + now apply str_repeat_P.
    + exact Hkey.
    + repeat constructor; apply P_printable; vm_compute; split; discriminate.
    + exact (Hval _ _ _ Hel).
  - apply IHes. intros t' v' Hin. apply Hentry. now right.
Qed.

Lemma encode_text_P v :
  forall lvl lvl' s,
    ensure_ascii self = true \/ all_chars q v = true ->
    encode self v lvl = (lvl', Ok s) ->
    Forall P s.
Proof.
  assert (Hlist : forall l,
             Forall (fun el => forall lvl lvl' s,
                         ensure_ascii self = true \/ all_chars q el = true ->
                         encode self el lvl = (lvl', Ok s) -> Forall P s) l ->
             forall lvl lvl' s,
               ensure_ascii self = true \/ forallb (all_chars q) l = true ->
               _encode_list self is_container (encode self) l lvl
               = (lvl', Ok s) ->
               Forall P s).
  { intros l IH lvl lvl' s Hq H.
    apply _encode_list_ok in H as [_ H]; [|apply encode_children_balanced].
    destruct H as [(_ & parts & Hparts & _ & ->)|(outs & Houts & ->)].
    - apply inline_text_P; [exact P_printable|].
      exact (members_text_P l lvl parts IH Hq Hparts).
    - apply expanded_text_P;
        try (repeat constructor; apply P_printable; vm_compute; split; discriminate).
      pose proof (members_text_P l (lvl + 1) outs IH Hq Houts) as Ho.
      unfold element_line. apply Forall_map.
      eapply Forall_impl; [|exact Ho]. intros out Hout.
      apply Forall_app; split; [now apply str_repeat_P|exact Hout]. }
  induction v as [p|l IH|l IH|items IH] using pyval_nested_ind;
    intros lvl lvl' s Hq H.
  - exact (prim_text_P p lvl lvl' s Hq H).
  - rewrite encode_list_eq in H. exact (Hlist l IH lvl lvl' s Hq H).
  - rewrite encode_tuple_eq in H. exact (Hlist l IH lvl lvl' s Hq H).
  - rewrite encode_dict_eq, _encode_object_cases in H.
    destruct items as [|kv items].
    + inversion H; subst.
      repeat constructor; apply P_printable; vm_compute; split; discriminate.
    + apply expand_object_ok in H as [_ (outs & Houts & ->)];
        [|apply encode_values_balanced].
      apply expanded_text_P;
        try (repeat constructor; apply P_printable; vm_compute; split; discriminate).
      exact (entries_text_P (kv :: items) lvl outs IH Hq Houts).
Qed.
End TreeCharacters.

Lemma all_chars_any v : all_chars (fun _ => true) v = true.
Proof.
  induction v as [p|l IH|l IH|items IH] using pyval_nested_ind;
    cbn [all_chars].
  - destruct p; try reflexivity. now apply forallb_forall.
  - apply forallb_forall. rewrite Forall_forall in IH. exact IH.
  - apply forallb_forall. rewrite Forall_forall in IH. exact IH.
  - apply forallb_forall. rewrite Forall_forall in IH.
    intros kv Hkv. rewrite (IH kv Hkv), andb_true_r.
    destruct (fst kv); try reflexivity. now apply forallb_forall.
Qed.

(** X9: with [ensure_ascii] the output is ASCII.  When the indent is made
    of printable ASCII characters, the text that [encode] returns holds
    only printable ASCII characters and newlines, whatever the strings and
    keys of the tree: every other character is written as an escape. *)
Theorem ensure_ascii_output self v lvl lvl' s :
  ensure_ascii self = true ->
  Forall ascii_text (indent self) ->
  encode self v lvl = (lvl', Ok s) ->
  Forall ascii_text s.
Proof.
  intros Ha Hind H.
  apply (encode_text_P self ascii_text (fun _ => false)) with v lvl lvl';
    try assumption.
  - intros c Hc. now left.
  - now right.
  - discriminate.
  - now left.
Qed.

Lemma ensure_ascii_output_witness :
  let self := VSLJSONEncoder None true true false in
  let v := PDict [(KStr [233%N],
                   PList [Prim (PStr [9; 128512]%N); Prim (PInt 1)])] in
  Forall ascii_text (indent self) /\
  exists s, encode self v 0 = (0, Ok s) /\ Forall ascii_text s.
Proof.
  intros self v.
  assert (Hsp : ascii_text 32) by (left; vm_compute; split; discriminate).
  assert (Hind : Forall ascii_text (indent self))
    by exact (Forall_cons _ Hsp (Forall_cons _ Hsp (Forall_nil _))).
  split; [exact Hind|].
  destruct (encode self v 0) as [lvl' [s|e]] eqn:H;
    [|vm_compute in H; discriminate H].
  assert (Hs : Forall ascii_text s)
    by exact (ensure_ascii_output self v 0 lvl' s eq_refl Hind H).
  assert (Hl : lvl' = 0) by (vm_compute in H; congruence).
  subst lvl'. exists s. split; [reflexivity|exact Hs].
Defined.

(** X10: no raw control character.  Whatever the encoder and the tree, the
    text holds no character below 32 other than the newlines of the
    layout, provided the indent holds none: a tab, a carriage return or a
    newline inside a string or a key is always written as an escape. *)
Theorem no_raw_control_characters self v lvl lvl' s :
  Forall no_control (indent self) ->
  encode self v lvl = (lvl', Ok s) ->
  Forall no_control s.
Proof.
  intros Hind H.
  apply (encode_text_P self no_control (fun _ => true)) with v lvl lvl';
    try assumption.
  - intros c [Hc _]. now left.
  - now right.
  - intros c _ Hc. now left.
  - right. apply all_chars_any.
Qed.

Lemma no_raw_control_characters_witness :
  let v := PList [Prim (PStr [9; 13; 10; 0; 960]%N)] in
  exists s, dumps v = Ok s /\ Forall no_control s.
Proof.
  intros v. unfold dumps.
  assert (Hsp : no_control 32) by (left; vm_compute; discriminate).
  assert (Hind : Forall no_control (indent dumps_encoder))
    by exact (Forall_cons _ Hsp (Forall_cons _ Hsp (Forall_nil _))).
  destruct (encode dumps_encoder v 0) as [lvl' [s|e]] eqn:H;
    [|vm_compute in H; discriminate H].
  exists s. split; [reflexivity|].
  exact (no_raw_control_characters dumps_encoder v 0 lvl' s Hind H).
Defined.

(** ** [dump], then [load] *)

Lemma universal_newlines_id s :
  Forall (fun c => c <> 13%N) s -> universal_newlines s = s.
Proof.
  induction 1 as [|c s Hc _ IH]; [reflexivity|].
  cbn [universal_newlines]. apply N.eqb_neq in Hc. now rewrite Hc, IH.
Qed.

Lemma dump_writes data path fs raw_json :
  dumps data = Ok raw_json ->
  snd (dump data path fs) = Ok tt /\
  fst (dump data path fs) path = Some raw_json.
Proof.
  intros H. unfold dump. rewrite H. split; [reflexivity|].
  cbn [fst]. unfold write, open_w, fs_set. now rewrite !str_eqb_refl.
Qed.

(** The text [dumps] returns can be written to a UTF-8 file, when the
    strings of the tree can, and has no carriage return. *)
Lemma dumps_text_encodable v text :
  all_chars encodable v = true ->
  dumps v = Ok text ->
  Forall (fun c => no_control c /\ encodable c = true) text.
Proof.
  intros Hv Hd. unfold dumps in Hd.
  destruct (encode dumps_encoder v 0) as [lvl' [s|e]] eqn:H;
    cbn [snd] in Hd; inversion Hd; subst s.
  assert (Hsp : no_control 32 /\ encodable 32 = true)
    by (split; [left; vm_compute; discriminate|reflexivity]).
  apply (encode_text_P dumps_encoder
           (fun c => no_control c /\ encodable c = true) encodable)
    with v 0 lvl'.
  - intros c [H1 H2]. split; [now left|].
    unfold encodable. apply andb_true_iff. split.
    + apply orb_true_iff. left. apply N.ltb_lt. lia.
    + apply N.ltb_lt. lia.
  - split; [now right|reflexivity].
  - exact (Forall_cons _ Hsp (Forall_cons _ Hsp (Forall_nil _))).
  - intros c Hc Hge. split; [now left|exact Hc].
  - now right.
  - exact H.
Qed.

(** X11: a file written by [dump] is read back by [load].  For every JSON
    tree whose floats are reproduced by their rendering and whose strings
    hold no surrogate code point, [dump] returns, the text it writes is one
    the UTF-8 codec of the file encodes, and [load] of that file returns a
    tree structurally equal to the one written, whatever the file held
    before. *)
Theorem load_after_dump v path fs :
  json_tree float_reads_back v = true ->
  all_chars encodable v = true ->
  exists text w,
    snd (dump v path fs) = Ok tt /\
    fst (dump v path fs) path = Some text /\
    Forall (fun c => encodable c = true) text /\
    load path (fst (dump v path fs)) = Loaded w /\
    tree_eqb w v = true.
Proof.
  intros Hok Hchars.
  destruct (loads_dumps v (json_tree_reads_back v Hok)) as (text & Hd & Hl).
  destruct (dump_writes v path fs text Hd) as [Hret Hfile].
  pose proof (dumps_text_encodable v text Hchars Hd) as Htext.
  exists text, (sorted_tree v). repeat split.
  - exact Hret.
  - exact Hfile.
  - eapply Forall_impl; [|exact Htext]. now intros c [_ Hc].
  - unfold load. rewrite Hfile, universal_newlines_id, Hl; [reflexivity|].
    eapply Forall_impl; [|exact Htext].
    intros c [[Hc|Hc] _] ->; [now apply N.leb_le in Hc|discriminate Hc].
  - now apply sorted_tree_equal.
Qed.

Lemma load_after_dump_witness :
  let fs := fs_set (fun _ => None) (lit "scene.json") (lit "[1, 2]") in
  exists text w,
    snd (dump sample_tree (lit "scene.json") fs) = Ok tt /\
    fst (dump sample_tree (lit "scene.json") fs) (lit "scene.json")
    = Some text /\
    Forall (fun c => encodable c = true) text /\
    load (lit "scene.json") (fst (dump sample_tree (lit "scene.json") fs))
    = Loaded w /\
    tree_eqb w sample_tree = true.
Proof.
  intros fs.
  apply (load_after_dump sample_tree (lit "scene.json") fs);
    vm_compute; reflexivity.
Defined.

Lemma ws_only_universal_newlines s :
  ws_only s -> ws_only (universal_newlines s).
Proof.
  assert (H : forall n s, (List.length s <= n)%nat -> ws_only s ->
                          ws_only (universal_newlines s)).
  { induction n as [|n IH]; intros [|c t] Hlen Hs; try constructor;
      simpl in Hlen; try lia.
    inversion Hs as [|? ? Hc Ht]; subst. cbn [universal_newlines].
    destruct (c =? 13)%N.
    - constructor; [reflexivity|].
      destruct t as [|d t']; [constructor|].
      inversion Ht; subst. simpl in Hlen.
      destruct (d =? 10)%N; apply IH; simpl; try lia; assumption.
    - constructor; [exact Hc|]. apply IH; [lia|exact Ht]. }
  intros Hs. now apply (H (List.length s)).
Qed.

Lemma skip_ws_ws_only s : ws_only s -> skip_ws s = [].
Proof.
  induction 1 as [|c s Hc _ IH]; simpl; [reflexivity|]. now rewrite Hc.
Qed.

(** X12: the errors of [load].  A path without a file raises
    [FileNotFoundError]; a file that is empty, or holds nothing but spaces,
    tabs and line ends, raises [JSONDecodeError]. *)
Theorem load_errors path fs :
  (fs path = None -> load path fs = FileNotFoundError) /\
  (forall text,
      fs path = Some text -> ws_only text -> load path fs = JSONDecodeError).
Proof.
  split.
  - intros H. unfold load. now rewrite H.
  - intros text H Hws. unfold load, loads. rewrite H.
    rewrite (skip_ws_ws_only _ (ws_only_universal_newlines _ Hws)).
    now replace (2 * List.length (universal_newlines text) + 1)%nat
      with (S (2 * List.length (universal_newlines text))) by lia.
Qed.

Lemma load_errors_witness :
  load (lit "a.json") (fun _ => None) = FileNotFoundError /\
  load (lit "a.json") (fs_set (fun _ => None) (lit "a.json") [13; 10; 32]%N)
  = JSONDecodeError.
Proof.
  split.
  - now apply (load_errors (lit "a.json") (fun _ => None)).
  - apply (load_errors (lit "a.json")
             (fs_set (fun _ => None) (lit "a.json") [13; 10; 32]%N))
      with (text := [13; 10; 32]%N); [reflexivity|].
    repeat constructor.
Defined.

(** ** Floats that are not integers *)

Lemma lstrip_char_app c u w :
  lstrip_char c (u ++ w)
  = match lstrip_char c u with
    | [] => lstrip_char c w
    | r => r ++ w
    end.
Proof.
  induction u as [|x u IH]; simpl; [now destruct (lstrip_char c w)|].
  destruct (x =? c)%N; [exact IH|reflexivity].
Qed.

Lemma lstrip_char_head c s d t : lstrip_char c s = d :: t -> d <> c.
Proof.
  induction s as [|x s IH]; simpl; [discriminate|].
  destruct (N.eqb_spec x c) as [->|Hne]; [exact IH|].
  intros H. inversion H; subst. exact Hne.
Qed.

Lemma rstrip_app c a b :
  rstrip c b <> [] -> rstrip c (a ++ b) = a ++ rstrip c b.
Proof.
  unfold rstrip. intros H. rewrite rev_app_distr, lstrip_char_app.
  destruct (lstrip_char c (rev b)) as [|d t]; [now contradiction H|].
  now rewrite rev_app_distr, rev_involutive.
Qed.

Lemma rstrip_app_nil c a b :
  rstrip c b = [] -> rstrip c (a ++ b) = rstrip c a.
Proof.
  unfold rstrip. intros H. rewrite rev_app_distr, lstrip_char_app.
  destruct (lstrip_char c (rev b)) as [|d t]; [reflexivity|].
  simpl in H. now destruct (rev t).
Qed.

Lemma rstrip_snoc_ne c a d : d <> c -> rstrip c (a ++ [d]) = a ++ [d].
Proof.
  intros Hd.
  assert (H : rstrip c [d] = [d]).
  { unfold rstrip. simpl. apply N.eqb_neq in Hd. now rewrite Hd. }
  rewrite rstrip_app; rewrite H; [reflexivity|discriminate].
Qed.

Lemma rstrip_snoc_eq c a : rstrip c (a ++ [c]) = rstrip c a.
Proof.
  apply rstrip_app_nil. unfold rstrip. simpl. now rewrite N.eqb_refl.
Qed.

Lemma rstrip_last c s u d : rstrip c s = u ++ [d] -> d <> c.
Proof.
  unfold rstrip. intros H. apply (f_equal (@rev N)) in H.
  rewrite rev_involutive, rev_app_distr in H. simpl in H.
  exact (lstrip_char_head _ _ _ _ H).
Qed.

Lemma len_rstrip c s : len (rstrip c s) <= len s.
Proof.
  unfold rstrip, len. rewrite length_rev, <- (length_rev s).
  induction (rev s) as [|x t IH]; simpl; [lia|].
  destruct (x =? c)%N; simpl; lia.
Qed.

(** Dropping the zeros at the end of a decimal divides it by a power of
    ten. *)
Lemma rstrip_zero_value L :
  digits_value (rstrip 48 L) * 10 ^ (len L - len (rstrip 48 L))
  = digits_value L.
Proof.
  induction L as [|c L IH] using rev_ind; [reflexivity|].
  destruct (N.eqb_spec c 48) as [->|Hne].
  - rewrite rstrip_snoc_eq, digits_value_app, len_app.
    pose proof (len_rstrip 48 L) as Hle.
    replace (len L + len [48%N] - len (rstrip 48 L))
      with (len L - len (rstrip 48 L) + 1) by (unfold len; simpl; lia).
    rewrite Z.pow_add_r, Z.pow_1_r by lia.
    change (Z.of_N 48 - 48) with 0. lia.
  - rewrite rstrip_snoc_ne by exact Hne.
    rewrite Z.sub_diag. lia.
Qed.

Lemma pad6_digits r :
  Forall (fun c => is_digit c = true) (pad6 r) /\ len (pad6 r) = 6.
Proof.
  split; [|reflexivity].
  unfold pad6. apply Forall_map, Forall_forall. intros k _.
  apply digit_char_digit, Z.mod_pos_bound. lia.
Qed.

Lemma pad6_value r : 0 <= r < 10 ^ 6 -> digits_value (pad6 r) = r.
Proof.
  intros Hr. unfold pad6, digits_value. cbn [map fold_left].
  repeat match goal with
         | |- context [Z.of_N (digit_char ?d)] =>
             let H := fresh in
             destruct (digit_char_digit d) as (_ & H & _);
             [apply Z.mod_pos_bound; lia|];
             replace (Z.of_N (digit_char d)) with (d + 48) by lia; clear H
         end.
  change (10 ^ 0) with 1. change (10 ^ 1) with 10.
  change (10 ^ 2) with 100. change (10 ^ 3) with 1000.
  change (10 ^ 4) with 10000. change (10 ^ 5) with 100000.
  change (10 ^ 6) with 1000000 in Hr.
  rewrite Z.div_1_r.
  pose proof (Z.div_mod r 10 ltac:(lia)).
  pose proof (Z.div_mod (r / 10) 10 ltac:(lia)).
  pose proof (Z.div_mod (r / 10 / 10) 10 ltac:(lia)).
  pose proof (Z.div_mod (r / 10 / 10 / 10) 10 ltac:(lia)).
  pose proof (Z.div_mod (r / 10 / 10 / 10 / 10) 10 ltac:(lia)).
  pose proof (Z.div_mod (r / 10 / 10 / 10 / 10 / 10) 10 ltac:(lia)).
  assert (E2 : r / 100 = r / 10 / 10)
    by (rewrite Z.div_div by lia; reflexivity).
  assert (E3 : r / 1000 = r / 10 / 10 / 10)
    by (rewrite !Z.div_div by lia; reflexivity).
  assert (E4 : r / 10000 = r / 10 / 10 / 10 / 10)
    by (rewrite !Z.div_div by lia; reflexivity).
  assert (E5 : r / 100000 = r / 10 / 10 / 10 / 10 / 10)
    by (rewrite !Z.div_div by lia; reflexivity).
  assert (E6 : r / 10 / 10 / 10 / 10 / 10 / 10 = 0).
  { rewrite !Z.div_div by lia. apply Z.div_small. lia. }
  rewrite E2, E3, E4, E5. lia.
Qed.

Lemma round_half_even_near num den :
  0 < den -> 2 * Z.abs (num - round_half_even num den * den) <= den.
Proof.
  intros Hden. unfold round_half_even.
  pose proof (Z.div_mod num den ltac:(lia)) as Hdm.
  pose proof (Z.mod_pos_bound num den Hden) as Hmod.
  destruct (Z.compare_spec (2 * (num mod den)) den) as [Heq|Hlt|Hgt];
    [destruct (Z.even (num / den))| |]; nia.
Qed.

Lemma round_half_even_nonneg num den :
  0 < den -> 0 <= num -> 0 <= round_half_even num den.
Proof.
  intros Hden Hnum. unfold round_half_even.
  pose proof (Z.div_pos num den Hnum Hden).
  destruct (2 * (num mod den) ?= den); [destruct (Z.even (num / den))| |]; lia.
Qed.

Lemma nat_digits_last n :
  0 <= n -> exists u, nat_digits n = u ++ [digit_char (n mod 10)].
Proof.
  intros Hn. rewrite nat_digits_eq by exact Hn.
  destruct (Z.ltb_spec n 10).
  - exists []. now rewrite Z.mod_small by lia.
  - now exists (nat_digits (n / 10)).
Qed.

Lemma is_digit_not_point d : is_digit d = true -> d <> 46%N.
Proof.
  unfold is_digit. intros H ->. discriminate H.
Qed.

(** The text of a float that is not an integer, in parts. *)
Lemma encode_float_parts s m e :
  is_integer (S754_finite s m e) = false ->
  let q := scaled6 m e / 10 ^ 6 in
  let ds := rstrip 48 (pad6 (scaled6 m e mod 10 ^ 6)) in
  encode_float (S754_finite s m e)
  = sign_str s ++ nat_digits q ++
    match ds with [] => [] | _ :: _ => lit "." ++ ds end.
Proof.
  intros Hint q ds. unfold encode_float. rewrite Hint.
  cbn [format_06f]. unfold fixed6. fold q. subst ds.
  set (r := scaled6 m e mod 10 ^ 6) in *.
  assert (Hq : 0 <= q).
  { apply Z.div_pos; [|lia]. unfold scaled6.
    simpl in Hint. destruct (Z.leb_spec 0 e); [discriminate|].
    apply round_half_even_nonneg; [apply Z.pow_pos_nonneg|]; lia. }
  pose proof (rstrip_P (fun c => is_digit c = true) 48 (pad6 r)
                (proj1 (pad6_digits r))) as Hall.
  replace (sign_str s ++ nat_digits q ++ lit "." ++ pad6 r)
    with ((sign_str s ++ nat_digits q) ++ (lit "." ++ pad6 r))
    by now rewrite <- app_assoc.
  destruct (nat_digits_last q Hq) as [u Hu].
  assert (Hdq : digit_char (q mod 10) <> 46%N).
  { apply is_digit_not_point, digit_char_digit, Z.mod_pos_bound. lia. }
  destruct (rstrip 48 (pad6 r)) as [|d t] eqn:Hds.
  - assert (Hdot : rstrip 48 (lit "." ++ pad6 r) = lit ".")
      by now rewrite rstrip_app_nil.
    rewrite rstrip_app; rewrite Hdot; [|discriminate].
    change (lit ".") with [46%N]. rewrite rstrip_snoc_eq, Hu.
    rewrite !app_assoc, rstrip_snoc_ne by exact Hdq.
    now rewrite app_nil_r.
  - assert (Hdot : rstrip 48 (lit "." ++ pad6 r) = lit "." ++ d :: t)
      by (rewrite rstrip_app; rewrite Hds; [reflexivity|discriminate]).
    rewrite rstrip_app; rewrite Hdot; [|discriminate].
    destruct (exists_last (l := d :: t) ltac:(discriminate)) as (t' & z & Hz).
    assert (Hz46 : z <> 46%N).
    { apply is_digit_not_point. rewrite Hz in Hall.
      apply Forall_app in Hall as [_ Hall]. now inversion Hall. }
    rewrite Hz, !app_assoc, rstrip_snoc_ne by exact Hz46.
    reflexivity.
Qed.

(** X13: the text of a float that is not an integer.  It is the sign, the
    digits of an integer part [q] and, after a point, at most six digits
    [ds] of which the last is not 0; no point when no digit is left.  The
    decimal so written, scaled by [10^6], is the integer nearest to the
    float scaled by [10^6]: the text differs from the float by at most half
    a unit of the sixth decimal. *)
Theorem float_text_six_decimals s m e :
  is_integer (S754_finite s m e) = false ->
  exists q ds N,
    encode_float (S754_finite s m e)
    = sign_str s ++ nat_digits q ++
      match ds with [] => [] | _ :: _ => lit "." ++ ds end /\
    0 <= q /\
    len ds <= 6 /\
    Forall (fun c => is_digit c = true) ds /\
    (forall u, ds <> u ++ [48%N]) /\
    N = q * 10 ^ 6 + digits_value ds * 10 ^ (6 - len ds) /\
    e < 0 /\
    2 * Z.abs (Z.pos m * 10 ^ 6 - N * 2 ^ (- e)) <= 2 ^ (- e).
Proof.
  intros Hint.
  pose proof (encode_float_parts s m e Hint) as Htext. cbv zeta in Htext.
  assert (He : e < 0).
  { simpl in Hint. destruct (Z.leb_spec 0 e); [discriminate|lia]. }
  assert (Hpow : 0 < 2 ^ (- e)) by (apply Z.pow_pos_nonneg; lia).
  assert (Hn : scaled6 m e = round_half_even (Z.pos m * 10 ^ 6) (2 ^ (- e))).
  { unfold scaled6. destruct (Z.leb_spec 0 e); [lia|reflexivity]. }
  assert (Hn0 : 0 <= scaled6 m e).
  { rewrite Hn. apply round_half_even_nonneg; lia. }
  set (n := scaled6 m e) in *.
  set (r := n mod 10 ^ 6) in *.
  assert (Hr : 0 <= r < 10 ^ 6) by (apply Z.mod_pos_bound; lia).
  exists (n / 10 ^ 6), (rstrip 48 (pad6 r)), n.
  destruct (pad6_digits r) as [Hdig Hlen].
  pose proof (len_rstrip 48 (pad6 r)) as Hle.
  repeat split.
  - exact Htext.
  - apply Z.div_pos; lia.
  - lia.
  - now apply rstrip_P.
  - intros u Hu. now apply rstrip_last in Hu.
  - pose proof (rstrip_zero_value (pad6 r)) as Hv.
    rewrite Hlen, pad6_value in Hv by exact Hr. rewrite Hv.
    unfold r. pose proof (Z.div_mod n (10 ^ 6) ltac:(lia)). lia.
  - exact He.
  - rewrite Hn. now apply round_half_even_near.
Qed.

Lemma float_text_six_decimals_witness :
  encode_float float_0_1234567 = lit "0.123457" /\
  exists q ds N,
    encode_float float_0_1234567
    = sign_str false ++ nat_digits q ++
      match ds with [] => [] | _ :: _ => lit "." ++ ds end /\
    0 <= q /\
    len ds <= 6 /\
    Forall (fun c => is_digit c = true) ds /\
    (forall u, ds <> u ++ [48%N]) /\
    N = q * 10 ^ 6 + digits_value ds * 10 ^ (6 - len ds) /\
    -56 < 0 /\
    2 * Z.abs (8895992769862258 * 10 ^ 6 - N * 2 ^ (- -56)) <= 2 ^ (- -56).
Proof.
  split; [reflexivity|].
  exact (float_text_six_decimals false 8895992769862258 (-56) eq_refl).
Defined.

Lemma loads_of_parses text w : parses text w -> loads text = Some w.
Proof.
  intros [Hsolid Hscan]. unfold loads. rewrite (skip_ws_solid _ Hsolid).
  specialize (Hscan (2 * List.length text + 1)%nat [] I).
  rewrite app_nil_r in Hscan. now rewrite Hscan by lia.
Qed.

Lemma loads_int_repr n : loads (int_repr n) = Some (Prim (PInt n)).
Proof.
  apply loads_of_parses.
  pose proof (parses_number _ _ _ _ (match_number_int_repr n)) as H.
  cbv iota in H. now rewrite parse_int_int_repr in H.
Qed.

(** X14: a float that is not an integer but lies within half a millionth
    of one is written as that integer, without a point, and so reads back
    as an [int]: [0.9999999] is written [1], [1e-7] is written [0] and
    [-1e-7] is written [-0], which reads back as the integer 0. *)
Theorem float_rounded_to_integer_text s m e q :
  is_integer (S754_finite s m e) = false ->
  scaled6 m e = q * 10 ^ 6 ->
  encode_float (S754_finite s m e) = sign_str s ++ nat_digits q /\
  loads (encode_float (S754_finite s m e))
  = Some (Prim (PInt (if s then - q else q))).
Proof.
  intros Hint Hn.
  pose proof (encode_float_parts s m e Hint) as Htext. cbv zeta in Htext.
  rewrite Hn, Z.div_mul, Z.mod_mul in Htext by lia.
  change (rstrip 48 (pad6 0)) with (@nil N) in Htext.
  rewrite app_nil_r in Htext.
  assert (Hq : 0 <= q).
  { assert (H0 : 0 <= scaled6 m e).
    { unfold scaled6. simpl in Hint.
      destruct (Z.leb_spec 0 e); [discriminate|].
      apply round_half_even_nonneg; [apply Z.pow_pos_nonneg|]; lia. }
    lia. }
  split; [exact Htext|]. rewrite Htext.
  destruct s; cbn [sign_str].
  - destruct (Z.eq_dec q 0) as [->|Hne]; [reflexivity|].
    replace (lit "-" ++ nat_digits q) with (int_repr (- q)).
    + apply loads_int_repr.
    + unfold int_repr. destruct (Z.ltb_spec (- q) 0); [|lia].
      now rewrite Z.opp_involutive.
  - replace ([] ++ nat_digits q) with (int_repr q).
    + apply loads_int_repr.
    + unfold int_repr. now destruct (Z.ltb_spec q 0); [lia|].
Qed.

Lemma float_rounded_to_integer_text_witness :
  (encode_float float_0_9999999 = lit "1" /\
   loads (encode_float float_0_9999999) = Some (Prim (PInt 1))) /\
  (encode_float float_minus_1em7 = lit "-0" /\
   loads (encode_float float_minus_1em7) = Some (Prim (PInt 0))).
Proof.
  split.
  - exact (float_rounded_to_integer_text false 9007198354021067 (-53) 1
             eq_refl eq_refl).
  - exact (float_rounded_to_integer_text true 7555786372591432 (-76) 0
             eq_refl eq_refl).
Defined.

(** ** The text of a finite float is a JSON number *)

Lemma span_digits_stop ds rest :
  all_digits ds ->
  match rest with [] => True | c :: _ => is_digit c = false end ->
  span_digits (ds ++ rest) = (ds, rest).
Proof.
  intros Hds Hrest. induction Hds as [|c ds Hc _ IH].
  - destruct rest as [|c r]; [reflexivity|].
    cbn [app span_digits]. now rewrite Hrest.
  - cbn [app span_digits]. now rewrite Hc, IH.
Qed.

Lemma frac_part_head fp ep :
  frac_part fp -> exp_part ep ->
  match fp ++ ep with [] => True | c :: _ => is_digit c = false end.
Proof.
  intros [->|(ds & -> & _)] [->|(sg & es & -> & _)]; simpl; auto.
Qed.

Lemma match_frac_parts fp ep :
  frac_part fp -> exp_part ep -> match_frac (fp ++ ep) = (fp, ep).
Proof.
  intros [->|(ds & -> & Hne & Hds)] Hep.
  - destruct Hep as [->|(sg & es & -> & _)]; reflexivity.
  - change ((46%N :: ds) ++ ep) with (46%N :: (ds ++ ep)).
    unfold match_frac. change (46 =? 46)%N with true. cbv iota.
    rewrite span_digits_stop; [|exact Hds|].
    + destruct ds; [contradiction|reflexivity].
    + destruct Hep as [->|(sg & es & -> & _)]; simpl; auto.
Qed.

Lemma match_exp_parts ep : exp_part ep -> match_exp ep = (ep, []).
Proof.
  intros [->|(sg & es & -> & Hsg & Hne & Hes)]; [reflexivity|].
  unfold match_exp. change ((101 =? 101) || (101 =? 69))%N with true.
  cbv iota.
  assert (Hs : match_sign (sg :: es) = ([sg], es)).
  { unfold match_sign. now destruct Hsg as [->| ->]. }
  rewrite Hs. rewrite <- (app_nil_r es) at 1.
  rewrite span_digits_stop by (exact Hes || exact I).
  destruct es; [contradiction|reflexivity].
Qed.

Lemma match_unsigned_parts sg ip rest :
  int_part ip ->
  match rest with [] => True | c :: _ => is_digit c = false end ->
  match_unsigned sg (ip ++ rest) = Some (sg ++ ip, rest).
Proof.
  intros [->|(c & t & -> & Hc & Hall)] Hrest; [reflexivity|].
  unfold match_unsigned.
  change ((c :: t) ++ rest) with (c :: (t ++ rest)). cbv iota.
  rewrite Hc. inversion Hall as [|? ? Hd Ht]; subst. rewrite Hd.
  change (c :: (t ++ rest)) with ((c :: t) ++ rest).
  now rewrite span_digits_stop.
Qed.

Lemma int_part_head ip :
  int_part ip -> exists c t, ip = c :: t /\ (c =? 45)%N = false.
Proof.
  intros [->|(c & t & -> & _ & Hall)]; [now exists 48%N, []|].
  exists c, t. split; [reflexivity|].
  inversion Hall as [|? ? Hd _]; subst.
  unfold is_digit in Hd. apply andb_true_iff in Hd as [H1 H2].
  apply N.leb_le in H1. apply N.eqb_neq. lia.
Qed.

(** [NUMBER_RE] matches a number that is given by its parts, whole. *)
Lemma match_number_parts sg ip fp ep :
  sign_part sg -> int_part ip -> frac_part fp -> exp_part ep ->
  match_number (sg ++ ip ++ fp ++ ep) = Some (sg ++ ip, fp, ep, []).
Proof.
  intros Hsg Hip Hfp Hep.
  pose proof (frac_part_head fp ep Hfp Hep) as Hhead.
  assert (Hint : match_integer (sg ++ ip ++ fp ++ ep)
                 = Some (sg ++ ip, fp ++ ep)).
  { destruct Hsg as [->| ->].
    - cbn [app]. destruct (int_part_head ip Hip) as (c & t & Heq & Hc).
      subst ip. unfold match_integer.
      change ((c :: t) ++ fp ++ ep) with (c :: (t ++ fp ++ ep)).
      cbv iota. rewrite Hc.
      exact (match_unsigned_parts [] (c :: t) (fp ++ ep) Hip Hhead).
    - change ([45%N] ++ ip ++ fp ++ ep) with (45%N :: (ip ++ fp ++ ep)).
      unfold match_integer. change (45 =? 45)%N with true. cbv iota.
      now apply match_unsigned_parts. }
  unfold match_number. rewrite Hint, (match_frac_parts fp ep Hfp Hep).
  now rewrite (match_exp_parts ep Hep).
Qed.

Lemma all_digits_zeros n : all_digits (zeros n).
Proof. apply str_repeat_P. repeat constructor. Qed.

Lemma int_part_nat_digits n : 0 <= n -> int_part (nat_digits n).
Proof.
  intros Hn. destruct (Z.eq_dec n 0) as [->|Hne]; [now left|right].
  destruct (nat_digits_head n ltac:(lia)) as (c & t & Heq & Hz & _).
  exists c, t. split; [exact Heq|]. split; [exact Hz|].
  rewrite <- Heq. apply nat_digits_is_digit.
Qed.

Lemma exp_part_exp_str x : exp_part (lit "e" ++ exp_str x).
Proof.
  right. unfold exp_str.
  exists (if x <? 0 then 45%N else 43%N),
         ((if Z.abs x <? 10 then lit "0" else []) ++ nat_digits (Z.abs x)).
  repeat split.
  - now destruct (x <? 0).
  - destruct (x <? 0); auto.
  - intros H. apply app_eq_nil in H as [_ H].
    pose proof (nat_digits_nonempty (Z.abs x)) as Hne.
    rewrite H in Hne. unfold len in Hne. simpl in Hne. lia.
  - apply Forall_app. split; [|apply nat_digits_is_digit].
    destruct (Z.abs x <? 10); repeat constructor.
Qed.

(** The layout of [repr] for digits [d >= 1]: an integer part, and a
    fraction or an exponent. *)
Lemma repr_layout_parts d k :
  1 <= d ->
  exists ip fp ep,
    repr_layout d k = ip ++ fp ++ ep /\
    int_part ip /\ frac_part fp /\ exp_part ep /\ (fp <> [] \/ ep <> []).
Proof.
  intros Hd. unfold repr_layout.
  destruct (nat_digits_head d Hd) as (c & t & Heq & Hz & _).
  pose proof (nat_digits_is_digit d) as Hall. rewrite Heq in *.
  fold (all_digits (c :: t)) in Hall.
  set (nd := len (c :: t)).
  assert (Hnd : nd = 1 + len t)
    by (unfold nd, len; cbn [List.length]; lia).
  assert (Ht : all_digits t) by now inversion Hall.
  destruct ((k + nd <=? -4) || (16 <? k + nd)).
  - (* exponent notation *)
    exists [c], (if 1 <? nd then lit "." ++ t else []),
           (lit "e" ++ exp_str (k + nd - 1)).
    split; [reflexivity|]. split; [|split; [|split]].
    + right. exists c, []. repeat split; [exact Hz|].
      constructor; [now inversion Hall|constructor].
    + destruct (Z.ltb_spec 1 nd); [right|now left].
      exists t. repeat split; [|exact Ht].
      intros ->. unfold len in Hnd. cbn [List.length] in Hnd. lia.
    + apply exp_part_exp_str.
    + right. discriminate.
  - destruct (Z.leb_spec (k + nd) 0) as [Hle|Hgt].
    + (* zeros behind the point *)
      exists [48%N], (46%N :: (zeros (- (k + nd)) ++ c :: t)), [].
      split; [now rewrite app_nil_r|]. split; [now left|].
      split; [|split; [now left|left; discriminate]].
      right. eexists. split; [reflexivity|]. split.
      * intros H. now apply app_eq_nil in H as [_ H].
      * apply Forall_app. split; [apply all_digits_zeros|exact Hall].
    + destruct (Z.leb_spec nd (k + nd)) as [Hfits|Hsplit].
      * (* zeros in front of the point *)
        exists ((c :: t) ++ zeros (k + nd - nd)), (lit ".0"), [].
        split; [now rewrite app_nil_r, <- app_assoc|].
        split; [|split; [|split; [now left|left; discriminate]]].
        -- right. exists c, (t ++ zeros (k + nd - nd)).
           repeat split; [exact Hz|].
           apply (Forall_app _ (c :: t)). split;
             [exact Hall|apply all_digits_zeros].
        -- right. exists [48%N]. repeat split; [discriminate|].
           repeat constructor.
      * (* the point within the digits *)
        set (j := Z.to_nat (k + nd)).
        assert (Hj : (1 <= j < S (List.length t))%nat)
          by (unfold j, len in *; lia).
        exists (firstn j (c :: t)), (46%N :: skipn j (c :: t)), [].
        split; [now rewrite app_nil_r|].
        split; [|split; [|split; [now left|left; discriminate]]].
        -- right. destruct j as [|j']; [lia|].
           exists c, (firstn j' t). repeat split; [exact Hz|].
           change (c :: firstn j' t) with (firstn (S j') (c :: t)).
           now apply firstn_P.
        -- right. eexists. split; [reflexivity|]. split.
           ++ intros H. apply (f_equal (@List.length N)) in H.
              rewrite length_skipn in H. cbn [List.length] in H. lia.
           ++ now apply skipn_P.
Qed.

(** *** The digits of [repr] are not all zero *)

Section PositiveDigits.
Variable iv : interval.
Hypothesis Hden : 0 < den iv.
Hypothesis Hnum : den iv <= num iv.
Hypothesis Hbelow : below iv < num iv.

(** A decimal that reads back as the float is positive. *)
Lemma nearest_at_checked_pos k d : nearest_at true iv k = Some d -> 1 <= d.
Proof.
  unfold nearest_at. cbn [negb orb].
  set (a := if 0 <=? k then 10 ^ k else 1).
  set (b := if 0 <=? k then 1 else 10 ^ (- k)).
  assert (Ha : 0 < a).
  { unfold a. destruct (Z.leb_spec 0 k); [apply Z.pow_pos_nonneg|]; lia. }
  assert (Hb : 0 < b).
  { unfold b. destruct (Z.leb_spec 0 k); [|apply Z.pow_pos_nonneg]; lia. }
  set (u := a * den iv). set (v := num iv * b).
  set (lo := (num iv - below iv) * b). set (hi := (num iv + above iv) * b).
  assert (Hu : 0 < u) by (unfold u; nia).
  assert (Hlo : 0 < lo) by (unfold lo; nia).
  assert (Hd0 : 0 <= v / u) by (apply Z.div_pos; unfold v; nia).
  set (d0 := v / u) in *.
  assert (Hin : forall c,
             (if closed iv then (lo <=? c * u) && (c * u <=? hi)
              else (lo <? c * u) && (c * u <? hi)) = true -> 1 <= c).
  { intros c Hc.
    assert (0 < c * u).
    { destruct (closed iv); apply andb_true_iff in Hc as [Hc _];
        [apply Z.leb_le in Hc|apply Z.ltb_lt in Hc]; lia. }
    nia. }
  destruct (if closed iv then (lo <=? d0 * u) && (d0 * u <=? hi)
            else (lo <? d0 * u) && (d0 * u <? hi)) eqn:E0;
    destruct (if closed iv then (lo <=? (d0 + 1) * u) && ((d0 + 1) * u <=? hi)
              else (lo <? (d0 + 1) * u) && ((d0 + 1) * u <? hi)) eqn:E1;
    intros H; inversion H; subst; clear H.
  - pose proof (Hin _ E0).
    destruct (v - d0 * u ?= (d0 + 1) * u - v); [destruct (Z.even d0)| |]; lia.
  - exact (Hin _ E0).
  - lia.
Qed.

(** So is the nearest decimal with seventeen digits. *)
Lemma nearest_at_unchecked_pos k d :
  (if 0 <=? k then 10 ^ k else 1) * den iv
  <= num iv * (if 0 <=? k then 1 else 10 ^ (- k)) ->
  nearest_at false iv k = Some d -> 1 <= d.
Proof.
  unfold nearest_at. cbn [negb orb].
  set (a := if 0 <=? k then 10 ^ k else 1).
  set (b := if 0 <=? k then 1 else 10 ^ (- k)).
  intros Huv.
  assert (Ha : 0 < a).
  { unfold a. destruct (Z.leb_spec 0 k); [apply Z.pow_pos_nonneg|]; lia. }
  assert (Hd0 : 1 <= num iv * b / (a * den iv)).
  { apply Z.div_le_lower_bound; nia. }
  set (d0 := num iv * b / (a * den iv)) in *.
  intros H.
  destruct (num iv * b - d0 * (a * den iv)
            ?= (d0 + 1) * (a * den iv) - num iv * b);
    [destruct (Z.even d0)| |]; inversion H; lia.
Qed.

Lemma pow10_le_first t : t <= 0 -> pow10_le t (num iv) (den iv) = true.
Proof.
  intros Ht. unfold pow10_le. destruct (Z.leb_spec 0 t).
  - replace t with 0 by lia. apply Z.leb_le. lia.
  - apply Z.leb_le.
    assert (0 < 10 ^ (- t)) by (apply Z.pow_pos_nonneg; lia). nia.
Qed.

Lemma decpt_from_prev fuel : forall t0,
  pow10_le t0 (num iv) (den iv) = true ->
  pow10_le (decpt_from (S fuel) t0 (num iv) (den iv) - 1) (num iv) (den iv)
  = true.
Proof.
  induction fuel as [|fuel IH]; intros t0 H0.
  - cbn [decpt_from]. rewrite H0. now replace (t0 + 1 - 1) with t0 by lia.
  - change (decpt_from (S (S fuel)) t0 (num iv) (den iv))
      with (if pow10_le t0 (num iv) (den iv)
            then decpt_from (S fuel) (t0 + 1) (num iv) (den iv) else t0).
    rewrite H0.
    destruct (pow10_le (t0 + 1) (num iv) (den iv)) eqn:H1; [now apply IH|].
    cbn [decpt_from]. rewrite H1. now replace (t0 + 1 - 1) with t0 by lia.
Qed.

(** Below the decimal point of the float, powers of ten do not exceed
    it. *)
Lemma below_decimal_point k :
  k <= decimal_point (num iv) (den iv) - 1 ->
  (if 0 <=? k then 10 ^ k else 1) * den iv
  <= num iv * (if 0 <=? k then 1 else 10 ^ (- k)).
Proof.
  intros Hk.
  pose proof (decpt_from_prev 639 (-324) (pow10_le_first (-324) ltac:(lia)))
    as Hprev.
  fold (decimal_point (num iv) (den iv)) in Hprev.
  set (t := decimal_point (num iv) (den iv)) in *.
  unfold pow10_le in Hprev.
  destruct (Z.leb_spec 0 k) as [Hk0|Hk0].
  - destruct (Z.leb_spec 0 (t - 1)); [|lia]. apply Z.leb_le in Hprev.
    assert (10 ^ k <= 10 ^ (t - 1)) by (apply Z.pow_le_mono_r; lia).
    nia.
  - assert (Hp : 0 < 10 ^ (- k)) by (apply Z.pow_pos_nonneg; lia).
    destruct (Z.leb_spec 0 (t - 1)).
    + apply Z.leb_le in Hprev.
      assert (0 < 10 ^ (t - 1)) by (apply Z.pow_pos_nonneg; lia). nia.
    + apply Z.leb_le in Hprev.
      assert (10 ^ (- (t - 1)) <= 10 ^ (- k))
        by (apply Z.pow_le_mono_r; lia).
      nia.
Qed.

Lemma shortest_from_pos fuel : forall n d k,
  1 <= n ->
  shortest_from fuel iv (decimal_point (num iv) (den iv)) n = (d, k) ->
  1 <= d.
Proof.
  induction fuel as [|fuel IH]; intros n d k Hn; cbn [shortest_from].
  - pose proof (below_decimal_point
                  (decimal_point (num iv) (den iv) - n) ltac:(lia)) as Huv.
    destruct (nearest_at false iv (decimal_point (num iv) (den iv) - n))
      as [d'|] eqn:E.
    + intros H. inversion H; subst.
      exact (nearest_at_unchecked_pos _ _ Huv E).
    + exfalso. revert E. unfold nearest_at. cbn [negb orb]. discriminate.
  - destruct (nearest_at true iv (decimal_point (num iv) (den iv) - n))
      as [d'|] eqn:E.
    + intros H. inversion H; subst. exact (nearest_at_checked_pos _ _ E).
    + apply IH. lia.
Qed.
End PositiveDigits.

Lemma strip_zeros_pos fuel : forall d k d' k',
  1 <= d -> strip_zeros fuel d k = (d', k') -> 1 <= d'.
Proof.
  induction fuel as [|fuel IH]; intros d k d' k' Hd; cbn [strip_zeros].
  - intros H. inversion H; subst. exact Hd.
  - destruct ((d mod 10 =? 0) && (0 <? d)) eqn:E.
    + apply andb_true_iff in E as [Hmod _]. apply Z.eqb_eq in Hmod.
      apply IH. pose proof (Z.div_mod d 10 ltac:(lia)). lia.
    + intros H. inversion H; subst. exact Hd.
Qed.

(** The interval of a float that is an integer: its value is at least 1. *)
Lemma integral_interval_bounds s m e :
  is_integer (S754_finite s m e) = true ->
  let iv := rounding_interval m e in
  0 < den iv /\ den iv <= num iv /\ below iv < num iv.
Proof.
  intros Hint. unfold rounding_interval. cbn [num den below].
  simpl in Hint.
  destruct (Z.leb_spec 2 e) as [He2|He2].
  - assert (Hp : 0 < 2 ^ (e - 2)) by (apply Z.pow_pos_nonneg; lia).
    destruct ((Z.pos m =? 2 ^ 52) && (-1074 <? e)); nia.
  - assert (Hp : 0 < 2 ^ (2 - e)) by (apply Z.pow_pos_nonneg; lia).
    assert (Hle : 2 ^ (2 - e) <= 4 * Z.pos m * 1).
    { destruct (Z.leb_spec 0 e) as [He0|He0].
      - assert (2 ^ (2 - e) <= 2 ^ 2) by (apply Z.pow_le_mono_r; lia).
        change (2 ^ 2) with 4 in *. lia.
      - apply Z.eqb_eq in Hint.
        assert (Hq : 0 < 2 ^ (- e)) by (apply Z.pow_pos_nonneg; lia).
        pose proof (Z.div_mod (Z.pos m) (2 ^ (- e)) ltac:(lia)) as Hdm.
        rewrite Hint in Hdm.
        assert (1 <= Z.pos m / 2 ^ (- e)) by nia.
        replace (2 - e) with (2 + - e) by lia.
        rewrite Z.pow_add_r by lia. change (2 ^ 2) with 4. nia. }
    split; [exact Hp|]. split; [exact Hle|].
    destruct ((Z.pos m =? 2 ^ 52) && (-1074 <? e)); lia.
Qed.

Lemma shortest_digits_pos s m e d k :
  is_integer (S754_finite s m e) = true ->
  shortest_digits m e = (d, k) -> 1 <= d.
Proof.
  intros Hint. unfold shortest_digits.
  destruct (integral_interval_bounds s m e Hint) as (Hden & Hnum & Hbelow).
  set (iv := rounding_interval m e) in *.
  destruct (shortest_from 16 iv (decimal_point (num iv) (den iv)) 1)
    as [d0 k0] eqn:E.
  pose proof (shortest_from_pos iv Hden Hnum Hbelow 16 1 d0 k0 ltac:(lia) E).
  now apply strip_zeros_pos.
Qed.

(** The text of a finite float is a JSON number: [NUMBER_RE] matches all
    of it. *)
Lemma encode_float_number x :
  is_finite x = true ->
  exists sg ip fp ep,
    encode_float x = sg ++ ip ++ fp ++ ep /\
    sign_part sg /\ int_part ip /\ frac_part fp /\ exp_part ep /\
    (is_integer x = true -> fp <> [] \/ ep <> []).
Proof.
  assert (Hsign : forall s, sign_part (sign_str s))
    by (intros [|]; [now right|now left]).
  destruct x as [s|s| |s m e]; try discriminate; intros _.
  - exists (sign_str s), [48%N], (lit ".0"), [].
    split; [now destruct s|]. repeat split; auto.
    + now left.
    + right. exists [48%N]. repeat split; [discriminate|repeat constructor].
    + now left.
    + intros _. left. discriminate.
  - destruct (is_integer (S754_finite s m e)) eqn:Hint.
    + unfold encode_float. rewrite Hint. cbn [float_repr].
      destruct (shortest_digits m e) as [d k] eqn:Hsd.
      pose proof (shortest_digits_pos s m e d k Hint Hsd) as Hd.
      destruct (repr_layout_parts d k Hd)
        as (ip & fp & ep & -> & Hip & Hfp & Hep & Hfloat).
      exists (sign_str s), ip, fp, ep. repeat split; auto.
    + pose proof (encode_float_parts s m e Hint) as Htext. cbv zeta in Htext.
      set (q := scaled6 m e / 10 ^ 6) in *.
      set (ds := rstrip 48 (pad6 (scaled6 m e mod 10 ^ 6))) in *.
      assert (Hq : 0 <= q).
      { apply Z.div_pos; [|lia]. unfold scaled6. simpl in Hint.
        destruct (Z.leb_spec 0 e); [discriminate|].
        apply round_half_even_nonneg; [apply Z.pow_pos_nonneg|]; lia. }
      assert (Hds : all_digits ds)
        by (apply rstrip_P, pad6_digits).
      exists (sign_str s), (nat_digits q),
             (match ds with [] => [] | _ :: _ => lit "." ++ ds end), [].
      split; [now rewrite app_nil_r|]. repeat split; auto.
      * now apply int_part_nat_digits.
      * destruct ds as [|c t]; [now left|right].
        exists (c :: t). repeat split; [discriminate|exact Hds].
      * now left.
      * discriminate.
Qed.

(** ** The output is JSON *)

Lemma parses_float_text x :
  is_finite x = true ->
  exists w,
    parses (encode_float x) (Prim w) /\
    (is_integer x = true -> exists y, w = PFloat y).
Proof.
  intros Hfin.
  destruct (encode_float_number x Hfin)
    as (sg & ip & fp & ep & Htext & Hsg & Hip & Hfp & Hep & Hfloat).
  pose proof (match_number_parts sg ip fp ep Hsg Hip Hfp Hep) as Hnum.
  rewrite <- Htext in Hnum.
  eexists. split; [exact (parses_number _ _ _ _ Hnum)|].
  intros Hint. destruct (Hfloat Hint) as [Hne|Hne].
  - destruct fp; [contradiction|]. eexists. reflexivity.
  - destruct fp, ep; try contradiction; eexists; reflexivity.
Qed.

(** X15: a float whose value is an integer keeps its type.  Its text has
    a fraction or an exponent, whatever its size, so that [loads] reads it
    as a [float] again, never as an [int]. *)
Theorem integral_float_reads_as_float x :
  is_finite x = true ->
  is_integer x = true ->
  exists y, loads (encode_float x) = Some (Prim (PFloat y)).
Proof.
  intros Hfin Hint.
  destruct (parses_float_text x Hfin) as (w & Hw & Hfloat).
  destruct (Hfloat Hint) as [y ->].
  exists y. now apply loads_of_parses.
Qed.

Lemma integral_float_reads_as_float_witness :
  encode_float (S754_finite false 5000000000000000 1) = lit "1e+16" /\
  exists y,
    loads (encode_float (S754_finite false 5000000000000000 1))
    = Some (Prim (PFloat y)).
Proof.
  split; [vm_compute; reflexivity|].
  exact (integral_float_reads_as_float
           (S754_finite false 5000000000000000 1) eq_refl eq_refl).
Defined.

Lemma readable_prim p :
  writable is_finite (Prim p) = true -> readable (Prim p).
Proof.
  intros Hok lvl. destruct p as [|b|n|x|s|]; try discriminate Hok.
  4: { cbn [writable] in Hok.
       destruct (parses_float_text x Hok) as (w & Hw & _).
       exists (encode_float x), (Prim w). now split. }
  all: match goal with
       | |- exists text w, encode _ (Prim ?p) _ = _ /\ _ =>
           destruct (parses_prim p lvl eq_refl) as (text & Henc & Hp);
           exists text, (Prim p); now split
       end.
Qed.

Lemma texts_readable {A : Type} (get : A -> pyval) (l : list A) lvl :
  Forall (fun el => readable (get el)) l ->
  exists texts vals,
    Forall2 (fun el t => encode dumps_encoder (get el) lvl = (lvl, Ok t))
            l texts /\
    Forall2 parses texts vals.
Proof.
  induction 1 as [|el l Hel _ IH].
  - exists [], []. split; constructor.
  - destruct (Hel lvl) as (t & w & Ht & Hp).
    destruct IH as (ts & ws & Hts & Hps).
    exists (t :: ts), (w :: ws). split; constructor; assumption.
Qed.

Lemma readable_list l : Forall readable l -> readable (PList l).
Proof.
  intros Hl lvl.
  destruct (texts_readable (fun el => el) l lvl Hl)
    as (parts & vals & Hparts & Hpp).
  destruct (texts_readable (fun el => el) l (lvl + 1) Hl)
    as (outs & vals' & Houts & Hpo).
  assert (Hexp : expand_list dumps_encoder (encode dumps_encoder) l lvl
                 = (lvl, Ok (expanded_text (lit "[") (lit "]")
                               (indent dumps_encoder) lvl
                               (map (fun out => str_repeat (lvl + 1)
                                                  (indent dumps_encoder) ++ out)
                                    outs))))
    by now apply expand_list_run.
  pose proof (parses_expanded (indent dumps_encoder) lvl outs vals'
                ws_only_indent Hpo) as Hpe.
  rewrite encode_list_eq, _encode_list_cases.
  destruct (negb (existsb is_container l) && (len l <=? MAX_ITEMS));
    [|now eauto].
  rewrite (for_each_run _ _ _ _ Hparts).
  destruct (len (inline_text parts) + lvl * 2 <? MAX_WIDTH); [|now eauto].
  exists (inline_text parts), (PList vals).
  split; [reflexivity|now apply parses_inline].
Qed.

Lemma readable_tuple l : Forall readable l -> readable (PTuple l).
Proof.
  intros Hl lvl. destruct (readable_list l Hl lvl) as (text & w & Henc & Hp).
  exists text, w. split; [|exact Hp].
  now rewrite encode_tuple_eq, <- encode_list_eq.
Qed.

Lemma entries_parse (es : list (pystr * pyval)) outs vals :
  List.length es = List.length outs ->
  Forall2 parses outs vals ->
  let kos := combine (map fst es) outs in
  (forall f : pystr * pystr -> pystr,
      map (fun eo : (pystr * pyval) * pystr => f (fst (fst eo), snd eo))
          (combine es outs)
      = map f kos) /\
  Forall2 (fun ko v => parses (snd ko) v) kos vals /\
  (es <> [] -> kos <> []).
Proof.
  intros Hlen Hp. revert es Hlen.
  induction Hp as [|out v outs vals Hout _ IH]; intros [|e es] Hlen;
    try discriminate Hlen; cbn zeta.
  - repeat split; try constructor. intros H. contradiction.
  - injection Hlen as Hlen. destruct (IH es Hlen) as (Hmap & Hkos & _).
    cbn [map combine fst snd]. repeat split.
    + intros f. now rewrite Hmap.
    + constructor; [exact Hout|exact Hkos].
    + discriminate.
Qed.

Lemma readable_dict items :
  Forall (fun kv => readable (snd kv)) items -> readable (PDict items).
Proof.
  intros Hitems lvl. rewrite encode_dict_eq, _encode_object_cases.
  destruct items as [|kv items].
  - exists (lit "{}"), (PDict []). split; [reflexivity|].
    apply parses_empty_object.
  - set (o := kv :: items) in *.
    assert (Hne : o <> []) by discriminate.
    pose proof (object_entries_Forall readable dumps_encoder o Hitems)
      as Hentries.
    destruct (texts_readable snd _ (lvl + 1) Hentries)
      as (outs & vals & Houts & Hpo).
    rewrite (expand_object_run _ _ _ _ _ Houts).
    destruct (entries_parse (object_entries dumps_encoder o) outs vals
                (Forall2_length Houts) Hpo) as (Hmap & Hkos & Hkne).
    pose (F := (fun ko : pystr * pystr =>
                  str_repeat (lvl + 1) (indent dumps_encoder)
                  ++ encode_basestring (fst ko) ++ lit ": " ++ snd ko)
               : pystr * pystr -> pystr).
    eexists. eexists. split; [reflexivity|].
    change (map (fun ko : pystr * pyval * pystr =>
                   entry_line dumps_encoder lvl (fst (fst ko)) (snd ko))
                (combine (object_entries dumps_encoder o) outs))
      with (@map (pystr * pyval * pystr) pystr
                 (fun eo => F (fst (fst eo), snd eo))
                 (combine (object_entries dumps_encoder o) outs)).
    rewrite (Hmap F). unfold F.
    apply parses_object;
      [apply ws_only_indent
      |apply Hkne, object_entries_nonempty, Hne|exact Hkos].
Qed.

Lemma writable_readable v : writable is_finite v = true -> readable v.
Proof.
  induction v as [p|l IH|l IH|items IH] using pyval_nested_ind; intros Hok.
  - now apply readable_prim.
  - apply readable_list. cbn [writable] in Hok.
    rewrite forallb_forall in Hok. rewrite Forall_forall in *. auto.
  - apply readable_tuple. cbn [writable] in Hok.
    rewrite forallb_forall in Hok. rewrite Forall_forall in *. auto.
  - apply readable_dict. cbn [writable] in Hok.
    rewrite forallb_forall in Hok. rewrite Forall_forall in *. auto.
Qed.

(** X16: the output is JSON.  For every tree that holds no unserialisable
    object and no NaN or infinity, with keys of any kind and floats of any
    size, [dumps] returns a text that [loads] accepts. *)
Theorem dumps_output_is_json v :
  writable is_finite v = true ->
  exists text w, dumps v = Ok text /\ loads text = Some w.
Proof.
  intros Hok.
  destruct (writable_readable v Hok 0) as (text & w & Henc & Hp).
  exists text, w. unfold dumps. rewrite Henc.
  split; [reflexivity|now apply loads_of_parses].
Qed.

Lemma dumps_output_is_json_witness :
  exists text w,
    dumps (PList [Prim (PFloat float_0_1234567); Prim (PFloat float_minus_1em7);
                  mixed_keys_tree])
    = Ok text /\ loads text = Some w.
Proof.
  apply (dumps_output_is_json
           (PList [Prim (PFloat float_0_1234567);
                   Prim (PFloat float_minus_1em7); mixed_keys_tree])).
  reflexivity.
Defined.

(** ** [allow_nan] *)

(** X17: the option [allow_nan] has no effect.  Whatever the tree, the
    encoder returns the same text, or raises the same exception, with
    [allow_nan] set as with [allow_nan] unset: the check that [json.dumps]
    makes of floats is never reached. *)
Theorem allow_nan_is_ignored self b v :
  forall lvl, encode (with_allow_nan b self) v lvl = encode self v lvl.
Proof.
  induction v as [p|l IH|l IH|items IH] using pyval_nested_ind; intros lvl.
  - now destruct p.
  - rewrite !encode_list_eq.
    change (_encode_list (with_allow_nan b self))
      with (_encode_list (V:=pyval) self).
    apply _encode_list_ext; [|exact IH].
    now apply Forall_forall.
  - rewrite !encode_tuple_eq.
    change (_encode_list (with_allow_nan b self))
      with (_encode_list (V:=pyval) self).
    apply _encode_list_ext; [|exact IH].
    now apply Forall_forall.
  - rewrite !encode_dict_eq.
    change (_encode_object (with_allow_nan b self))
      with (_encode_object (V:=pyval) self).
    now apply _encode_object_ext.
Qed.

(** ** Equal trees have the same text *)

Lemma prim_eqb_eq p q : prim_eqb p q = true -> p = q.
Proof.
  destruct p, q; simpl; try discriminate; intros H; try reflexivity.
  - now apply Bool.eqb_prop in H as ->.
  - now apply Z.eqb_eq in H as ->.
  - now apply float_eqb_eq in H as ->.
  - now apply str_eqb_eq in H as ->.
Qed.

Lemma NoDup_map_same {A B : Type} (f : A -> B) l a b :
  NoDup (map f l) -> In a l -> In b l -> f a = f b -> a = b.
Proof.
  induction l as [|x l IH]; simpl; [tauto|].
  intros Hnd Ha Hb Hf. inversion Hnd as [|? ? Hx Hl]; subst.
  destruct Ha as [->|Ha], Hb as [->|Hb]; auto.
  - exfalso. apply Hx. rewrite Hf. now apply in_map.
  - exfalso. apply Hx. rewrite <- Hf. now apply in_map.
Qed.

Lemma lookup_key_Some {V : Type} k (items : list (pykey * V)) y :
  lookup_key k items = Some y ->
  exists k', In (k', y) items /\ key_eqb k' k = true.
Proof.
  induction items as [|[k0 v0] items IH]; simpl; [discriminate|].
  destruct (key_eqb k0 k) eqn:E.
  - intros H. inversion H; subst. exists k0. auto.
  - intros H. destruct (IH H) as (k' & Hin & Hk). exists k'. auto.
Qed.

Lemma key_eqb_str k k' :
  is_str_key k = true -> key_eqb k' k = true -> k' = k.
Proof.
  destruct k, k'; simpl; try discriminate. intros _ H.
  now apply str_eqb_eq in H as ->.
Qed.

Section EqualObjects.
Variables d d' : list (pykey * pyval).
Hypothesis Hkeys : Forall (fun kv => is_str_key (fst kv) = true) d.
Hypothesis Hnd : NoDup (map (fun kv => key_text (fst kv)) d).
Hypothesis Hnd' : NoDup (map (fun kv => key_text (fst kv)) d').
Hypothesis Hlen : List.length d = List.length d'.
Hypothesis Hsame :
  forall k v, In (k, v) d ->
              exists y, In (k, y) d' /\ sorted_tree v = sorted_tree y.

Lemma equal_objects_keys k y :
  In (k, y) d' -> exists v, In (k, v) d.
Proof.
  intros Hin.
  assert (Hincl : incl (map (fun kv => key_text (fst kv)) d)
                       (map (fun kv => key_text (fst kv)) d')).
  { intros t Ht. apply in_map_iff in Ht as ([k0 v0] & <- & H0).
    destruct (Hsame k0 v0 H0) as (y0 & Hy0 & _).
    apply in_map_iff. now exists (k0, y0). }
  assert (Hrev : incl (map (fun kv => key_text (fst kv)) d')
                      (map (fun kv => key_text (fst kv)) d)).
  { apply NoDup_length_incl; [exact Hnd| |exact Hincl].
    rewrite !length_map. lia. }
  assert (Hback : In (key_text k) (map (fun kv => key_text (fst kv)) d)).
  { apply Hrev, in_map_iff. now exists (k, y). }
  apply in_map_iff in Hback as ([k0 v0] & Hk & H0). cbn [fst] in Hk.
  destruct (Hsame k0 v0 H0) as (y0 & Hy0 & _).
  assert (Heq : (k0, y0) = (k, y))
    by exact (NoDup_map_same _ _ _ _ Hnd' Hy0 Hin Hk).
  inversion Heq; subst. now exists v0.
Qed.

Lemma equal_objects_entries :
  object_entries dumps_encoder (map (on_snd sorted_tree) d)
  = object_entries dumps_encoder (map (on_snd sorted_tree) d').
Proof.
  apply object_entries_reordered; [reflexivity|].
  split; [|split].
  - rewrite map_map. exact Hnd.
  - rewrite map_map. exact Hnd'.
  - intros [k w]. rewrite !in_map_iff. split.
    + intros ([k0 v0] & Heq & H0). unfold on_snd in Heq. cbn [fst snd] in Heq.
      inversion Heq; subst.
      destruct (Hsame k v0 H0) as (y & Hy & Hst).
      exists (k, y). split; [|exact Hy].
      unfold on_snd. cbn [fst snd]. now rewrite Hst.
    + intros ([k1 y] & Heq & H1). unfold on_snd in Heq. cbn [fst snd] in Heq.
      inversion Heq; subst.
      destruct (equal_objects_keys k y H1) as (v & Hv).
      destruct (Hsame k v Hv) as (y0 & Hy0 & Hst).
      assert (Hy : (k, y0) = (k, y))
        by exact (NoDup_map_same _ _ _ _ Hnd' Hy0 H1 eq_refl).
      inversion Hy; subst.
      exists (k, v). split; [|exact Hv].
      unfold on_snd. cbn [fst snd]. now rewrite Hst.
Qed.
End EqualObjects.

Lemma json_tree_dict f items :
  json_tree f (PDict items) = true ->
  Forall (fun kv => is_str_key (fst kv) = true) items /\
  (forall kv, In kv items -> json_tree f (snd kv) = true) /\
  NoDup (map (fun kv => key_text (fst kv)) items).
Proof.
  cbn [json_tree]. intros H. apply andb_true_iff in H as [Hall Hdist].
  rewrite forallb_forall in Hall. repeat split.
  - apply Forall_forall. intros kv Hkv.
    specialize (Hall kv Hkv). now apply andb_true_iff in Hall.
  - intros kv Hkv. specialize (Hall kv Hkv).
    now apply andb_true_iff in Hall.
  - now apply distinct_NoDup.
Qed.

(** Structurally equal trees have the same normal form. *)
Lemma tree_eqb_sorted_tree f a :
  forall b,
    json_tree f a = true -> json_tree f b = true ->
    tree_eqb a b = true -> sorted_tree a = sorted_tree b.
Proof.
  induction a as [p|l IH|l IH|items IH] using pyval_nested_ind;
    intros b Ha Hb Heq.
  - destruct b as [q| | |]; try discriminate Heq.
    cbn [tree_eqb] in Heq. now apply prim_eqb_eq in Heq as ->.
  - destruct b as [|l'| |]; try discriminate Heq.
    rewrite tree_eqb_list in Heq. cbn [sorted_tree json_tree] in *. f_equal.
    revert l' Hb Heq.
    induction IH as [|x l Hx _ IHl]; intros [|y l'] Hb Heq;
      try discriminate Heq; [reflexivity|].
    cbn [forallb] in Ha, Hb.
    apply andb_true_iff in Ha as [Hxa Hla].
    apply andb_true_iff in Hb as [Hyb Hlb].
    apply andb_true_iff in Heq as [Hxy Hll].
    cbn [map]. f_equal; [now apply Hx|now apply IHl].
  - discriminate Ha.
  - destruct b as [| | |items']; try discriminate Heq.
    cbn [tree_eqb] in Heq. apply andb_true_iff in Heq as [Hlen Hall].
    apply Nat.eqb_eq in Hlen. rewrite forallb_forall in Hall.
    destruct (json_tree_dict f items Ha) as (Hkeys & Hvals & Hnd).
    destruct (json_tree_dict f items' Hb) as (_ & Hvals' & Hnd').
    cbn [sorted_tree]. do 2 f_equal.
    change (map (fun kv : pykey * pyval => (fst kv, sorted_tree (snd kv))) items)
      with (map (on_snd sorted_tree) items).
    change (map (fun kv : pykey * pyval => (fst kv, sorted_tree (snd kv))) items')
      with (map (on_snd sorted_tree) items').
    apply equal_objects_entries; try assumption.
    intros k v Hin. specialize (Hall _ Hin). cbn [fst snd] in Hall.
    destruct (lookup_key k items') as [y|] eqn:Hlook; [|discriminate].
    apply lookup_key_Some in Hlook as (k' & Hy & Hk).
    rewrite Forall_forall in Hkeys. pose proof (Hkeys _ Hin) as Hstr.
    cbn [fst] in Hstr. apply (key_eqb_str _ _ Hstr) in Hk. subst k'.
    exists y. split; [exact Hy|].
    rewrite Forall_forall in IH.
    exact (IH _ Hin y (Hvals _ Hin) (Hvals' _ Hy) Hall).
Qed.

(** X18: the text is canonical.  Two JSON trees that are structurally
    equal, the order of the items of their objects left aside at every
    depth, are given the same text by [dumps]. *)
Theorem equal_trees_same_text f a b :
  json_tree f a = true ->
  json_tree f b = true ->
  tree_eqb a b = true ->
  dumps a = dumps b.
Proof.
  intros Ha Hb Heq. unfold dumps.
  rewrite <- (encode_sorted_tree a), <- (encode_sorted_tree b).
  now rewrite (tree_eqb_sorted_tree f a b Ha Hb Heq).
Qed.

Lemma equal_trees_same_text_witness :
  let a := PDict [(KStr (lit "x"), PDict [(KStr (lit "b"), Prim (PInt 1));
                                          (KStr (lit "a"), Prim PNone)]);
                  (KStr (lit "k"), PList [Prim (PFloat S754_nan)])] in
  let b := PDict [(KStr (lit "k"), PList [Prim (PFloat S754_nan)]);
                  (KStr (lit "x"), PDict [(KStr (lit "a"), Prim PNone);
                                          (KStr (lit "b"), Prim (PInt 1))])] in
  dumps a = dumps b.
Proof.
  intros a b.
  apply (equal_trees_same_text (fun _ => true) a b); reflexivity.
Defined.

(** ** The depth counter after an exception *)

Lemma steady_bind {A B : Type} (c : M A) (k : A -> M B) :
  steady c -> (forall a, steady (k a)) -> steady (bind c k).
Proof.
  intros Hc Hk lvl. unfold bind. specialize (Hc lvl).
  destruct (c lvl) as [lvl1 [a|e]]; [|exact Hc].
  subst lvl1. apply Hk.
Qed.

Lemma steady_ret {A : Type} (a : A) : steady (ret a).
Proof. intros lvl. reflexivity. Qed.

Lemma steady_for_each {A B : Type} (f : A -> M B) o :
  Forall (fun el => steady (f el)) o -> steady (for_each f o).
Proof.
  induction 1 as [|el o Hel _ IH]; cbn [for_each]; [apply steady_ret|].
  apply steady_bind; [exact Hel|]. intros x.
  apply steady_bind; [exact IH|]. intros xs. apply steady_ret.
Qed.

(** What stands between [indentation_level += 1] and
    [indentation_level -= 1]: an exception leaves the counter raised. *)
Lemma steady_between {A B : Type} (c : M A) (k : A -> M B) :
  steady c -> (forall a, steady (k a)) ->
  steady (add_level 1 ;; x <- c ;; add_level (-1) ;; k x).
Proof.
  intros Hc Hk lvl. unfold bind at 1. cbn [add_level].
  unfold bind at 1. specialize (Hc (lvl + 1)).
  destruct (c (lvl + 1)) as [lvl1 [a|e]]; [|lia].
  subst lvl1. unfold bind at 1. cbn [add_level].
  replace (lvl + 1 + -1) with lvl by lia. apply Hk.
Qed.

Lemma steady_line self (c : M pystr) (g : pystr -> pystr -> pystr) :
  steady c ->
  steady (i <- indent_str self ;; s <- c ;; ret (g i s)).
Proof.
  intros Hc. apply steady_bind; [intros lvl; reflexivity|].
  intros i. apply steady_bind; [exact Hc|]. intros s. apply steady_ret.
Qed.

Section SteadyMethods.
Variable self : encoder.
Context {V : Type}.
Variable enc : V -> M pystr.

Lemma steady_expand_list o :
  Forall (fun el => steady (enc el)) o -> steady (expand_list self enc o).
Proof.
  intros H. unfold expand_list. apply steady_between.
  - apply steady_for_each. eapply Forall_impl; [|exact H].
    intros el Hel. exact (steady_line self (enc el) (fun i s => i ++ s) Hel).
  - intros output. apply steady_bind; [intros lvl; reflexivity|].
    intros i. apply steady_ret.
Qed.

Lemma steady_encode_list isc o :
  Forall (fun el => steady (enc el)) o ->
  steady (_encode_list self isc enc o).
Proof.
  intros H lvl. rewrite _encode_list_cases.
  pose proof (steady_expand_list o H lvl) as Hexp.
  destruct (negb (existsb isc o) && (len o <=? MAX_ITEMS)); [|exact Hexp].
  pose proof (steady_for_each enc o H lvl) as Hparts.
  destruct (for_each enc o lvl) as [lvl1 [parts|e]]; [|exact Hparts].
  subst lvl1.
  destruct (len (inline_text parts) + lvl * 2 <? MAX_WIDTH);
    [reflexivity|exact Hexp].
Qed.

Lemma steady_encode_object o :
  Forall (fun kv => steady (enc (snd kv))) o ->
  steady (_encode_object self enc o).
Proof.
  intros H. rewrite _encode_object_cases.
  destruct o as [|kv o]; [apply steady_ret|].
  apply (object_entries_Forall (fun v => steady (enc v)) self) in H.
  unfold on_value in H.
  unfold expand_object. apply steady_between.
  - apply steady_for_each. eapply Forall_impl; [|exact H].
    intros el Hel.
    exact (steady_line self (enc (snd el))
             (fun i s => i ++ json_dumps_key self (fst el) ++ lit ": " ++ s)
             Hel).
  - intros output. apply steady_bind; [intros lvl; reflexivity|].
    intros i. apply steady_ret.
Qed.
End SteadyMethods.

(** X19: the depth counter never ends below where it started.  A call of
    [encode] that raises leaves it where it was or higher, by the
    containers that were being written expanded: an encoder that is used
    again after an exception indents more, never less. *)
Theorem depth_never_below_start self v lvl :
  lvl <= fst (encode self v lvl).
Proof.
  assert (H : steady (encode self v)).
  { induction v as [p|l IH|l IH|items IH] using pyval_nested_ind.
    - intros l. destruct p; simpl; reflexivity.
    - rewrite encode_list_eq. now apply steady_encode_list.
    - rewrite encode_tuple_eq. now apply steady_encode_list.
    - rewrite encode_dict_eq. now apply steady_encode_object. }
  specialize (H lvl). destruct (encode self v lvl) as [lvl1 [s|e]];
    cbn [fst]; lia.
Qed.

Lemma depth_never_below_start_witness :
  fst (encode dumps_encoder
         (PList [PList [PDict [(KStr (lit "k"), Prim POpaque)]]]) 0) = 3 /\
  0 <= fst (encode dumps_encoder
              (PList [PList [PDict [(KStr (lit "k"), Prim POpaque)]]]) 0).
Proof.
  split; [reflexivity|].
  apply (depth_never_below_start dumps_encoder
           (PList [PList [PDict [(KStr (lit "k"), Prim POpaque)]]]) 0).
Defined.

(** ** Indentation *)

Lemma split_app {A : Type} (x y a b : list A) c :
  x ++ y = a ++ c :: b ->
  (exists l, x = a ++ c :: l /\ b = l ++ y) \/
  (exists l, y = l ++ c :: b /\ a = x ++ l).
Proof.
  revert a. induction x as [|x0 x IH]; intros a H.
  - right. now exists a.
  - destruct a as [|a0 a]; simpl in H; inversion H; subst.
    + left. now exists x.
    + destruct (IH a H2) as [(l & -> & ->)|(l & -> & ->)].
      * left. now exists l.
      * right. now exists l.
Qed.

Section Indentation.
Variable ind : pystr.
Hypothesis Hind : single_line ind.

Lemma str_repeat_succ lvl :
  0 <= lvl -> str_repeat (lvl + 1) ind = str_repeat lvl ind ++ ind.
Proof.
  intros Hl. unfold str_repeat.
  replace (Z.to_nat (lvl + 1)) with (S (Z.to_nat lvl)) by lia.
  induction (Z.to_nat lvl) as [|j IH]; [cbn; now rewrite app_nil_r|].
  change (repeat ind (S (S j))) with (ind :: repeat ind (S j)).
  change (repeat ind (S j)) with (ind :: repeat ind j) at 2.
  rewrite !concat_cons, IH, <- app_assoc. reflexivity.
Qed.

Lemma single_line_app a b :
  single_line a -> single_line b -> single_line (a ++ b).
Proof.
  unfold single_line. intros Ha Hb Hin.
  apply in_app_or in Hin. tauto.
Qed.

Lemma single_line_str_repeat lvl : single_line (str_repeat lvl ind).
Proof.
  apply single_line_Forall, str_repeat_no_nl, single_line_Forall, Hind.
Qed.

Lemma indented_single_line lvl s : single_line s -> indented ind lvl s.
Proof.
  intros Hs a b ->. exfalso. apply Hs.
  apply in_or_app. right. now left.
Qed.

Lemma starts_indented_app lvl t u :
  starts_indented ind lvl t -> starts_indented ind lvl (t ++ u).
Proof. intros [c ->]. exists (c ++ u). now rewrite app_assoc. Qed.

Lemma starts_indented_deeper lvl t :
  0 <= lvl -> starts_indented ind (lvl + 1) t -> starts_indented ind lvl t.
Proof.
  intros Hl [c ->]. exists (ind ++ c).
  now rewrite (str_repeat_succ lvl Hl), <- app_assoc.
Qed.

Lemma indented_deeper lvl s :
  0 <= lvl -> indented ind (lvl + 1) s -> indented ind lvl s.
Proof.
  intros Hl Hs a b Heq. destruct (Hs a b Heq) as [H|H]; [left|now right].
  now apply starts_indented_deeper.
Qed.

Lemma indented_app lvl s t :
  indented ind lvl s -> indented ind lvl t -> indented ind lvl (s ++ t).
Proof.
  intros Hs Ht a b Heq. unfold nl in Heq. cbn [app] in Heq.
  apply split_app in Heq as [(l & Hl & ->)|(l & Hl & _)].
  - destruct (Hs a l Hl) as [H|[c ->]].
    + left. now apply starts_indented_app.
    + right. exists (c ++ t). now rewrite app_assoc.
  - exact (Ht l b Hl).
Qed.

(** A newline in front of a text that is indented. *)
Lemma indented_newline lvl t :
  starts_indented ind lvl t \/ (exists c, t = nl ++ c) ->
  indented ind lvl t ->
  indented ind lvl (nl ++ t).
Proof.
  intros Hstart Ht a b Heq. unfold nl in Heq. cbn [app] in Heq.
  destruct a as [|a0 a]; simpl in Heq; inversion Heq; subst.
  - exact Hstart.
  - exact (Ht a b eq_refl).
Qed.

(** The lines of a container, joined. *)
Lemma indented_join lvl lines :
  Forall (fun line => starts_indented ind lvl line /\ indented ind lvl line)
         lines ->
  indented ind lvl (join (lit "," ++ nl) lines) /\
  (lines <> [] -> starts_indented ind lvl (join (lit "," ++ nl) lines)).
Proof.
  induction 1 as [|p lines [Hp1 Hp2] Hrest [IH1 IH2]].
  - split; [|intros H; contradiction]. apply indented_single_line.
    intros [].
  - cbn [join]. destruct lines as [|q lines].
    + split; [exact Hp2|intros _; exact Hp1].
    + split; [|intros _; now apply starts_indented_app].
      apply indented_app; [exact Hp2|].
      change ((lit "," ++ nl) ++ join (lit "," ++ nl) (q :: lines))
        with (lit "," ++ (nl ++ join (lit "," ++ nl) (q :: lines))).
      apply indented_app.
      * apply indented_single_line. intros [H|[]]. discriminate H.
      * apply indented_newline; [left; apply IH2; discriminate|exact IH1].
Qed.

Lemma indented_expanded opening closing lvl lines :
  single_line opening -> single_line closing ->
  Forall (fun line => starts_indented ind lvl line /\ indented ind lvl line)
         lines ->
  indented ind lvl (expanded_text opening closing ind lvl lines).
Proof.
  intros Ho Hc Hlines. unfold expanded_text.
  destruct (indented_join lvl lines Hlines) as [Hj Hstart].
  assert (Htail : indented ind lvl (nl ++ str_repeat lvl ind ++ closing)).
  { apply indented_newline.
    - left. now exists closing.
    - apply indented_single_line, single_line_app;
        [apply single_line_str_repeat|exact Hc]. }
  apply indented_app; [now apply indented_single_line|].
  apply indented_newline.
  - destruct lines as [|p lines].
    + right. now exists (str_repeat lvl ind ++ closing).
    + left. apply starts_indented_app, Hstart. discriminate.
  - now apply indented_app.
Qed.

(** A line of an expanded container: the indentation of the next depth, a
    prefix on that line, and a text indented for that depth. *)
Lemma indented_line lvl prefix out :
  0 <= lvl -> single_line prefix ->
  indented ind (lvl + 1) out ->
  starts_indented ind lvl (str_repeat (lvl + 1) ind ++ prefix ++ out) /\
  indented ind lvl (str_repeat (lvl + 1) ind ++ prefix ++ out).
Proof.
  intros Hl Hp Hout. split.
  - apply starts_indented_deeper; [exact Hl|]. now exists (prefix ++ out).
  - apply indented_deeper; [exact Hl|].
    apply indented_app; [apply indented_single_line, single_line_str_repeat|].
    apply indented_app; [now apply indented_single_line|exact Hout].
Qed.
End Indentation.

Lemma json_dumps_key_single_line self k : single_line (json_dumps_key self k).
Proof.
  apply single_line_Forall. unfold json_dumps_key.
  destruct (ensure_ascii self);
    [apply encode_basestring_ascii_no_nl|apply encode_basestring_no_nl].
Qed.

(** X20: nesting shows as indentation.  When the indent holds no newline,
    every line of the text of a value encoded at depth [lvl], other than
    the first, starts with [lvl] copies of the indent, the empty line of an
    expanded empty list apart. *)
Theorem output_is_indented self v :
  single_line (indent self) ->
  forall lvl lvl' s,
    0 <= lvl ->
    encode self v lvl = (lvl', Ok s) ->
    indented (indent self) lvl s.
Proof.
  intros Hind.
  assert (Hlist : forall l,
             Forall (fun el => forall lvl lvl' s,
                         0 <= lvl -> encode self el lvl = (lvl', Ok s) ->
                         indented (indent self) lvl s) l ->
             forall lvl lvl' s,
               0 <= lvl ->
               _encode_list self is_container (encode self) l lvl
               = (lvl', Ok s) ->
               indented (indent self) lvl s).
  { intros l IH lvl lvl' s Hl H.
    apply _encode_list_ok in H as [_ H]; [|apply encode_children_balanced].
    destruct H as [(Helig & parts & Hparts & _ & ->)|(outs & Houts & ->)].
    - apply indented_single_line, inline_text_single_line.
      apply andb_true_iff in Helig as [Hprim _].
      apply negb_true_iff in Hprim.
      exact (prims_single_line _ _ _ _ Hprim Hparts).
    - apply indented_expanded; try exact Hind;
        try (intros [H|[]]; discriminate H).
      clear -Hind IH Houts Hl.
      induction Houts as [|el out l outs Hel _ IHl]; [constructor|].
      inversion IH as [|? ? IHel IHrest]; subst.
      constructor; [|exact (IHl IHrest)].
      unfold element_line.
      assert (Hl1 : 0 <= lvl + 1) by lia.
      exact (indented_line (indent self) Hind lvl [] out Hl
               (fun H : In 10%N [] => H) (IHel _ _ _ Hl1 Hel)). }
  induction v as [p|l IH|l IH|items IH] using pyval_nested_ind;
    intros lvl lvl' s Hl H.
  - apply indented_single_line. exact (encode_prim_single_line _ _ _ _ _ H).
  - rewrite encode_list_eq in H. exact (Hlist l IH lvl lvl' s Hl H).
  - rewrite encode_tuple_eq in H. exact (Hlist l IH lvl lvl' s Hl H).
  - rewrite encode_dict_eq, _encode_object_cases in H.
    destruct items as [|kv items].
    + inversion H; subst. apply indented_single_line.
      intros [E|[E|[]]]; discriminate E.
    + apply expand_object_ok in H as [_ (outs & Houts & ->)];
        [|apply encode_values_balanced].
      apply indented_expanded; try exact Hind;
        try (intros [E|[]]; discriminate E).
      apply (object_entries_Forall
               (fun v => forall lvl lvl' s,
                    0 <= lvl -> encode self v lvl = (lvl', Ok s) ->
                    indented (indent self) lvl s) self) in IH.
      unfold on_value in IH.
      clear -Hind IH Houts Hl.
      induction Houts as [|[k v] out es outs Hel _ IHes]; [constructor|].
      inversion IH as [|? ? IHel IHrest]; subst.
      cbn [combine map fst snd]. constructor; [|exact (IHes IHrest)].
      unfold entry_line.
      assert (Hkey : single_line (json_dumps_key self k ++ lit ": ")).
      { apply single_line_app; [apply json_dumps_key_single_line|].
        intros [E|[E|[]]]; discriminate E. }
      assert (Hl1 : 0 <= lvl + 1) by lia.
      pose proof (indented_line (indent self) Hind lvl _ out Hl Hkey
                    (IHel _ _ _ Hl1 Hel)) as Hline.
      now rewrite <- !app_assoc in Hline.
Qed.

Lemma output_is_indented_witness :
  exists s,
    encode dumps_encoder sample_tree 2 = (2, Ok s) /\
    indented (lit "  ") 2 s.
Proof.
  destruct (encode dumps_encoder sample_tree 2) as [lvl' [s|e]] eqn:H;
    [|vm_compute in H; discriminate H].
  assert (Hi : indented (indent dumps_encoder) 2 s).
  { apply (output_is_indented dumps_encoder sample_tree) with (lvl' := lvl');
      [|lia|exact H].
    intros [E|[E|[]]]; discriminate E. }
  assert (Hl : lvl' = 2) by (vm_compute in H; congruence).
  subst lvl'. exists s. split; [reflexivity|exact Hi].
Defined.

(** ** Encoders with other options *)

(** *** Strings with [ensure_ascii] *)

Lemma hex_value_hex_char d : (d < 16)%N -> hex_value (hex_char d) = Some d.
Proof.
  intros Hd. unfold hex_value, hex_char.
  destruct (N.ltb_spec d 10) as [Hlt|Hge].
  - replace ((48 <=? 48 + d) && (48 + d <=? 57))%N with true
      by (symmetry; apply andb_true_iff; split; apply N.leb_le; lia).
    f_equal. lia.
  - replace ((48 <=? 87 + d) && (87 + d <=? 57))%N with false
      by (symmetry; apply andb_false_iff; right; apply N.leb_gt; lia).
    replace ((97 <=? 87 + d) && (87 + d <=? 102))%N with true
      by (symmetry; apply andb_true_iff; split; apply N.leb_le; lia).
    f_equal. lia.
Qed.

Lemma nibble c k : N.land (N.shiftr c k) 15 = ((c / 2 ^ k) mod 16)%N.
Proof.
  rewrite N.shiftr_div_pow2. change 15%N with (N.ones 4).
  now rewrite N.land_ones.
Qed.

(** The four hexadecimal digits of a code point below [0x10000] decode to
    it. *)
Lemma decode_hex4_any c :
  (c < 65536)%N ->
  match hex4 c with
  | [h1; h2; h3; h4] => decode_uXXXX h1 h2 h3 h4 = Some c
  | _ => False
  end.
Proof.
  intros Hc. unfold hex4, decode_uXXXX.
  rewrite !hex_value_hex_char by apply land_15.
  f_equal. rewrite !nibble.
  change (N.land c 15) with (N.land (N.shiftr c 0) 15). rewrite nibble.
  change (2 ^ 12)%N with 4096%N. change (2 ^ 8)%N with 256%N.
  change (2 ^ 4)%N with 16%N. change (2 ^ 0)%N with 1%N.
  rewrite N.div_1_r.
  assert (E1 : (c / 256 = c / 16 / 16)%N)
    by (rewrite N.Div0.div_div; reflexivity).
  assert (E2 : (c / 4096 = c / 16 / 16 / 16)%N)
    by (rewrite !N.Div0.div_div; reflexivity).
  rewrite E1, E2.
  pose proof (N.div_mod c 16 ltac:(lia)).
  pose proof (N.div_mod (c / 16) 16 ltac:(lia)).
  pose proof (N.div_mod (c / 16 / 16) 16 ltac:(lia)).
  pose proof (N.div_mod (c / 16 / 16 / 16) 16 ltac:(lia)).
  assert (E4 : (c / 16 / 16 / 16 / 16 = 0)%N).
  { rewrite !N.Div0.div_div. apply N.div_small. lia. }
  lia.
Qed.

Lemma scanstring_u_single h1 h2 h3 h4 uni more :
  decode_uXXXX h1 h2 h3 h4 = Some uni ->
  (uni < 55296 \/ 56319 < uni)%N ->
  scanstring (92 :: 117 :: h1 :: h2 :: h3 :: h4 :: more)%N
  = match scanstring more with
    | Some (t, r) => Some (uni :: t, r)
    | None => None
    end.
Proof.
  intros Hdec Huni. cbn [scanstring].
  change (92 =? 34)%N with false. change (92 <? 32)%N with false.
  change (92 =? 92)%N with true. change (117 =? 117)%N with true.
  cbv iota. rewrite Hdec.
  assert (Hout : ((55296 <=? uni) && (uni <=? 56319))%N = false).
  { apply andb_false_iff. destruct Huni; [left; apply N.leb_gt|right; apply N.leb_gt]; lia. }
  rewrite Hout. reflexivity.
Qed.

Lemma scanstring_u_pair h1 h2 h3 h4 g1 g2 g3 g4 hi lo more :
  decode_uXXXX h1 h2 h3 h4 = Some hi ->
  decode_uXXXX g1 g2 g3 g4 = Some lo ->
  (55296 <= hi <= 56319)%N ->
  (56320 <= lo <= 57343)%N ->
  scanstring (92 :: 117 :: h1 :: h2 :: h3 :: h4 ::
              92 :: 117 :: g1 :: g2 :: g3 :: g4 :: more)%N
  = match scanstring more with
    | Some (t, r) =>
        Some ((65536 + N.lor (N.shiftl (hi - 55296) 10) (lo - 56320))%N :: t,
              r)
    | None => None
    end.
Proof.
  intros Hhi Hlo Rhi Rlo.
  change (scanstring (92 :: 117 :: h1 :: h2 :: h3 :: h4 ::
                      92 :: 117 :: g1 :: g2 :: g3 :: g4 :: more)%N)
    with (match decode_uXXXX h1 h2 h3 h4 with
          | None => None
          | Some uni =>
              let single :=
                match scanstring (92 :: 117 :: g1 :: g2 :: g3 :: g4 :: more)%N
                with
                | Some (t, r) => Some (uni :: t, r)
                | None => None
                end in
              if ((55296 <=? uni) && (uni <=? 56319))%N then
                match decode_uXXXX g1 g2 g3 g4 with
                | None => None
                | Some uni2 =>
                    if ((56320 <=? uni2) && (uni2 <=? 57343))%N then
                      match scanstring more with
                      | Some (t, r) =>
                          Some ((65536 +
                                 N.lor (N.shiftl (uni - 55296) 10)
                                       (uni2 - 56320))%N :: t, r)
                      | None => None
                      end
                    else single
                end
              else single
          end).
  rewrite Hhi, Hlo. cbv zeta.
  replace ((55296 <=? hi) && (hi <=? 56319))%N with true
    by (symmetry; apply andb_true_iff; split; apply N.leb_le; lia).
  replace ((56320 <=? lo) && (lo <=? 57343))%N with true
    by (symmetry; apply andb_true_iff; split; apply N.leb_le; lia).
  reflexivity.
Qed.

(** Bits that do not overlap add up. *)
Lemma lor_shiftl_10 hi lo :
  (lo < 1024)%N -> N.lor (N.shiftl hi 10) lo = (hi * 1024 + lo)%N.
Proof.
  intros Hlo.
  assert (Hland : N.land (N.shiftl hi 10) lo = 0%N).
  { apply N.bits_inj. intros i. rewrite N.land_spec, N.bits_0.
    destruct (N.lt_ge_cases i 10) as [Hi|Hi].
    - now rewrite N.shiftl_spec_low.
    - rewrite <- (N.mod_small lo (2 ^ 10)) by exact Hlo.
      rewrite N.mod_pow2_bits_high by exact Hi. apply andb_false_r. }
  rewrite <- (N.lxor_lor _ _ Hland), <- (N.add_nocarry_lxor _ _ Hland).
  now rewrite N.shiftl_mul_pow2.
Qed.

(** The surrogate pair of a code point above [0xffff]. *)
Lemma surrogate_pair c :
  (65536 <= c < 1114112)%N ->
  let n := (c - 65536)%N in
  let hi := N.lor 55296 (N.land (N.shiftr n 10) 1023) in
  let lo := N.lor 56320 (N.land n 1023) in
  (55296 <= hi <= 56319)%N /\ (56320 <= lo <= 57343)%N /\
  (65536 + N.lor (N.shiftl (hi - 55296) 10) (lo - 56320))%N = c.
Proof.
  intros Hc n hi lo.
  assert (Hn : (n < 1048576)%N) by (unfold n; lia).
  assert (Hq : (N.land (N.shiftr n 10) 1023 = n / 1024)%N).
  { rewrite N.shiftr_div_pow2. change 1023%N with (N.ones 10).
    rewrite N.land_ones. change (2 ^ 10)%N with 1024%N.
    apply N.mod_small. apply N.Div0.div_lt_upper_bound; lia. }
  assert (Hr : (N.land n 1023 = n mod 1024)%N).
  { change 1023%N with (N.ones 10). now rewrite N.land_ones. }
  assert (Hq' : (n / 1024 < 1024)%N) by (apply N.Div0.div_lt_upper_bound; lia).
  assert (Hr' : (n mod 1024 < 1024)%N) by (apply N.mod_lt; lia).
  assert (Hhi : hi = (55296 + n / 1024)%N).
  { unfold hi. rewrite Hq. change 55296%N with (N.shiftl 54 10).
    rewrite lor_shiftl_10 by exact Hq'. reflexivity. }
  assert (Hlo : lo = (56320 + n mod 1024)%N).
  { unfold lo. rewrite Hr. change 56320%N with (N.shiftl 55 10).
    rewrite lor_shiftl_10 by exact Hr'. reflexivity. }
  rewrite Hhi, Hlo. split; [lia|]. split; [lia|].
  replace (55296 + n / 1024 - 55296)%N with (n / 1024)%N by lia.
  replace (56320 + n mod 1024 - 56320)%N with (n mod 1024)%N by lia.
  rewrite lor_shiftl_10 by exact Hr'.
  pose proof (N.div_mod n 1024 ltac:(lia)).
  unfold n in *. lia.
Qed.

Lemma ESCAPE_DCT_Some_escape c r :
  ESCAPE_DCT c = Some r -> escape_ascii c = escape c.
Proof. intros H. unfold escape_ascii, escape. now rewrite H. Qed.

Lemma scanstring_escape_ascii c more :
  encodable c = true ->
  scanstring (escape_ascii c ++ more)
  = match scanstring more with
    | Some (t, r) => Some (c :: t, r)
    | None => None
    end.
Proof.
  intros Hc. destruct (ESCAPE_DCT c) as [r|] eqn:Hdct.
  - rewrite (ESCAPE_DCT_Some_escape c r Hdct). apply scanstring_escape.
  - pose proof (scanstring_escape c more) as Hraw.
    unfold escape in Hraw. rewrite Hdct in Hraw.
    unfold escape_ascii. rewrite Hdct.
    destruct ((32 <=? c) && (c <=? 126))%N eqn:Hpr; [exact Hraw|].
    unfold encodable in Hc. apply andb_true_iff in Hc as [Hsur Hmax].
    apply N.ltb_lt in Hmax.
    assert (Hs : (c < 55296 \/ 57343 < c)%N).
    { apply orb_true_iff in Hsur as [H|H]; apply N.ltb_lt in H; lia. }
    destruct (N.ltb_spec c 65536) as [Hlt|Hge].
    + pose proof (decode_hex4_any c Hlt) as Hdec.
      destruct (hex4 c) as [|h1 [|h2 [|h3 [|h4 [|]]]]]; try contradiction.
      cbn [app]. apply scanstring_u_single; [exact Hdec|lia].
    + cbv zeta.
      destruct (surrogate_pair c ltac:(lia)) as (Rhi & Rlo & Hval).
      cbv zeta in Rhi, Rlo, Hval.
      set (hi := N.lor 55296 (N.land (N.shiftr (c - 65536) 10) 1023)) in *.
      set (lo := N.lor 56320 (N.land (c - 65536) 1023)) in *.
      pose proof (decode_hex4_any hi ltac:(lia)) as Dhi.
      pose proof (decode_hex4_any lo ltac:(lia)) as Dlo.
      destruct (hex4 hi) as [|h1 [|h2 [|h3 [|h4 [|]]]]]; try contradiction.
      destruct (hex4 lo) as [|g1 [|g2 [|g3 [|g4 [|]]]]]; try contradiction.
      cbn [app].
      rewrite (scanstring_u_pair _ _ _ _ _ _ _ _ hi lo more Dhi Dlo Rhi Rlo).
      now rewrite Hval.
Qed.

Lemma scans_escape k : scans escape k.
Proof. intros rest. apply scanstring_basestring. Qed.

Lemma scans_escape_ascii k : forallb encodable k = true -> scans escape_ascii k.
Proof.
  intros Hk rest. induction k as [|c k IH]; [reflexivity|].
  cbn [forallb] in Hk. apply andb_true_iff in Hk as [Hc Hk].
  cbn [flat_map]. rewrite <- app_assoc, scanstring_escape_ascii by exact Hc.
  now rewrite IH.
Qed.

Lemma printable_encodable k : Forall printable k -> forallb encodable k = true.
Proof.
  intros H. apply forallb_forall. rewrite Forall_forall in H.
  intros c Hc. specialize (H c Hc). unfold printable in H. unfold encodable.
  apply andb_true_iff. split; [apply orb_true_iff; left|]; apply N.ltb_lt; lia.
Qed.

(** The text of a key is read back when the encoder escapes it. *)
Lemma scans_key_text self k :
  (ensure_ascii self = true ->
   match k with KStr s => forallb encodable s = true | _ => True end) ->
  scans (escape_of self) (key_text k).
Proof.
  intros Hk. unfold escape_of.
  destruct (ensure_ascii self); [|apply scans_escape].
  apply scans_escape_ascii. specialize (Hk eq_refl).
  pose proof (key_text_printable k) as Hpr.
  destruct k; try exact Hk; now apply printable_encodable.
Qed.

Lemma json_dumps_key_eq self k :
  json_dumps_key self k = 34%N :: flat_map (escape_of self) k ++ [34%N].
Proof.
  unfold json_dumps_key, escape_of. now destruct (ensure_ascii self).
Qed.

Lemma parses_string_of self s :
  scans (escape_of self) s ->
  parses (json_dumps_key self s) (Prim (PStr s)).
Proof.
  intros Hs. rewrite json_dumps_key_eq.
  split; [split; reflexivity|].
  intros [|fuel] rest Hrest Hfuel; [lia|].
  change ((34%N :: flat_map (escape_of self) s ++ [34%N]) ++ rest)
    with (34%N :: ((flat_map (escape_of self) s ++ [34%N]) ++ rest)).
  rewrite <- app_assoc. cbn [scan_once app].
  change (34 =? 34)%N with true. cbv iota.
  now rewrite Hs.
Qed.

(** *** Objects with escaped keys *)

Section Members.
Variable esc : N -> pystr.

Lemma JSONObject_step_of fuel k out v X acc :
  scans esc k ->
  parses out v ->
  delimited X ->
  (2 * List.length (out ++ X) < fuel)%nat ->
  JSONObject (S fuel) (member_text_of esc k out ++ X) acc
  = match skip_ws X with
    | d :: r3 =>
        if (d =? 125)%N then
          Some (PDict (str_items (dict_of_items (acc ++ [(k, v)]))), r3)
        else if (d =? 44)%N then
          match skip_ws r3 with
          | q :: r4 =>
              if (q =? 34)%N then JSONObject fuel r4 (acc ++ [(k, v)])
              else None
          | [] => None
          end
        else None
    | [] => None
    end.
Proof.
  intros Hk [Hsolid Hscan] HX Hfuel.
  unfold member_text_of. rewrite <- app_assoc. cbn [app JSONObject].
  rewrite Hk.
  change (skip_ws ((lit ": " ++ out) ++ X))
    with (58%N :: 32%N :: (out ++ X)).
  cbv iota. change (58 =? 58)%N with true. cbv iota.
  change (skip_ws (32%N :: (out ++ X))) with (skip_ws (out ++ X)).
  rewrite skip_ws_solid by now apply starts_solid_app.
  now rewrite Hscan.
Qed.


Variables w2 post : pystr.
Hypothesis Hw2 : ws_only w2.
Hypothesis Hpost : ws_only post.

Lemma JSONObject_members_of kos vals :
  Forall2 (fun ko v => scans esc (fst ko) /\ parses (snd ko) v) kos vals ->
  forall k out v fuel acc rest,
    scans esc k ->
    parses out v ->
    (2 * List.length (member_text_of esc k out ++ members_tail_of esc w2 kos
                        ++ post ++ 125%N :: rest) + 3 < fuel)%nat ->
    JSONObject fuel (member_text_of esc k out ++ members_tail_of esc w2 kos
                       ++ post ++ 125%N :: rest) acc
    = Some (PDict (str_items
                     (dict_of_items
                        (acc ++ (k, v) :: combine (map fst kos) vals))),
            rest).
Proof.
  induction 1 as [|ko v' kos vals [Hkk Hko] Hkos IH];
    intros k out v [|fuel] acc rest Hk Hout Hfuel; try lia.
  - cbn [members_tail_of map combine app] in *.
    rewrite (JSONObject_step_of fuel k out v _ acc Hk Hout);
      [|apply delimited_after_ws; [exact Hpost|unfold delimiter; tauto]
       |unfold member_text_of in Hfuel; list_len].
    rewrite skip_ws_app by exact Hpost.
    reflexivity.
  - cbn [members_tail_of map combine] in *.
    set (next := member_text_of esc (fst ko) (snd ko)
                   ++ members_tail_of esc w2 kos
                   ++ post ++ 125%N :: rest) in *.
    replace ((44%N :: w2 ++ 34%N :: member_text_of esc (fst ko) (snd ko)
                ++ members_tail_of esc w2 kos) ++ post ++ 125%N :: rest)
      with (44%N :: w2 ++ 34%N :: next) in *
      by (unfold next;
          repeat (progress (rewrite <- ?app_assoc; cbn [app]));
          reflexivity).
    rewrite (JSONObject_step_of fuel k out v _ acc Hk Hout);
      [|simpl; unfold delimiter; tauto
       |unfold member_text_of in Hfuel; list_len].
    change (skip_ws (44%N :: w2 ++ 34%N :: next))
      with (44%N :: w2 ++ 34%N :: next).
    cbv iota. change (44 =? 125)%N with false. change (44 =? 44)%N with true.
    cbv iota. rewrite skip_ws_app by exact Hw2.
    change (skip_ws (34%N :: next)) with (34%N :: next).
    cbv iota. change (34 =? 34)%N with true. cbv iota.
    unfold next. destruct ko as [k' out']. cbn [fst snd] in *.
    rewrite (IH k' out' v' fuel (acc ++ [(k, v)]) rest Hkk Hko).
    + now rewrite <- app_assoc.
    + fold next. unfold member_text_of in Hfuel. list_len.
Qed.
End Members.

Lemma join_members_of self ind1 (ko : pystr * pystr) kos :
  join (lit "," ++ nl)
       (map (fun ko : pystr * pystr =>
               ind1 ++ json_dumps_key self (fst ko) ++ lit ": " ++ snd ko)
            (ko :: kos))
  = ind1 ++ 34%N :: member_text_of (escape_of self) (fst ko) (snd ko)
      ++ members_tail_of (escape_of self) (nl ++ ind1) kos.
Proof.
  revert ko. induction kos as [|ko' kos IH]; intros ko.
  - cbn [map join members_tail_of]. rewrite app_nil_r.
    unfold member_text_of. rewrite json_dumps_key_eq.
    repeat (progress (rewrite <- ?app_assoc; cbn [app])). reflexivity.
  - rewrite map_cons, join_cons2, IH. cbn [members_tail_of].
    unfold member_text_of. rewrite !json_dumps_key_eq.
    change (lit "," ++ nl) with [44%N; 10%N]. unfold nl.
    repeat (progress (rewrite <- ?app_assoc; cbn [app])). reflexivity.
Qed.

Lemma parses_object_of self lvl (kos : list (pystr * pystr)) vals :
  ws_only (indent self) ->
  kos <> [] ->
  Forall2 (fun ko v => scans (escape_of self) (fst ko) /\ parses (snd ko) v)
          kos vals ->
  parses (expanded_text (lit "{") (lit "}") (indent self) lvl
            (map (fun ko : pystr * pystr =>
                    entry_line self lvl (fst ko) (snd ko))
                 kos))
         (PDict (str_items (dict_of_items (combine (map fst kos) vals)))).
Proof.
  intros Hind Hne Hkos. split; [split; reflexivity|].
  intros [|fuel] rest Hrest Hfuel; [lia|].
  destruct Hkos as [|ko v kos vals [Hk Hko] Hkos]; [contradiction|].
  unfold expanded_text, entry_line in *.
  set (ind1 := str_repeat (lvl + 1) (indent self)) in *.
  set (ind0 := str_repeat lvl (indent self)) in *.
  assert (Hind1 : ws_only ind1) by now apply ws_only_repeat.
  assert (Hind0 : ws_only ind0) by now apply ws_only_repeat.
  rewrite join_members_of in *.
  set (esc := escape_of self) in *.
  set (body := member_text_of esc (fst ko) (snd ko)
                 ++ members_tail_of esc (nl ++ ind1) kos
                 ++ (nl ++ ind0) ++ 125%N :: rest) in *.
  assert (Htext :
    (lit "{" ++ nl ++ (ind1 ++ 34%N :: member_text_of esc (fst ko) (snd ko)
                         ++ members_tail_of esc (nl ++ ind1) kos)
       ++ nl ++ ind0 ++ lit "}") ++ rest
    = 123%N :: ((nl ++ ind1) ++ 34%N :: body)).
  { unfold body, nl.
    repeat (progress (rewrite <- ?app_assoc; cbn [app])). reflexivity. }
  rewrite Htext in *. clear Htext.
  cbn [scan_once].
  change (123 =? 34)%N with false. change (123 =? 123)%N with true. cbv iota.
  rewrite skip_ws_app by (apply ws_only_app; [apply ws_only_nl|exact Hind1]).
  change (skip_ws (34%N :: body)) with (34%N :: body). cbv iota.
  change (34 =? 125)%N with false. change (34 =? 34)%N with true. cbv iota.
  unfold body. destruct ko as [k out]. cbn [fst snd map combine] in *.
  change ((k, v) :: combine (map fst kos) vals)
    with ([] ++ (k, v) :: combine (map fst kos) vals).
  apply (JSONObject_members_of esc (nl ++ ind1) (nl ++ ind0));
    [apply ws_only_app; [apply ws_only_nl|exact Hind1]
    |apply ws_only_app; [apply ws_only_nl|exact Hind0]
    |exact Hkos|exact Hk|exact Hko|].
  fold body. fold body in Hfuel. list_len.
Qed.

(** *** Trees *)

Section AnyEncoder.
Variable self : encoder.
Hypothesis Hindent : ws_only (indent self).

Lemma texts_round_trip {A : Type} (get : A -> pyval) (l : list A) lvl :
  Forall (fun el => round_trips self (get el)) l ->
  exists texts,
    Forall2 (fun el t => encode self (get el) lvl = (lvl, Ok t)) l texts /\
    Forall2 (fun t el => parses t (normal_tree self (get el))) texts l.
Proof.
  induction 1 as [|el l Hel _ IH].
  - exists []. split; constructor.
  - destruct (Hel lvl) as (t & Ht & Hp). destruct IH as (ts & Hts & Hps).
    exists (t :: ts). split; constructor; assumption.
Qed.

Lemma round_trips_list l :
  Forall (round_trips self) l -> round_trips self (PList l).
Proof.
  intros Hl lvl.
  destruct (texts_round_trip (fun el => el) l lvl Hl) as (parts & Hparts & Hpp).
  destruct (texts_round_trip (fun el => el) l (lvl + 1) Hl)
    as (outs & Houts & Hpo).
  apply Forall2_map_r in Hpp, Hpo.
  cbn [normal_tree].
  assert (Hexp : expand_list self (encode self) l lvl
                 = (lvl, Ok (expanded_text (lit "[") (lit "]")
                               (indent self) lvl
                               (map (fun out => str_repeat (lvl + 1)
                                                  (indent self) ++ out)
                                    outs))))
    by now apply expand_list_run.
  rewrite encode_list_eq, _encode_list_cases.
  destruct (negb (existsb is_container l) && (len l <=? MAX_ITEMS)).
  - rewrite (for_each_run _ _ _ _ Hparts).
    destruct (len (inline_text parts) + lvl * 2 <? MAX_WIDTH).
    + eexists. split; [reflexivity|]. now apply parses_inline.
    + eexists. split; [exact Hexp|].
      apply parses_expanded; [exact Hindent|exact Hpo].
  - eexists. split; [exact Hexp|].
    apply parses_expanded; [exact Hindent|exact Hpo].
Qed.

Lemma round_trips_tuple l :
  Forall (round_trips self) l -> round_trips self (PTuple l).
Proof.
  intros Hl lvl. destruct (round_trips_list l Hl lvl) as (text & Henc & Hp).
  exists text. split; [|exact Hp].
  now rewrite encode_tuple_eq, <- encode_list_eq.
Qed.

Lemma entries_round_trip (es : list (pystr * pyval)) outs :
  Forall (fun e => scans (escape_of self) (fst e)) es ->
  Forall2 (fun t e => parses t (normal_tree self (snd e))) outs es ->
  let kos := combine (map fst es) outs in
  (forall f : pystr * pystr -> pystr,
      map (fun eo : (pystr * pyval) * pystr => f (fst (fst eo), snd eo))
          (combine es outs)
      = map f kos) /\
  Forall2 (fun ko v => scans (escape_of self) (fst ko) /\ parses (snd ko) v)
          kos (map (fun e => normal_tree self (snd e)) es) /\
  combine (map fst kos) (map (fun e => normal_tree self (snd e)) es)
  = map (on_snd (normal_tree self)) es /\
  (es <> [] -> kos <> []).
Proof.
  intros Hk H. revert Hk.
  induction H as [|t e outs es Ht _ IH]; cbn zeta; intros Hk.
  - repeat split; try constructor. intros H. contradiction.
  - inversion Hk as [|? ? He Hes]; subst.
    cbn zeta in IH. destruct (IH Hes) as (Hmap & Hkos & Hcomb & _).
    cbn [map combine fst snd]. repeat split.
    + intros f. now rewrite Hmap.
    + constructor; [split; [exact He|exact Ht]|exact Hkos].
    + rewrite Hcomb. reflexivity.
    + discriminate.
Qed.

Lemma round_trips_dict items :
  Forall (fun kv => scans (escape_of self) (key_text (fst kv))) items ->
  Forall (fun kv => round_trips self (snd kv)) items ->
  round_trips self (PDict items).
Proof.
  intros Hkeys Hitems lvl. rewrite encode_dict_eq, _encode_object_cases.
  destruct items as [|kv items].
  - eexists. split; [reflexivity|].
    cbn [normal_tree map]. rewrite object_entries_nil.
    apply parses_empty_object.
  - set (o := kv :: items) in *.
    assert (Hne : o <> []) by discriminate.
    pose proof (object_entries_Forall (round_trips self) self o Hitems)
      as Hentries.
    assert (Hscan : Forall (fun e : pystr * pyval =>
                              scans (escape_of self) (fst e))
                           (object_entries self o)).
    { apply Forall_forall. intros [t v] Hin.
      destruct (entry_from_item self o t v Hin) as (k & Hk & <-).
      rewrite Forall_forall in Hkeys. exact (Hkeys _ Hk). }
    destruct (texts_round_trip snd _ (lvl + 1) Hentries) as (outs & Houts & Hpo).
    rewrite (expand_object_run _ _ _ _ _ Houts).
    eexists. split; [reflexivity|].
    destruct (entries_round_trip _ _ Hscan Hpo) as (Hmap & Hkos & Hcomb & Hkne).
    cbn [normal_tree].
    change (map (fun kv0 : pykey * pyval =>
                   (fst kv0, normal_tree self (snd kv0))) o)
      with (map (on_snd (normal_tree self)) o).
    rewrite object_entries_map.
    rewrite <- (dict_of_items_id (map (on_snd (normal_tree self)) _)).
    + rewrite <- Hcomb.
      pose (F := (fun ko : pystr * pystr =>
                    entry_line self lvl (fst ko) (snd ko))
                 : pystr * pystr -> pystr).
      change (map (fun ko : pystr * pyval * pystr =>
                     entry_line self lvl (fst (fst ko)) (snd ko))
                  (combine (object_entries self o) outs))
        with (@map (pystr * pyval * pystr) pystr
                   (fun eo => F (fst (fst eo), snd eo))
                   (combine (object_entries self o) outs)).
      rewrite (Hmap F). unfold F.
      apply parses_object_of;
        [exact Hindent
        |apply Hkne, object_entries_nonempty, Hne|exact Hkos].
    + rewrite map_map. cbn [on_snd fst]. apply object_entries_NoDup.
Qed.

Lemma round_trips_prim p :
  writable float_reads_back (Prim p) = true ->
  (ensure_ascii self = true -> all_chars encodable (Prim p) = true) ->
  round_trips self (Prim p).
Proof.
  intros Hok Hch lvl.
  destruct p as [|b|n|x|s|]; try discriminate Hok.
  1-4: match goal with
       | |- exists _, encode _ (Prim ?q) _ = _ /\ _ =>
           destruct (parses_prim q lvl Hok) as (text & Henc & Hp)
       end;
       exists text; (split; [rewrite <- Henc; reflexivity|exact Hp]).
  exists (json_dumps_key self s). split; [reflexivity|].
  apply parses_string_of.
  apply (scans_key_text self (KStr s)). exact Hch.
Qed.

Lemma writable_round_trips v :
  writable float_reads_back v = true ->
  (ensure_ascii self = true -> all_chars encodable v = true) ->
  round_trips self v.
Proof.
  induction v as [p|l IH|l IH|items IH] using pyval_nested_ind;
    cbn [writable all_chars]; intros Hok Hch.
  - now apply round_trips_prim.
  - apply round_trips_list. rewrite forallb_forall in Hok.
    rewrite Forall_forall in *. intros el Hel. apply (IH el Hel); [auto|].
    intros Ha. specialize (Hch Ha). rewrite forallb_forall in Hch. auto.
  - apply round_trips_tuple. rewrite forallb_forall in Hok.
    rewrite Forall_forall in *. intros el Hel. apply (IH el Hel); [auto|].
    intros Ha. specialize (Hch Ha). rewrite forallb_forall in Hch. auto.
  - rewrite forallb_forall in Hok.
    assert (Hch' : ensure_ascii self = true ->
                   forall kv, In kv items ->
                     match fst kv with
                     | KStr s => forallb encodable s = true
                     | _ => True
                     end /\ all_chars encodable (snd kv) = true).
    { intros Ha kv Hkv. specialize (Hch Ha). rewrite forallb_forall in Hch.
      specialize (Hch kv Hkv). apply andb_true_iff in Hch as [H1 H2].
      split; [|exact H2]. destruct (fst kv); try exact I. exact H1. }
    apply round_trips_dict.
    + apply Forall_forall. intros kv Hkv. apply scans_key_text.
      intros Ha. exact (proj1 (Hch' Ha kv Hkv)).
    + rewrite Forall_forall in *. intros kv Hkv. apply (IH kv Hkv); [auto|].
      intros Ha. exact (proj2 (Hch' Ha kv Hkv)).
Qed.
End AnyEncoder.

(** X21: any indent of white space, either order of the keys, either
    character set.  An encoder whose indent is made of blanks, tabs and
    line ends writes, for every tree that holds no unserialisable object,
    whose floats are reproduced by their own rendering and, when
    [ensure_ascii] is set, whose strings hold no surrogate, a text that
    [loads] reads as [normal_tree self v]: the tree with tuples as lists,
    keys as their texts and the entries of each object as
    [_encode_object] wrote them.  The depth counter is back where it
    was. *)
Theorem encoder_text_reads_back self v lvl :
  ws_only (indent self) ->
  writable float_reads_back v = true ->
  (ensure_ascii self = true -> all_chars encodable v = true) ->
  exists text,
    encode self v lvl = (lvl, Ok text) /\
    loads text = Some (normal_tree self v).
Proof.
  intros Hind Hok Hch.
  destruct (writable_round_trips self Hind v Hok Hch lvl) as (text & Henc & Hp).
  exists text. split; [exact Henc|now apply loads_of_parses].
Qed.

Lemma encoder_text_reads_back_witness :
  normal_tree tab_encoder unicode_tree
  = PDict [(KStr [122; 233]%N, PList [Prim (PStr [128512; 34; 8364]%N)]);
           (KStr (lit "1"), PList [Prim (PFloat float_2_5); Prim PNone])] /\
  exists text,
    encode tab_encoder unicode_tree 0 = (0, Ok text) /\
    loads text = Some (normal_tree tab_encoder unicode_tree).
Proof.
  split; [reflexivity|].
  apply (encoder_text_reads_back tab_encoder unicode_tree 0).
  - repeat constructor.
  - reflexivity.
  - intros _. reflexivity.
Defined.



